(** * The fflonk backend of gnark over BN254: setup and prover

    A shallow embedding of [backend/fflonk/bn254/setup.go] and
    [backend/fflonk/bn254/prove.go].

    Conventions of the embedding.
    - Go slices are lists; an indexed write [a[i] = x] is [store a i x],
      which fails (the Go runtime panics) when [i] is out of range.
    - [int64] cells holding the [-1] sentinel are [Z]; positions and
      variable identifiers, which are never negative, are [nat].
    - [uint64] arithmetic is carried out in [Z] with the wrap-around
      written out ([wrap64]).
    - [fr.Element] is an integer modulo a prime [q] ([Zmod q]).
    - A function that can only panic returns an [option], [None] being the
      panic; a function that also returns an [error] returns a [result]. *)

From Stdlib Require Import ZArith Lia List Bool Field Zmod.
From stdpp Require Import base option list strings gmap.

#[local] Open Scope nat_scope.

(** * Part I: the embedding *)

(** ** Loops over slices *)

(** [for i in idx { s = body(s, i) }], stopping at the first failure. *)
Fixpoint for_each {St I : Type} (body : St -> I -> option St) (idx : list I) (s : St)
  : option St :=
  match idx with
  | [] => Some s
  | i :: idx' =>
      match body s i with
      | Some s' => for_each body idx' s'
      | None => None
      end
  end.

(** [a[i] = x] on a slice: a write out of range panics. *)
Definition store {A : Type} (a : list A) (i : nat) (x : A) : option (list A) :=
  if decide (i < length a) then Some (<[i:=x]> a) else None.

(** ** The constraint system, as far as setup reads it

    [constraint.SparseR1C] carries three wire identifiers and the indices
    of its five selector coefficients; [PlonkCommitments] lists, per
    custom gate, the committed constraint rows and the row of the
    commitment itself. *)

Record SparseR1C : Type := mkSparseR1C {
  XA : nat; XB : nat; XC : nat;
  QL : nat; QR : nat; QO : nat; QM : nat; QC : nat
}.

Record PlonkCommitment : Type := mkPlonkCommitment {
  Committed : list nat;
  CommitmentIndex : nat
}.

Record SparseR1CS : Type := mkSparseR1CS {
  Public : nat;                    (* len(spr.Public) *)
  Secret : nat;                    (* len(spr.Secret) *)
  NbInternalVariables : nat;
  Constraints : list SparseR1C;    (* what GetSparseR1CIterator yields *)
  CommitmentInfo : list PlonkCommitment
}.

Definition GetNbConstraints (spr : SparseR1CS) : nat := length (Constraints spr).

(** [nbVariables] as [NewTrace] passes it to [buildPermutation]. *)
Definition nbVariables (spr : SparseR1CS) : nat :=
  NbInternalVariables spr + Public spr + Secret spr.

(** ** buildPermutation (setup.go) *)

(** First phase: position -> variable id, for the flattened l‖r‖o. *)
Definition lro_placeholders (spr : SparseR1CS) (lro : list nat) : option (list nat) :=
  for_each (fun lro i => store lro i i) (seq 0 (Public spr)) lro.

Definition lro_constraint (sizeSolution offset : nat)
    (lro : list nat) (jc : nat * SparseR1C) : option (list nat) :=
  let '(j, c) := jc in
  lro ← store lro (offset + j) (XA c);
  lro ← store lro (sizeSolution + offset + j) (XB c);
  store lro (2 * sizeSolution + offset + j) (XC c).

Definition build_lro (spr : SparseR1CS) (sizeSolution : nat) : option (list nat) :=
  let sizePermutation := 3 * sizeSolution in
  let lro := replicate sizePermutation 0 in
  lro ← lro_placeholders spr lro;
  let offset := Public spr in
  for_each (lro_constraint sizeSolution offset)
           (zip (seq 0 (length (Constraints spr))) (Constraints spr)) lro.

(** Second phase: link every position to the last position at which the
    same variable was seen. The state is the pair (cycle, permutation). *)
Definition link_step (lro : list nat) (st : list Z * list Z) (i : nat)
  : option (list Z * list Z) :=
  let '(cycle, permutation) := st in
  v ← lro !! i;
  c ← cycle !! v;
  permutation ← (if decide (c ≠ (-1)%Z) then store permutation i c
                 else Some permutation);
  cycle ← store cycle v (Z.of_nat i);
  Some (cycle, permutation).

(** Third phase: the first occurrence of every variable is sent to the
    last one. *)
Definition close_step (lro : list nat) (cycle : list Z) (permutation : list Z) (i : nat)
  : option (list Z) :=
  p ← permutation !! i;
  if decide (p = (-1)%Z) then
    v ← lro !! i;
    c ← cycle !! v;
    store permutation i c
  else Some permutation.

Definition buildPermutation (spr : SparseR1CS) (sizeSolution nbVariables : nat)
  : option (list Z) :=
  let sizePermutation := 3 * sizeSolution in
  let permutation := replicate sizePermutation (-1)%Z in
  lro ← build_lro spr sizeSolution;
  let cycle := replicate nbVariables (-1)%Z in
  '(cycle, permutation) ← for_each (link_step lro) (seq 0 (length lro)) (cycle, permutation);
  for_each (close_step lro cycle) (seq 0 sizePermutation) permutation.

(** *** Specification of the permutation *)

(** Last position below [k] at which variable [v] occurs, or [-1]. *)
Fixpoint last_seen (lro : list nat) (k v : nat) : Z :=
  match k with
  | 0 => (-1)%Z
  | S k' => if decide (lro !! k' = Some v) then Z.of_nat k'
            else last_seen lro k' v
  end.

(** The predecessor of position [i]: the previous occurrence of its
    variable when there is one, the last occurrence otherwise. *)
Definition perm_spec (lro : list nat) (i : nat) : Z :=
  match lro !! i with
  | Some v =>
      if decide (last_seen lro i v = (-1)%Z) then last_seen lro (length lro) v
      else last_seen lro i v
  | None => (-1)%Z
  end.

(** The permutation as a function on positions. *)
Definition next (S : list Z) (i : nat) : nat := Z.to_nat (nth i S 0%Z).


(** Every wire of every constraint names an existing variable. *)
Definition wf_wires (spr : SparseR1CS) : Prop :=
  Forall (fun c => XA c < nbVariables spr /\ XB c < nbVariables spr /\
                   XC c < nbVariables spr) (Constraints spr).

(** The slice [lro] in closed form, for columns of [size] rows: in each of
    the three blocks the rows of the public inputs come first, then the
    rows of the constraints, then the padding. Only the left wire of a
    public-input row is set, to the variable of that input. *)
Definition lro_spec (spr : SparseR1CS) (size : nat) : list nat :=
  let padding := replicate (size - Public spr - length (Constraints spr)) 0 in
  (seq 0 (Public spr) ++ (XA <$> Constraints spr) ++ padding)
  ++ (replicate (Public spr) 0 ++ (XB <$> Constraints spr) ++ padding)
  ++ (replicate (Public spr) 0 ++ (XC <$> Constraints spr) ++ padding).

(** The selector indices of every constraint name an existing
    coefficient, and the committed rows of every custom gate lie inside
    columns of [size] rows. *)
Definition wf_selectors (nbCoefficients : nat) (spr : SparseR1CS) : Prop :=
  Forall (fun c => QL c < nbCoefficients /\ QR c < nbCoefficients /\
                   QM c < nbCoefficients /\ QO c < nbCoefficients /\
                   QC c < nbCoefficients) (Constraints spr).

Definition wf_commitments (spr : SparseR1CS) (size : nat) : Prop :=
  Forall (fun info => Forall (fun c => Public spr + c < size) (Committed info))
         (CommitmentInfo spr).

(** ** Sizes: uint64 arithmetic and the evaluation domains *)

Definition wrap64 (x : Z) : Z := (x mod 2 ^ 64)%Z.

(** [ecc.NextPowerOfTwo] (gnark-crypto): 1 for 0, [n] itself when a single
    bit is set, a panic when the top bit is set, and otherwise
    [1 << (64 - LeadingZeros64 n)], that is [2 ^ (log2 n + 1)]. *)
Definition NextPowerOfTwo (n : Z) : option Z :=
  if (n =? 0)%Z then Some 1%Z
  else if (n =? 2 ^ Z.log2 n)%Z then Some n
  else if (Z.log2 n =? 63)%Z then None
  else Some (2 ^ (Z.log2 n + 1))%Z.

(** [sizeSystem := uint64(nbConstraints + len(spr.Public))]. *)
Definition sizeSystem (spr : SparseR1CS) : Z :=
  wrap64 (Z.of_nat (GetNbConstraints spr + Public spr)).

(** The length of every column of the trace, [size] in [NewTrace], which
    is also the cardinality of the small domain. *)
Definition trace_size (spr : SparseR1CS) : option nat :=
  Z.to_nat <$> NextPowerOfTwo (sizeSystem spr).

(** ** Results of fallible operations *)

Inductive error : Type :=
| ErrCircuitTooSmall          (* "circuit has only %d constraints; unsupported ..." *)
| ErrSrsTooSmall              (* "kzg srs is too small: got %d, need %d" *)
| ErrInvalidPolynomialSize    (* kzg.ErrInvalidPolynomialSize *)
| ErrInvalidWitness           (* witness.ErrInvalidWitness *)
| ErrContextDone              (* errContextDone *)
| ErrChallengeNotFound        (* fiat-shamir: unknown challenge name *)
| ErrChallengeAlreadyComputed (* fiat-shamir: bind after the challenge was computed *)
| ErrPreviousChallengeNotComputed
| ErrInvalidForm.              (* errors.New("invalid form") *)

(** What a Go call ends in: a value, a returned error, or a run-time panic. *)
Inductive result (A : Type) : Type :=
| Ok (a : A)
| Err (e : error)
| Panic.
Arguments Ok {A} a.
Arguments Err {A} e.
Arguments Panic {A}.

#[global] Instance result_ret : MRet result := fun A a => Ok a.
#[global] Instance result_bind : MBind result := fun A B f m =>
  match m with
  | Ok a => f a
  | Err e => Err e
  | Panic => Panic
  end.

(** An out-of-range index, a bad slice bound or a failed allocation panics. *)
Definition or_panic {A : Type} (o : option A) : result A :=
  match o with
  | Some a => Ok a
  | None => Panic
  end.

(** [s[a:b]] on a slice whose capacity is its length. *)
Definition slice {A : Type} (s : list A) (a b : nat) : option (list A) :=
  if decide (a <= b <= length s) then Some (take (b - a) (drop a s)) else None.

(** [uint64 -> int] conversion. *)
Definition int_of_uint64 (x : Z) : Z :=
  (if x <? 2 ^ 63 then x else x - 2 ^ 64)%Z.

(** ** The Fiat-Shamir transcript (gnark-crypto, fiat-shamir)

    A challenge has a position, the values bound to it and, once
    computed, its value. A challenge is the hash of its name, of the
    previous challenge when it is not the first one, and of its bindings
    in the order in which they were bound. *)

Section FiatShamir.
Context {bytes : Type}.
Context (challenge_hash : string -> option bytes -> list bytes -> bytes).

Record challenge : Type := mk_challenge {
  position : nat;
  bindings : list bytes;
  value : option bytes            (* [Some] once [isComputed] *)
}.

Record Transcript : Type := mk_Transcript {
  challenges : gmap string challenge;
  previous : option challenge
}.

Definition NewTranscript (challengesID : list string) : Transcript :=
  mk_Transcript
    (foldl (fun m '(i, id) => <[id := mk_challenge i [] None]> m) ∅
           (imap pair challengesID))
    None.

Definition Bind (challengeID : string) (bValue : bytes) (t : Transcript)
  : result Transcript :=
  match challenges t !! challengeID with
  | None => Err ErrChallengeNotFound
  | Some c =>
      match value c with
      | Some _ => Err ErrChallengeAlreadyComputed
      | None =>
          let c := mk_challenge (position c) (bindings c ++ [bValue]) None in
          Ok (mk_Transcript (<[challengeID := c]> (challenges t)) (previous t))
      end
  end.

Definition ComputeChallenge (challengeID : string) (t : Transcript)
  : result (bytes * Transcript) :=
  match challenges t !! challengeID with
  | None => Err ErrChallengeNotFound
  | Some c =>
      match value c with
      | Some v => Ok (v, t)
      | None =>
          prev ← (if decide (position c = 0) then Ok None
                  else match previous t with
                       | Some p =>
                           if decide (position p = position c - 1)
                           then Ok (value p)
                           else Err ErrPreviousChallengeNotComputed
                       | None => Err ErrPreviousChallengeNotComputed
                       end);
          let res := challenge_hash challengeID prev (bindings c) in
          let c := mk_challenge (position c) (bindings c) (Some res) in
          Ok (res, mk_Transcript (<[challengeID := c]> (challenges t)) (Some c))
      end
  end.

End FiatShamir.

Arguments challenge : clear implicits.
Arguments Transcript : clear implicits.

(** ** Scalars, points and commitments *)

Section Model.
Context {q : Z}.

(** [fr.Element]: the integers modulo the group order [q]. *)
#[local] Abbreviation fr := (Zmod q).

(** [bn254.G1Affine]. The group is cyclic of order [q]; a point is
    represented by its discrete logarithm, so that addition of points is
    addition modulo [q], a scalar multiple is a product, and the zero
    value of the Go type (the point at infinity) is 0. *)
Definition G1Affine : Type := Zmod q.
Definition G1_add (a b : G1Affine) : G1Affine := Zmod.add a b.
Definition G1_sub (a b : G1Affine) : G1Affine := Zmod.sub a b.
Definition G1_zero : G1Affine := Zmod.zero.
Definition ScalarMultiplication (p : G1Affine) (s : fr) : G1Affine := Zmod.mul s p.

(** [G1Affine.MultiExp(points, scalars)], for slices of equal length. *)
Definition MultiExp (points : list G1Affine) (scalars : list fr) : G1Affine :=
  foldr G1_add G1_zero (zip_with ScalarMultiplication points scalars).

(** [kzg.Commit] (gnark-crypto): the polynomial must be non-empty and no
    longer than the key; the digest is the multi-exponentiation of the
    first [len(p)] key elements by the coefficients. *)
Definition kzg_Commit (p : list fr) (pk : list G1Affine) : result G1Affine :=
  if (length p =? 0) || (length pk <? length p)
  then Err ErrInvalidPolynomialSize
  else Ok (MultiExp (take (length p) pk) p).

(** ** Polynomials and domains *)

(** [iop.Basis] and [iop.Layout]. The polynomials of the trace and of the
    witness are handed over in regular layout, and a polynomial does not
    carry its layout tag; the numerator is built in bit-reversed layout,
    and [divideByXMinusOne], which tests the tag, takes it as an argument. *)
Inductive Basis : Type := Canonical | Lagrange | LagrangeCoset.

Inductive Layout : Type := Regular | BitReverse.

Record Polynomial : Type := NewPolynomial {
  Coefficients : list fr;
  basis : Basis
}.

Definition Size (p : Polynomial) : nat := length (Coefficients p).

(** [fft.Domain], with the fields the package reads. *)
Record Domain : Type := mkDomain {
  Cardinality : Z;
  CardinalityInv : fr;
  Generator : fr;
  GeneratorInv : fr;
  FrMultiplicativeGen : fr;
  FrMultiplicativeGenInv : fr
}.

(** [fr.Element.Exp] for a non-negative exponent. *)
Definition Exp (x : fr) (k : Z) : fr := Zmod.pow x k.

Definition sum_fr (l : list fr) : fr := foldr Zmod.add Zmod.zero l.

(** The sum of [f k] over the indices [k] below [m]. *)
Definition sum_below (m : nat) (f : nat -> fr) : fr := sum_fr (f <$> seq 0 m).

(** [p.Evaluate(x)] for a canonical polynomial (Horner's rule). *)
Definition Evaluate (p : list fr) (x : fr) : fr :=
  foldr (fun c acc => Zmod.add c (Zmod.mul x acc)) Zmod.zero p.

(** Inverse discrete Fourier transform on the domain:
    c_k = n^-1 * sum_j a_j * w^(-j*k). *)
Definition inverse_dft (d : Domain) (a : list fr) : list fr :=
  imap (fun k _ =>
          Zmod.mul (CardinalityInv d)
            (sum_fr (imap (fun j aj =>
                             Zmod.mul aj (Exp (GeneratorInv d) (Z.of_nat (j * k)))) a)))
       a.

(** [p.ToCanonical(d).ToRegular()]: a no-op on a canonical polynomial, the
    inverse transform on a Lagrange one, and in addition the removal of the
    coset shift on a Lagrange-coset one. *)
Definition ToCanonical (d : Domain) (p : Polynomial) : Polynomial :=
  match basis p with
  | Canonical => p
  | Lagrange => NewPolynomial (inverse_dft d (Coefficients p)) Canonical
  | LagrangeCoset =>
      NewPolynomial
        (imap (fun k c => Zmod.mul c (Exp (FrMultiplicativeGenInv d) (Z.of_nat k)))
              (inverse_dft d (Coefficients p)))
        Canonical
  end.

(** Constants of the [fr] and [fft] packages: a generator of the
    multiplicative group, and a root of unity of order [2 ^ maxOrderRoot]. *)
Context (multiplicativeGen rootOfUnity : fr) (maxOrderRoot : Z).

(** [fft.NewDomain(m)]: the cardinality is the next power of two, the
    generator the matching power of the root of unity; a size beyond the
    two-adicity of the field panics. *)
Definition NewDomain (m : Z) : option Domain :=
  x ← NextPowerOfTwo m;
  let logx := Z.log2 x in
  if (maxOrderRoot <? logx)%Z then None
  else
    let gen := Exp rootOfUnity (2 ^ (maxOrderRoot - logx)) in
    Some {| Cardinality := x;
            CardinalityInv := Zmod.inv (Zmod.of_Z q x);
            Generator := gen;
            GeneratorInv := Zmod.inv gen;
            FrMultiplicativeGen := multiplicativeGen;
            FrMultiplicativeGenInv := Zmod.inv multiplicativeGen |}.

(** ** The trace (setup.go) *)

(** Positions of the polynomials in the folded polynomial
    sum_i P_i(X^t) X^i; the custom-gate selectors come after [setup_s3]
    and the custom-gate witnesses after [prover_h_3]. *)
Definition setup_ql : nat := 0.
Definition setup_qr : nat := 1.
Definition setup_qm : nat := 2.
Definition setup_qo : nat := 3.
Definition setup_qk_incomplete : nat := 4.
Definition setup_s1 : nat := 5.
Definition setup_s2 : nat := 6.
Definition setup_s3 : nat := 7.
Definition prover_l : nat := 8.
Definition prover_r : nat := 9.
Definition prover_o : nat := 10.
Definition prover_z : nat := 11.
Definition prover_h_1 : nat := 12.
Definition prover_h_2 : nat := 13.
Definition prover_h_3 : nat := 14.
Definition number_polynomials : nat := 15.

Record Trace : Type := mkTrace {
  Ql : Polynomial; Qr : Polynomial; Qm : Polynomial; Qo : Polynomial;
  Qk : Polynomial;
  Qcp : list Polynomial;
  S1 : Polynomial; S2 : Polynomial; S3 : Polynomial;
  trace_S : list Z     (* the field [S]: the full permutation *)
}.

(** The five selector columns while [NewTrace] fills them. *)
Record Selectors : Type := mkSelectors {
  sel_ql : list fr; sel_qr : list fr; sel_qm : list fr; sel_qo : list fr;
  sel_qk : list fr
}.

Definition placeholder_row (s : Selectors) (i : nat) : option Selectors :=
  ql ← store (sel_ql s) i (Zmod.opp Zmod.one);
  qr ← store (sel_qr s) i Zmod.zero;
  qm ← store (sel_qm s) i Zmod.zero;
  qo ← store (sel_qo s) i Zmod.zero;
  qk ← store (sel_qk s) i Zmod.zero;
  Some (mkSelectors ql qr qm qo qk).

Definition constraint_row (coefficients : list fr) (offset : nat)
    (s : Selectors) (jc : nat * SparseR1C) : option Selectors :=
  let '(j, c) := jc in
  cl ← coefficients !! QL c; ql ← store (sel_ql s) (offset + j) cl;
  cr ← coefficients !! QR c; qr ← store (sel_qr s) (offset + j) cr;
  cm ← coefficients !! QM c; qm ← store (sel_qm s) (offset + j) cm;
  co ← coefficients !! QO c; qo ← store (sel_qo s) (offset + j) co;
  ck ← coefficients !! QC c; qk ← store (sel_qk s) (offset + j) ck;
  Some (mkSelectors ql qr qm qo qk).

(** [getSupportPermutation]: <g> ‖ u<g> ‖ u²<g>. *)
Definition getSupportPermutation (domain : Domain) : option (list fr) :=
  let card := Z.to_nat (Cardinality domain) in
  let u := FrMultiplicativeGen domain in
  let g := Generator domain in
  let res := replicate (3 * card) Zmod.zero in
  res ← store res 0 Zmod.one;
  res ← store res card u;
  res ← store res (2 * card) (Zmod.mul u u);
  for_each (fun res i =>
              a ← res !! (i - 1);
              res ← store res i (Zmod.mul a g);
              b ← res !! (card + i - 1);
              res ← store res (card + i) (Zmod.mul b g);
              c ← res !! (2 * card + i - 1);
              store res (2 * card + i) (Zmod.mul c g))
           (seq 1 (card - 1)) res.

(** [support[trace.S[k]]]; a negative index panics. *)
Definition support_at (support : list fr) (S : list Z) (k : nat) : option fr :=
  p ← S !! k;
  if (p <? 0)%Z then None else support !! Z.to_nat p.

(** [computePermutationPolynomials]: the permuted support, split in three
    columns, each in Lagrange form. *)
Definition computePermutationPolynomials (S : list Z) (domain : Domain)
  : option (Polynomial * Polynomial * Polynomial) :=
  let nbElmts := Z.to_nat (Cardinality domain) in
  support ← getSupportPermutation domain;
  s1 ← mapM (fun i => support_at support S i) (seq 0 nbElmts);
  s2 ← mapM (fun i => support_at support S (nbElmts + i)) (seq 0 nbElmts);
  s3 ← mapM (fun i => support_at support S (2 * nbElmts + i)) (seq 0 nbElmts);
  Some (NewPolynomial s1 Lagrange, NewPolynomial s2 Lagrange,
        NewPolynomial s3 Lagrange).

(** [NewTrace]; [coefficients] is [spr.Coefficients]. *)
Definition NewTrace (spr : SparseR1CS) (coefficients : list fr) (domain : Domain)
  : option Trace :=
  size ← trace_size spr;
  let zeros := replicate size Zmod.zero in
  sel ← for_each placeholder_row (seq 0 (Public spr))
                 (mkSelectors zeros zeros zeros zeros zeros);
  let offset := Public spr in
  sel ← for_each (constraint_row coefficients offset)
                 (zip (seq 0 (length (Constraints spr))) (Constraints spr)) sel;
  qcp ← mapM (fun info =>
                for_each (fun col committed => store col (offset + committed) Zmod.one)
                         (Committed info) zeros)
             (CommitmentInfo spr);
  S ← buildPermutation spr (length (sel_ql sel)) (nbVariables spr);
  '(s1, s2, s3) ← computePermutationPolynomials S domain;
  Some {| Ql := NewPolynomial (sel_ql sel) Lagrange;
          Qr := NewPolynomial (sel_qr sel) Lagrange;
          Qm := NewPolynomial (sel_qm sel) Lagrange;
          Qo := NewPolynomial (sel_qo sel) Lagrange;
          Qk := NewPolynomial (sel_qk sel) Lagrange;
          Qcp := (fun col => NewPolynomial col Lagrange) <$> qcp;
          S1 := s1; S2 := s2; S3 := s3;
          trace_S := S |}.

(** *** The columns of the trace in closed form *)

(** A selector column as [NewTrace] leaves it: [pre] on the rows of the
    public inputs, the coefficient of index [sel c] on the row of every
    constraint [c], and zeros on the padding rows. *)
Definition selector_column (coefficients : list fr) (spr : SparseR1CS)
    (size : nat) (pre : fr) (sel : SparseR1C -> nat) : list fr :=
  replicate (Public spr) pre
  ++ ((fun c => default Zmod.zero (coefficients !! sel c)) <$> Constraints spr)
  ++ replicate (size - Public spr - length (Constraints spr)) Zmod.zero.

(** The column of a custom gate: one on the committed rows, zero
    elsewhere. *)
Definition commitment_column (spr : SparseR1CS) (size : nat)
    (info : PlonkCommitment) : list fr :=
  (fun j => if decide (j ∈ (fun c => Public spr + c) <$> Committed info)
            then Zmod.one else Zmod.zero) <$> seq 0 size.

(** ** Keys and setup (setup.go) *)

(** [VerifyingKey], without the pairing part of the commitment scheme and
    the digests that the package never assigns ([S], [Ql], ..., [Qk]). *)
Record VerifyingKey : Type := mkVerifyingKey {
  vk_Size : Z;
  vk_SizeInv : fr;
  vk_Generator : fr;
  NbPublicVariables : Z;
  CosetShift : fr;
  vk_Qcp : list G1Affine;
  Qpublic : G1Affine;
  CommitmentConstraintIndexes : list nat
}.

Record ProvingKey : Type := mkProvingKey {
  Kzg : list G1Affine;     (* pk.Kzg.G1 *)
  Vk : VerifyingKey
}.

(** Step 0 of [commitTrace]: the coefficients of every trace polynomial in
    canonical regular form, Ql, Qr, Qm, Qo, Qk, S1, S2, S3 at the indices
    [setup_ql] .. [setup_s3] and the Qcp's from [setup_s3 + 1] on. *)
Definition traceList (trace : Trace) (domain : Domain) : list (list fr) :=
  (fun p => Coefficients (ToCanonical domain p)) <$>
    ([Ql trace; Qr trace; Qm trace; Qo trace; Qk trace;
      S1 trace; S2 trace; S3 trace] ++ Qcp trace).

(** The stride of [commitTrace]. *)
Definition commitTrace_t (trace : Trace) : nat :=
  number_polynomials + 2 * length (Qcp trace).

(** The inner loop of step 1: row [i] of every polynomial goes to
    [buf[i*t+j]]. *)
Definition intertwine_row (t currentNbPolynomials : nat) (tl : list (list fr))
    (buf : list fr) (i : nat) : option (list fr) :=
  for_each (fun buf j => pj ← tl !! j; c ← pj !! i; store buf (i * t + j) c)
           (seq 0 currentNbPolynomials) buf.

Definition intertwine (trace : Trace) (domain : Domain) : option (list fr) :=
  let currentNbPolynomials := setup_s3 + length (Qcp trace) + 1 in
  let tl := traceList trace domain in
  let t := commitTrace_t trace in
  if (int_of_uint64 (Cardinality domain) <? 0)%Z then None
  else
    let size := Z.to_nat (Cardinality domain) in
    let upperBoundSize := t * size in
    for_each (intertwine_row t currentNbPolynomials tl) (seq 0 size)
             (replicate upperBoundSize Zmod.zero).

(** [commitTrace]: the value it stores in [vk.Qpublic], or its error. *)
Definition commitTrace (trace : Trace) (domain : Domain) (srsPk : list G1Affine)
  : result G1Affine :=
  buf ← or_panic (intertwine trace domain);
  kzg_Commit buf srsPk.

Definition initFFTDomain (spr : SparseR1CS) : option Domain :=
  NewDomain (sizeSystem spr).

(** [Setup]; [srs] is [srs.Pk.G1]. *)
Definition Setup (spr : SparseR1CS) (coefficients : list fr) (srs : list G1Affine)
  : result (ProvingKey * VerifyingKey) :=
  domain ← or_panic (initFFTDomain spr);
  if (Cardinality domain <? 2)%Z then Err ErrCircuitTooSmall
  else if (Z.of_nat (length srs) <? int_of_uint64 (Cardinality domain) + 3)%Z
  then Err ErrSrsTooSmall
  else
    trace ← or_panic (NewTrace spr coefficients domain);
    qpublic ← commitTrace trace domain srs;
    let vk := {| vk_Size := Cardinality domain;
                 vk_SizeInv := Zmod.inv (Zmod.of_Z q (Cardinality domain));
                 vk_Generator := Generator domain;
                 NbPublicVariables := Z.of_nat (Public spr);
                 CosetShift := FrMultiplicativeGen domain;
                 vk_Qcp := [];
                 Qpublic := qpublic;
                 CommitmentConstraintIndexes :=
                   CommitmentIndex <$> CommitmentInfo spr |} in
    Ok ({| Kzg := srs; Vk := vk |}, vk).

(** ** The polynomials of the instance (prove.go)

    Positions in the slice [s.x]; the custom gates come in pairs
    (Qc_i, Pi_i) from [id_Qci] on. *)
Definition id_L : nat := 0.
Definition id_R : nat := 1.
Definition id_O : nat := 2.
Definition id_Z : nat := 3.
Definition id_ZS : nat := 4.
Definition id_Ql : nat := 5.
Definition id_Qr : nat := 6.
Definition id_Qm : nat := 7.
Definition id_Qo : nat := 8.
Definition id_Qk : nat := 9.
Definition id_S1 : nat := 10.
Definition id_S2 : nat := 11.
Definition id_S3 : nat := 12.
Definition id_ID : nat := 13.
Definition id_LOne : nat := 14.
Definition id_Qci : nat := 15.


(** ** Blinding polynomials (prove.go) *)

Definition id_Bl : nat := 0.
Definition id_Br : nat := 1.
Definition id_Bo : nat := 2.
Definition id_Bz : nat := 3.
Definition nb_blinding_polynomials : nat := 4.

(** Blinding orders (-1 to deactivate). *)
Definition order_blinding_L : Z := (-1)%Z.
Definition order_blinding_R : Z := (-1)%Z.
Definition order_blinding_O : Z := (-1)%Z.
Definition order_blinding_Z : Z := (-1)%Z.

(** [getRandomPolynomial]. The randomness is the sequence [rand] of the
    values that successive [SetRandom] calls produce, [k] counting the
    calls made so far. In the branch [n == -1] the statement
    [a := make([]fr.Element, 1)] declares a new variable, so the slice of
    the result is still the nil slice declared first. *)
Definition getRandomPolynomial (n : Z) (rand : nat -> fr) (k : nat)
  : option (Polynomial * nat) :=
  let a : list fr := [] in
  '(a, k) ← (if (n =? -1)%Z then
               let a_inner : list fr := replicate 1 Zmod.zero in
               a_inner ← store a_inner 0 Zmod.zero;
               Some (a, k)
             else
               len ← (if (n + 1 <? 0)%Z then None else Some (Z.to_nat (n + 1)));
               let a := replicate len (Zmod.zero : fr) in
               for_each (fun '(a, k) i => a ← store a i (rand k); Some (a, S k))
                        (seq 0 len) (a, k));
  Some (NewPolynomial a Canonical, k).

(** [initBlindingPolynomials]: the slice [s.bp]. *)
Definition initBlindingPolynomials (rand : nat -> fr) : option (list Polynomial) :=
  '(bl, k) ← getRandomPolynomial order_blinding_L rand 0;
  '(br, k) ← getRandomPolynomial order_blinding_R rand k;
  '(bo, k) ← getRandomPolynomial order_blinding_O rand k;
  '(bz, k) ← getRandomPolynomial order_blinding_Z rand k;
  Some [bl; br; bo; bz].

(** ** Entangled commitments (prove.go) *)

(** The sub-key of slot [id] for stride [t]: [subPk.G1[i] = key[i*t+id]]. *)
Definition subKey (key : list G1Affine) (t id len : nat) : option (list G1Affine) :=
  mapM (fun i => key !! (i * t + id)) (seq 0 len).

(** [commitBlindingFactor]: the commitment of b(X)(X^n - 1). *)
Definition commitBlindingFactor (n : nat) (b : Polynomial) (key : list G1Affine)
  : option G1Affine :=
  let cp := Coefficients b in
  let np := Size b in
  lo ← slice key 0 np;
  hi ← slice key n (n + np);
  Some (G1_sub (MultiExp hi cp) (MultiExp lo cp)).

(** [commitToEntangledPolyAndBlinding]; [t] is the value of
    [getNextDivisorRMinusOne] on the verifying key. The error of [kzg.Commit] is
    returned next to the digest, after the blinding part was added. *)
Definition commitToEntangledPolyAndBlinding (domain0 : Domain)
    (key : list G1Affine) (t : nat) (p b : Polynomial) (id : nat)
  : option (G1Affine * option error) :=
  let cp := Coefficients (ToCanonical domain0 p) in
  subPk ← subKey key t id (length cp);
  let '(commit, err) := match kzg_Commit cp subPk with
                        | Ok c => (c, None)
                        | Err e => (G1_zero, Some e)
                        | Panic => (G1_zero, None)
                        end in
  let n := Z.to_nat (Cardinality domain0) in
  cb ← commitBlindingFactor n b key;
  Some (G1_add commit cb, err).

(** *** commitToLRO

    The three column commitments run in goroutines of an [errgroup]; the
    function adds the three digests and then waits for the group. Between
    the start of the goroutines and [g.Wait()] nothing orders the sum
    against the writes of [l], [r] and [o]: an execution is an interleaving
    of the three writes and of the sum. *)
Inductive lro_column : Type := col_L | col_R | col_O.

Inductive lro_event : Type :=
| Commits (c : lro_column)   (* a goroutine assigns its digest and error *)
| Sums.                      (* s.proof.LROEntangled.Add(&l,&r).Add(.., &o) *)

Record lro_state : Type := mk_lro_state {
  var_l : G1Affine; var_r : G1Affine; var_o : G1Affine;
  group_err : option error;       (* the first error the group has seen *)
  LROEntangled : G1Affine         (* s.proof.LROEntangled *)
}.

Definition lro_init : lro_state := mk_lro_state G1_zero G1_zero G1_zero None G1_zero.

Definition first_error (seen new : option error) : option error :=
  match seen with
  | Some e => Some e
  | None => new
  end.

Definition lro_step (digest : lro_column -> G1Affine * option error)
    (st : lro_state) (ev : lro_event) : lro_state :=
  match ev with
  | Commits c =>
      let '(d, err) := digest c in
      let err := first_error (group_err st) err in
      match c with
      | col_L => mk_lro_state d (var_r st) (var_o st) err (LROEntangled st)
      | col_R => mk_lro_state (var_l st) d (var_o st) err (LROEntangled st)
      | col_O => mk_lro_state (var_l st) (var_r st) d err (LROEntangled st)
      end
  | Sums =>
      mk_lro_state (var_l st) (var_r st) (var_o st) (group_err st)
                   (G1_add (G1_add (var_l st) (var_r st)) (var_o st))
  end.

(** The executions of [commitToLRO]: each event happens once. *)
Definition lro_schedule (sched : list lro_event) : Prop :=
  sched ≡ₚ [Commits col_L; Commits col_R; Commits col_O; Sums].

(** [commitToLRO] along a schedule, once the blinding polynomials are
    there: the digest left in the proof, or the error of the group. *)
Definition commitToLRO (domain0 : Domain) (key : list G1Affine) (t offsetQcp : nat)
    (xL xR xO : Polynomial) (bp : list Polynomial) (sched : list lro_event)
  : result G1Affine :=
  bl ← or_panic (bp !! id_Bl);
  br ← or_panic (bp !! id_Br);
  bo ← or_panic (bp !! id_Bo);
  dl ← or_panic (commitToEntangledPolyAndBlinding domain0 key t xL bl (prover_l + offsetQcp));
  dr ← or_panic (commitToEntangledPolyAndBlinding domain0 key t xR br (prover_r + offsetQcp));
  do ← or_panic (commitToEntangledPolyAndBlinding domain0 key t xO bo (prover_o + offsetQcp));
  let digest c := match c with col_L => dl | col_R => dr | col_O => do end in
  let st := foldl (lro_step digest) lro_init sched in
  match group_err st with
  | Some e => Err e
  | None => Ok (LROEntangled st)
  end.

(** The columns whose goroutine has assigned its digest when the sum is
    taken. *)
Fixpoint committed_before_sum (sched : list lro_event) : list lro_column :=
  match sched with
  | [] => []
  | Commits c :: sched' => c :: committed_before_sum sched'
  | Sums :: _ => []
  end.

#[global] Instance lro_column_eq_dec : EqDecision lro_column.
Proof. solve_decision. Defined.

(** ** The quotient (prove.go) *)


(** [evaluateXnMinusOneDomainBigCoset]: the inverses of X^n - 1 on the
    [rho] cosets of the small domain inside the coset of the large one
    ([fr.BatchInvert] leaves a zero in place). *)
Definition evaluateXnMinusOneDomainBigCoset (domain0 domain1 : Domain) : list fr :=
  let rho := Z.to_nat (Cardinality domain1 / Cardinality domain0) in
  let first := Exp (FrMultiplicativeGen domain1) (Cardinality domain0) in
  let t := Exp (Generator domain1) (Cardinality domain0) in
  (fun i => Zmod.inv (Zmod.sub (Zmod.mul first (Exp t (Z.of_nat i))) Zmod.one))
    <$> seq 0 rho.

(** *** Bit reversal

    The numerator is kept in bit-reversed layout. *)

(** [bits.Reverse64] (math/bits): the 64 bits of [x] in reversed order. *)
Definition Reverse64 (x : Z) : Z :=
  foldr (fun b acc => if Z.testbit x (Z.of_nat b)
                      then Z.setbit acc (63 - Z.of_nat b) else acc)
        0%Z (seq 0 64).

(** [bits.TrailingZeros64] (math/bits): the number of trailing zero bits
    of [x], 64 for 0. *)
Definition TrailingZeros64 (x : Z) : Z :=
  match find (fun b => Z.testbit x (Z.of_nat b)) (seq 0 64) with
  | Some b => Z.of_nat b
  | None => 64%Z
  end.

(** [bits.Reverse64(x) >> (64 - bits.TrailingZeros64(n))], the index
    computation of [computeNumerator] and [divideByXMinusOne]. *)
Definition reverse_bits (n x : Z) : Z :=
  Z.shiftr (Reverse64 x) (64 - TrailingZeros64 n).

(** [fft.BitReverse]: the permutation that exchanges the entries [i] and
    [iRev] of a slice, which turns the bit-reversed layout into the
    regular one and back. *)
Definition fft_BitReverse {A : Type} (v : list A) : list A :=
  imap (fun i x =>
          default x (v !! Z.to_nat (reverse_bits (Z.of_nat (length v)) (Z.of_nat i))))
       v.

(** [divideByXMinusOne]; [a_Layout] is the layout tag of [a].  The entry
    of index [i] holds the evaluation at the point of index [iRev] of the
    coset and is divided by the value of X^n - 1 on the coset
    [iRev mod rho]; [a.ToCanonical(domains[1]).ToRegular()] on the
    bit-reversed values is the inverse transform of the values taken in
    regular order.  An empty table ([rho = 0]) panics when
    [evaluateXnMinusOneDomainBigCoset] writes its first entry. *)
Definition divideByXMinusOne (a : Polynomial) (a_Layout : Layout)
    (domain0 domain1 : Domain) : result Polynomial :=
  match basis a, a_Layout with
  | LagrangeCoset, BitReverse =>
      let inv := evaluateXnMinusOneDomainBigCoset domain0 domain1 in
      let rho := Z.to_nat (Cardinality domain1 / Cardinality domain0) in
      _ ← or_panic (inv !! 0);
      let r := Coefficients a in
      let n := Z.of_nat (length r) in
      r ← or_panic (mapM (fun '(i, ri) =>
                            let iRev := Z.to_nat (reverse_bits n (Z.of_nat i)) in
                            d ← inv !! (iRev mod rho);
                            Some (Zmod.mul ri d))
                         (imap pair r));
      Ok (ToCanonical domain1 (NewPolynomial (fft_BitReverse r) LagrangeCoset))
  | _, _ => Err ErrInvalidForm
  end.

(** The three chunks of the quotient: [s.h.Coefficients()[a:b]] with the
    bounds computed on [uint64]. *)
Definition h1 (h : Polynomial) (domain0 : Domain) : option (list fr) :=
  slice (Coefficients h) 0 (Z.to_nat (wrap64 (Cardinality domain0 + 2))).

Definition h2 (h : Polynomial) (domain0 : Domain) : option (list fr) :=
  slice (Coefficients h)
        (Z.to_nat (wrap64 (Cardinality domain0 + 2)))
        (Z.to_nat (wrap64 (2 * wrap64 (Cardinality domain0 + 2)))).

Definition h3 (h : Polynomial) (domain0 : Domain) : option (list fr) :=
  slice (Coefficients h)
        (Z.to_nat (wrap64 (2 * wrap64 (Cardinality domain0 + 2))))
        (Z.to_nat (wrap64 (3 * wrap64 (Cardinality domain0 + 2)))).

(** The stride of [commitToQuotient]. *)
Definition commitToQuotient_t (vk : VerifyingKey) : nat :=
  number_polynomials + 2 * length (vk_Qcp vk).

(** The sub-key of one chunk in [commitToQuotient]: allocated with the
    length of the chunk, filled over the length of [h1]. *)
Definition quotient_subKey (kzgPk : list G1Affine) (t rh len_h1 len_h : nat)
  : option (list G1Affine) :=
  for_each (fun sub i => g ← kzgPk !! (i * t + rh); store sub i g)
           (seq 0 len_h1) (replicate len_h G1_zero).

(** [commitToQuotient]: the group is waited for before the three digests
    are added. The result is [proof.HEntangled], or the error of the
    group. *)
Definition commitToQuotient (vk : VerifyingKey) (kzgPk : list G1Affine)
    (h1 h2 h3 : list fr) : result G1Affine :=
  let t := commitToQuotient_t vk in
  let lenQcp := length (vk_Qcp vk) in
  sub1 ← or_panic (quotient_subKey kzgPk t (lenQcp + prover_h_1) (length h1) (length h1));
  sub2 ← or_panic (quotient_subKey kzgPk t (lenQcp + prover_h_2) (length h1) (length h2));
  sub3 ← or_panic (quotient_subKey kzgPk t (lenQcp + prover_h_3) (length h1) (length h3));
  commitmentH1 ← kzg_Commit h1 sub1;
  commitmentH2 ← kzg_Commit h2 sub2;
  commitmentH3 ← kzg_Commit h3 sub3;
  Ok (G1_add (G1_add commitmentH1 commitmentH2) commitmentH3).

(** ** Scaling of the blinding polynomials in computeNumerator (prove.go) *)

(** [for j { cq[j] *= acc; acc *= w }]. *)
Fixpoint scale_by_powers (acc w : fr) (cq : list fr) : list fr :=
  match cq with
  | [] => []
  | c :: cq' => Zmod.mul c acc :: scale_by_powers (Zmod.mul acc w) w cq'
  end.

(** [scalePowers]: p <- <p, (1, w, .., w^n)>. *)
Definition scalePowers (p : Polynomial) (w : fr) : Polynomial :=
  NewPolynomial (scale_by_powers Zmod.one w (Coefficients p)) (basis p).

(** [shifters]: the coset shift of the large domain, then its generator. *)
Definition shifters_of (domain1 : Domain) (rho : nat) : option (list fr) :=
  sh ← store (replicate rho (Zmod.zero : fr)) 0 (FrMultiplicativeGen domain1);
  for_each (fun sh i => store sh i (Generator domain1)) (seq 1 (rho - 1)) sh.

(** What one pass of the loop over the cosets does to [coset] and to
    [s.bp]: the blinding polynomials are scaled on entry, read by the
    evaluation of the constraints, and divided by [tmp] on exit. *)
Definition coset_pass (n : Z) (st : fr * list Polynomial) (shifter : fr)
  : fr * list Polynomial :=
  let '(coset, bp) := st in
  let coset := Zmod.mul coset shifter in
  let tmp := Zmod.sub (Exp coset n) Zmod.one in
  let bp := (fun q => NewPolynomial (scale_by_powers tmp shifter (Coefficients q))
                                    (basis q)) <$> bp in
  let tmp := Zmod.inv tmp in
  let bp := (fun q => NewPolynomial ((fun c => Zmod.mul c tmp) <$> Coefficients q)
                                    (basis q)) <$> bp in
  (coset, bp).

(** [s.bp] when [computeNumerator] has scaled everything back. *)
Definition computeNumerator_bp (domain0 domain1 : Domain) (bp : list Polynomial)
  : option (list Polynomial) :=
  let n := Cardinality domain0 in
  let rho := Z.to_nat (Cardinality domain1 / n) in
  shifters ← shifters_of domain1 rho;
  let '(_, bp) := foldl (coset_pass n) (Zmod.one, bp) shifters in
  sh0 ← shifters !! 0;
  let cs := foldl Zmod.mul sh0 (drop 1 shifters) in
  let cs := Zmod.inv cs in
  Some ((fun q => scalePowers q cs) <$> bp).

(** ** Challenges (prove.go) *)

(** The encodings and the hash that the transcript is instantiated with:
    [p.RawBytes()] for points, the byte form of a scalar, the challenge
    hash of the prover options and [fr.Element.SetBytes]. *)
Context {bytes : Type}.
Context (RawBytes : G1Affine -> bytes) (fr_Bytes : fr -> bytes)
        (SetBytes : bytes -> fr)
        (challenge_hash : string -> option bytes -> list bytes -> bytes).

(** What of the verifying key is bound to the transcript. *)
Context (vk_material : VerifyingKey -> list bytes).

(** Computations on the transcript [s.fs]. *)
Definition FS (A : Type) : Type := Transcript bytes -> result (A * Transcript bytes).

Definition fs_ret {A : Type} (a : A) : FS A := fun t => Ok (a, t).

Definition fs_bind {A B : Type} (m : FS A) (f : A -> FS B) : FS B :=
  fun t => match m t with
           | Ok (a, t') => f a t'
           | Err e => Err e
           | Panic => Panic
           end.

Definition fs_Bind (challengeID : string) (b : bytes) : FS unit :=
  fun t => match Bind challengeID b t with
           | Ok t' => Ok (tt, t')
           | Err e => Err e
           | Panic => Panic
           end.

Definition fs_ComputeChallenge (challengeID : string) : FS bytes :=
  ComputeChallenge challenge_hash challengeID.

Fixpoint fs_bind_all (challengeID : string) (bs : list bytes) : FS unit :=
  match bs with
  | [] => fs_ret tt
  | b :: bs' => fs_bind (fs_Bind challengeID b) (fun _ => fs_bind_all challengeID bs')
  end.

(** Modelled from the spec: [bindPublicData], whose source (verify.go) is
    not available. Before gamma is derived it binds, to the given
    challenge, the verifying-key material and all public-input values. *)
Definition bindPublicData (challengeID : string) (vk : VerifyingKey)
    (publicInputs : list fr) : FS unit :=
  fs_bind_all challengeID (vk_material vk ++ (fr_Bytes <$> publicInputs)).

(** Modelled from the spec: [deriveRandomness], whose source (verify.go) is
    not available. It binds the given commitments to the challenge, in
    order, computes the challenge and reduces it to a scalar. *)
Definition deriveRandomness (challengeID : string) (points : list G1Affine)
  : FS fr :=
  fs_bind (fs_bind_all challengeID (RawBytes <$> points)) (fun _ =>
  fs_bind (fs_ComputeChallenge challengeID) (fun b =>
  fs_ret (SetBytes b))).

(** [deriveGammaAndBeta]: [wWitness] is the full witness vector,
    [nbPublic] is [len(s.spr.Public)] and [lroEntangled] what
    [commitToLRO] left in the proof. *)
Definition deriveGammaAndBeta (vk : VerifyingKey) (wWitness : list fr)
    (nbPublic : nat) (lroEntangled : G1Affine) : FS (fr * fr) :=
  match slice wWitness 0 nbPublic with
  | None => fun _ => Panic
  | Some publicInputs =>
      fs_bind (bindPublicData "gamma" vk publicInputs) (fun _ =>
      fs_bind (deriveRandomness "gamma" [lroEntangled]) (fun gamma =>
      fs_bind (fs_ComputeChallenge "beta") (fun bbeta =>
      fs_ret (gamma, SetBytes bbeta))))
  end.

(** [deriveAlpha]: the custom-gate commitments, then the entangled Z. *)
Definition deriveAlpha (bsb22Commitments : list G1Affine) (zEntangled : G1Affine)
  : FS fr :=
  let alphaDeps := bsb22Commitments ++ [zEntangled] in
  deriveRandomness "alpha" alphaDeps.

Definition deriveZeta (hEntangled : G1Affine) : FS fr :=
  deriveRandomness "zeta" [hEntangled].

(** The transcript of [newInstance]. *)
Definition new_fs : Transcript bytes :=
  NewTranscript ["gamma"; "beta"; "alpha"; "zeta"].

(** The steps of a proof that touch the transcript, in the order that the
    completion signals impose: [deriveGammaAndBeta] after [commitToLRO],
    [deriveAlpha] once Z is committed (which needs gamma and beta), and
    [deriveZeta] once the quotient is committed (which needs alpha). *)
Definition derive_challenges (vk : VerifyingKey) (wWitness : list fr)
    (nbPublic : nat) (lroEntangled : G1Affine) (bsb22Commitments : list G1Affine)
    (zEntangled : fr -> fr -> G1Affine) (hEntangled : fr -> fr -> fr -> G1Affine)
  : FS (fr * fr * fr * fr) :=
  fs_bind (deriveGammaAndBeta vk wWitness nbPublic lroEntangled) (fun '(gamma, beta) =>
  fs_bind (deriveAlpha bsb22Commitments (zEntangled gamma beta)) (fun alpha =>
  fs_bind (deriveZeta (hEntangled gamma beta alpha)) (fun zeta =>
  fs_ret (gamma, beta, alpha, zeta)))).

(** ** batchOpening (prove.go) *)

(** [getBlindedCoefficients]: the coefficients of p + b (X^n - 1). *)
Definition getBlindedCoefficients (p bp : Polynomial) : option (list fr) :=
  let cbp := Coefficients bp in
  let cp := Coefficients p ++ cbp in
  for_each (fun cp i => c ← cp !! i; b ← cbp !! i; store cp i (Zmod.sub c b))
           (seq 0 (length cbp)) cp.

(** Steps 1 of [batchOpening]: the two sets of polynomials. A slot holds
    a slice of coefficients or is still nil. The definition is generic in
    what a slice of coefficients is; [t] is the value of
    [getNextDivisorRMinusOne], [bsb] the custom-gate witness polynomials
    [s.x[id_Qci+2*i+1]]. *)
Definition polysToOpen {P : Type} (t : nat)
    (ql qr qm qo qk s1 s2 s3 : P) (qcp : list P)
    (l r o z h_1 h_2 h_3 : P) (bsb : list P)
  : option (list (option P) * list (option P)) :=
  let set0 : list (option P) := replicate t None in
  set0 ← store set0 setup_ql (Some ql);
  set0 ← store set0 setup_qr (Some qr);
  set0 ← store set0 setup_qm (Some qm);
  set0 ← store set0 setup_qo (Some qo);
  set0 ← store set0 setup_qk_incomplete (Some qk);
  set0 ← store set0 setup_s1 (Some s1);
  set0 ← store set0 setup_s2 (Some s2);
  set0 ← store set0 setup_s3 (Some s3);
  set0 ← for_each (fun set0 '(i, p) => store set0 (setup_s3 + 1 + i) (Some p))
                  (imap pair qcp) set0;
  let offset := length qcp in
  set0 ← store set0 (prover_l + offset) (Some l);
  set0 ← store set0 (prover_r + offset) (Some r);
  set0 ← store set0 (prover_o + offset) (Some o);
  set0 ← store set0 (prover_z + offset) (Some z);
  set0 ← store set0 (prover_h_1 + offset) (Some h_1);
  set0 ← store set0 (prover_h_2 + offset) (Some h_2);
  set0 ← store set0 (prover_h_3 + offset) (Some h_3);
  set0 ← for_each (fun set0 i => p ← bsb !! i;
                                 store set0 (number_polynomials + offset + i) (Some p))
                  (seq 0 (length qcp)) set0;
  set1 ← store (replicate 1 None) 0 (Some z);
  Some (set0, set1).

(** Step 2 of [batchOpening]: the two sets of points,
    {zeta} and {omega * zeta^t}. *)
Definition batchOpening_points (t : nat) (zeta : fr) (domain0 : Domain)
  : list (list fr) :=
  let omegaZetaT := Zmod.mul (Exp zeta (Z.of_nat t)) (Generator domain0) in
  [[zeta]; [omegaZetaT]].


(** The sets of [batchOpening] on the state of the instance: the trace,
    the solution columns [s.x[id_L]], .., [s.x[id_Z]], the blinding
    polynomials, the quotient and the custom-gate witnesses. *)
Definition batchOpening_polys (t : nat) (trace : Trace) (domain0 : Domain)
    (xL xR xO xZ : Polynomial) (bp : list Polynomial) (h : Polynomial)
    (bsb : list Polynomial)
  : option (list (option (list fr)) * list (option (list fr))) :=
  let canonical p := Coefficients (ToCanonical domain0 p) in
  bl ← bp !! id_Bl; br ← bp !! id_Br; bo ← bp !! id_Bo; bz ← bp !! id_Bz;
  l ← getBlindedCoefficients xL bl;
  r ← getBlindedCoefficients xR br;
  o ← getBlindedCoefficients xO bo;
  z ← getBlindedCoefficients xZ bz;
  h_1 ← h1 h domain0;
  h_2 ← h2 h domain0;
  h_3 ← h3 h domain0;
  polysToOpen t (canonical (Ql trace)) (canonical (Qr trace)) (canonical (Qm trace))
    (canonical (Qo trace)) (canonical (Qk trace)) (canonical (S1 trace))
    (canonical (S2 trace)) (canonical (S3 trace)) (canonical <$> Qcp trace)
    l r o z h_1 h_2 h_3 (canonical <$> bsb).

(** The content of the buffer of [commitTrace] when the rows below [i],
    and the columns below [j] of row [i], have been written. *)
Definition filled (tl : list (list fr)) (t currentNbPolynomials i j k : nat) : fr :=
  let row := k / t in
  let col := k mod t in
  if decide (col < currentNbPolynomials /\ (row < i \/ (row = i /\ col < j)))
  then default Zmod.zero (tl !! col ≫= (fun p => p !! row))
  else Zmod.zero.

(** ** Blinded evaluation and commitment (prove.go) *)

(** [p.Evaluate(x)] (gnark-crypto, iop): only a polynomial in canonical
    basis can be evaluated; the call panics on any other basis. *)
Definition Polynomial_Evaluate (p : Polynomial) (x : fr) : option fr :=
  match basis p with
  | Canonical => Some (Evaluate (Coefficients p) x)
  | _ => None
  end.

(** [evaluateBlinded]: p(zeta) + bp(zeta) (zeta^n - 1), [n] being the
    size of [p]. *)
Definition evaluateBlinded (p bp : Polynomial) (zeta : fr) : option fr :=
  let n := Z.of_nat (Size p) in
  pEvaluatedAtZeta ← Polynomial_Evaluate p zeta;
  bpEvaluatedAtZeta ← Polynomial_Evaluate bp zeta;
  let t := Zmod.sub (Exp zeta n) Zmod.one in
  let bpEvaluatedAtZeta := Zmod.mul bpEvaluatedAtZeta t in
  Some (Zmod.add pEvaluatedAtZeta bpEvaluatedAtZeta).

(** [commitToPolyAndBlinding]: the commitment of [p] under the whole key,
    plus the blinding part; the error of [kzg.Commit] is returned next to
    the digest. *)
Definition commitToPolyAndBlinding (domain0 : Domain) (key : list G1Affine)
    (p b : Polynomial) : option (G1Affine * option error) :=
  let cp := Coefficients (ToCanonical domain0 p) in
  let '(commit, err) := match kzg_Commit cp key with
                        | Ok c => (c, None)
                        | Err e => (G1_zero, Some e)
                        | Panic => (G1_zero, None)
                        end in
  let n := Z.to_nat (Cardinality domain0) in
  cb ← commitBlindingFactor n b key;
  Some (G1_add commit cb, err).

(** The coefficients of P(X^t) X^id, for the coefficients [cp] of P:
    [cp[i]] sits at index [i*t+id] and every other entry is zero. *)
Definition entangle (t id : nat) (cp : list fr) : list fr :=
  replicate id Zmod.zero ++
  concat ((fun c => c :: replicate (t - 1) Zmod.zero) <$> cp).

(** [evaluateXnMinusOneDomainBigCoset] as the source computes it: the
    running products [res[i] = res[i-1] * t], the subtraction of one from
    every entry, and [fr.BatchInvert]. *)
Definition evaluateXnMinusOne_loop (domain0 domain1 : Domain) : option (list fr) :=
  let rho := Z.to_nat (Cardinality domain1 / Cardinality domain0) in
  let res := replicate rho (Zmod.zero : fr) in
  res ← store res 0 (Exp (FrMultiplicativeGen domain1) (Cardinality domain0));
  let t := Exp (Generator domain1) (Cardinality domain0) in
  res ← for_each (fun res i =>
                    prev ← res !! (i - 1);
                    res ← store res i (Zmod.mul prev t);
                    prev ← res !! (i - 1);
                    store res (i - 1) (Zmod.sub prev (Zmod.one : fr)))
                 (seq 1 (rho - 1)) res;
  last ← res !! (length res - 1);
  res ← store res (length res - 1) (Zmod.sub last (Zmod.one : fr));
  Some (fmap (M := list) Zmod.inv res).

(** ** completeQk (prove.go) *)

(** [copy(dst, src)]: the first [min(len(dst), len(src))] elements. *)
Definition copy {A : Type} (dst src : list A) : list A :=
  take (length dst) src ++ drop (length src) dst.

(** [completeQk], for a witness of the expected vector type and a context
    that is not cancelled: the clone of [trace.Qk] that ends up in
    [s.x[id_Qk]]; [commitmentVal] holds the values the custom-gate hints
    left. *)
Definition completeQk (trace_Qk : Polynomial) (wWitness : list fr)
    (spr : SparseR1CS) (commitmentVal : list fr) : option Polynomial :=
  let qkCoeffs := Coefficients trace_Qk in
  pub ← slice wWitness 0 (Public spr);
  let qkCoeffs := copy qkCoeffs pub in
  qkCoeffs ← for_each (fun qk '(i, info) =>
                         v ← commitmentVal !! i;
                         store qk (Public spr + CommitmentIndex info) v)
                      (imap pair (CommitmentInfo spr)) qkCoeffs;
  Some (NewPolynomial qkCoeffs (basis trace_Qk)).

(** ** The constraints of the numerator (prove.go, computeNumerator) *)

(** [nbBsbGates], from the number of polynomials of [s.x]. *)
Definition nbBsbGates (len_x : Z) : nat :=
  Z.to_nat (Z.shiftr (len_x - Z.of_nat id_Qci + 1) 1).

(** The closures read and write the values [u] by index; an index out
    of range panics. *)
Definition gateConstraint (len_x : Z) (u : list fr) : option fr :=
  ql ← u !! id_Ql; l ← u !! id_L;
  let ic := Zmod.mul ql l in
  qr ← u !! id_Qr; r ← u !! id_R;
  let tmp := Zmod.mul qr r in
  let ic := Zmod.add ic tmp in
  qm ← u !! id_Qm;
  let tmp := Zmod.mul (Zmod.mul qm l) r in
  let ic := Zmod.add ic tmp in
  qo ← u !! id_Qo; o ← u !! id_O;
  let tmp := Zmod.mul qo o in
  qk ← u !! id_Qk;
  let ic := Zmod.add (Zmod.add ic tmp) qk in
  for_each (fun ic i =>
              qc ← u !! (id_Qci + 2 * i);
              pi ← u !! (id_Qci + 2 * i + 1);
              Some (Zmod.add ic (Zmod.mul qc pi)))
           (seq 0 (nbBsbGates len_x)) ic.

Definition orderingConstraint (gamma cs css : fr) (u : list fr) : option fr :=
  uL ← u !! id_L; uR ← u !! id_R; uO ← u !! id_O; uID ← u !! id_ID;
  uZ ← u !! id_Z; uZS ← u !! id_ZS;
  uS1 ← u !! id_S1; uS2 ← u !! id_S2; uS3 ← u !! id_S3;
  let a := Zmod.add (Zmod.add gamma uL) uID in
  let b := Zmod.add (Zmod.add (Zmod.mul uID cs) uR) gamma in
  let c := Zmod.add (Zmod.add (Zmod.mul uID css) uO) gamma in
  let r := Zmod.mul (Zmod.mul (Zmod.mul a b) c) uZ in
  let a := Zmod.add (Zmod.add uS1 uL) gamma in
  let b := Zmod.add (Zmod.add uS2 uR) gamma in
  let c := Zmod.add (Zmod.add uS3 uO) gamma in
  let l := Zmod.mul (Zmod.mul (Zmod.mul a b) c) uZS in
  Some (Zmod.sub l r).

Definition ratioLocalConstraint (u : list fr) : option fr :=
  uZ ← u !! id_Z; uLOne ← u !! id_LOne;
  let res : fr := Zmod.one in
  Some (Zmod.mul (Zmod.sub uZ res) uLOne).

(** [u[k].Mul(&u[k], &c)] and [u[k].Add(&u[k], &y)]. *)
Definition scale_at (u : list fr) (k : nat) (c : fr) : option (list fr) :=
  v ← u !! k; store u k (Zmod.mul v c).

Definition add_at (u : list fr) (k : nat) (y : fr) : option (list fr) :=
  v ← u !! k; store u k (Zmod.add v y).

(** [allConstraints], the function that [iop.Evaluate] applies to the
    values [u] of the polynomials of [s.x] at row [i]; [n] is the
    cardinality of the small domain and [twiddles0] its powers of the
    generator.  The values are updated in place before the three
    constraints read them. *)
Definition allConstraints (alpha beta gamma cs css : fr) (len_x : Z)
    (bp : list Polynomial) (twiddles0 : list fr) (n : Z) (i : nat) (u : list fr)
  : option fr :=
  u ← scale_at u id_S1 beta;
  u ← scale_at u id_S2 beta;
  u ← scale_at u id_S3 beta;
  tw ← twiddles0 !! i;
  y ← bp !! id_Bl ≫= (fun b => Polynomial_Evaluate b tw);
  u ← add_at u id_L y;
  y ← bp !! id_Br ≫= (fun b => Polynomial_Evaluate b tw);
  u ← add_at u id_R y;
  y ← bp !! id_Bo ≫= (fun b => Polynomial_Evaluate b tw);
  u ← add_at u id_O y;
  y ← bp !! id_Bz ≫= (fun b => Polynomial_Evaluate b tw);
  u ← add_at u id_Z y;
  tw ← twiddles0 !! Z.to_nat (Z.rem (Z.of_nat i + 1) n);
  y ← bp !! id_Bz ≫= (fun b => Polynomial_Evaluate b tw);
  u ← add_at u id_ZS y;
  a ← gateConstraint len_x u;
  b ← orderingConstraint gamma cs css u;
  c ← ratioLocalConstraint u;
  Some (Zmod.add (Zmod.mul (Zmod.add (Zmod.mul c alpha) b) alpha) a).

(** ** The layout of the numerator (prove.go, computeNumerator) *)

(** The slot of [cres] that receives [buf[j]] in pass [i] of the loop
    over the cosets: [bits.Reverse64(uint64(rho*j+i))>>mm]. *)
Definition cres_index (m rho : Z) (i j : nat) : nat :=
  Z.to_nat (reverse_bits m (rho * Z.of_nat j + Z.of_nat i)).

(** [cres] at the end of [computeNumerator]; [bufs !! i] is the content
    of [buf] after the evaluation of the constraints in pass [i].  The
    goroutine of a pass has copied [buf] before the next pass writes it
    (wgBuf.Wait()), and the function returns after the last one. *)
Definition computeNumerator_cres (domain0 domain1 : Domain) (bufs : list (list fr))
  : option (list fr) :=
  let n := Cardinality domain0 in
  let m := Cardinality domain1 in
  let rho := (m / n)%Z in
  let cres := replicate (Z.to_nat m) (Zmod.zero : fr) in
  for_each (fun cres i =>
              buf ← bufs !! i;
              for_each (fun cres j => v ← buf !! j; store cres (cres_index m rho i j) v)
                       (seq 0 (Z.to_nat n)) cres)
           (seq 0 (Z.to_nat rho)) cres.

End Model.

(** ** Tasks of the parallel transforms (prove.go) *)

(** Arithmetic on [int]: the signed 64-bit wrap-around. *)
Definition wrap_int (x : Z) : Z := ((x + 2 ^ 63) mod 2 ^ 64 - 2 ^ 63)%Z.

(** [calculateNbTasks]; [numCPU] is [runtime.NumCPU()]. The quotient of
    two [int]s is truncated towards zero, and a zero divisor panics. *)
Definition calculateNbTasks (numCPU n : Z) : option Z :=
  let nbAvailableCPU := wrap_int (numCPU - n) in
  let nbAvailableCPU := if (nbAvailableCPU <? 0)%Z then 1%Z else nbAvailableCPU in
  if (n =? 0)%Z then None
  else Some (wrap_int (1 + wrap_int (Z.quot nbAvailableCPU n))).

(** ** batchApply (prove.go)

    [s.x] is a slice of pointers: an entry is nil or the address of a
    polynomial, and two entries may hold the same address, as [x[id_ZS]],
    a shallow clone of [x[id_Z]], shares the polynomial of [x[id_Z]]. The
    memory maps an address to the polynomial stored there.

    [batchApply] starts one goroutine per index other than [id_ZS], each
    running [fn] on its entry. An execution is given by the order [sched]
    in which the goroutines take effect. A call on a nil entry changes no
    polynomial: the function literal of the second call of
    [computeNumerator] returns at once on nil, and the first call is made
    when no entry is nil. *)
Definition batchApply {P : Type} (x : list (option nat)) (fn : P -> P)
    (sched : list nat) (mem : gmap nat P) : gmap nat P :=
  foldl (fun mem i =>
           if decide (i = id_ZS) then mem
           else match x !! i with
                | Some (Some addr) => alter fn addr mem
                | _ => mem
                end)
        mem sched.

(** The address that the goroutine of index [i] works on, if any. *)
Definition batchApply_target (x : list (option nat)) (i : nat) : option nat :=
  if decide (i = id_ZS) then None else x !! i ≫= id.


(** The executions of [batchApply]: every index of [x] is visited once. *)
Definition batchApply_schedule {A : Type} (x : list A) (sched : list nat) : Prop :=
  sched ≡ₚ seq 0 (length x).

(** A set of [t] slots of which the first ones hold [filled] and the
    others are still nil. *)
Definition slots {P : Type} (t : nat) (filled : list P) : list (option P) :=
  (Some <$> filled) ++ replicate (t - length filled) None.


(** Primality by trial division, for the modulus of the small instance. *)
Definition trial_division (p : Z) : bool :=
  (1 <? p)%Z &&
  forallb (fun d => negb (p mod Z.of_nat d =? 0)%Z) (seq 2 (Z.to_nat p - 2)).

(** ** A small instance: the field with 97 elements

    97 - 1 = 2^5 * 3; 5 generates the multiplicative group and 28 = 5^3
    is a root of unity of order 32. *)

Definition f97 (x : Z) : Zmod 97 := Zmod.of_Z 97 x.

Definition toy_NewDomain (m : Z) : option (@Domain 97) :=
  NewDomain (f97 5) (f97 28) 5 m.

(** The domain of cardinality 2 as [toy_NewDomain 2] returns it. *)
Definition toy_domain0 : @Domain 97 :=
  mkDomain 2 (f97 49) (f97 96) (f97 96) (f97 5) (f97 39).

(** Two constraints on three secret wires, no public input, no custom gate. *)
Definition toy_spr : SparseR1CS :=
  mkSparseR1CS 0 3 0
    [mkSparseR1C 0 1 2 0 0 1 2 0; mkSparseR1C 2 1 0 0 0 1 2 0] [].

(** The same circuit with one custom gate that commits to the first row. *)
Definition toy_spr_bsb : SparseR1CS :=
  mkSparseR1CS 0 3 0
    [mkSparseR1C 0 1 2 0 0 1 2 0; mkSparseR1C 2 1 0 0 0 1 2 0]
    [mkPlonkCommitment [0] 1].

(** [spr.Coefficients] of the toy circuits: 0, 1 and -1. *)
Definition toy_coefficients : list (Zmod 97) := [f97 0; f97 1; f97 96].

(** A commitment key with [len] elements: the powers 1, 3, 9, ... *)
Definition toy_srs (len : nat) : list (@G1Affine 97) :=
  (fun i => Zmod.pow (f97 3) (Z.of_nat i)) <$> seq 0 len.

(** A trace over the domain of cardinality 2, with one custom gate. *)
Definition toy_trace : @Trace 97 :=
  {| Ql := NewPolynomial [f97 1; f97 2] Lagrange;
     Qr := NewPolynomial [f97 3; f97 4] Lagrange;
     Qm := NewPolynomial [f97 5; f97 6] Lagrange;
     Qo := NewPolynomial [f97 7; f97 8] Lagrange;
     Qk := NewPolynomial [f97 9; f97 10] Lagrange;
     Qcp := [NewPolynomial [f97 1; f97 0] Lagrange];
     S1 := NewPolynomial [f97 11; f97 12] Lagrange;
     S2 := NewPolynomial [f97 13; f97 14] Lagrange;
     S3 := NewPolynomial [f97 15; f97 16] Lagrange;
     trace_S := [5; 4; 3; 2; 1; 0]%Z |}.

(** Solution columns over the domain of cardinality 2, and the blinding
    polynomials as [initBlindingPolynomials] leaves them. *)
Definition toy_xL : @Polynomial 97 := NewPolynomial [f97 1; f97 2] Lagrange.
Definition toy_xR : @Polynomial 97 := NewPolynomial [f97 3; f97 4] Lagrange.
Definition toy_xO : @Polynomial 97 := NewPolynomial [f97 5; f97 7] Lagrange.
Definition toy_bp : list (@Polynomial 97) := replicate 4 (NewPolynomial [] Canonical).

(** The large domain of the circuit of size 2, [toy_NewDomain 16], and
    blinding polynomials of the orders 1, 1, 1 and 2. *)
Definition toy_domain1 : @Domain 97 :=
  mkDomain 16 (f97 91) (f97 8) (f97 85) (f97 5) (f97 39).

Definition toy_blinding : list (@Polynomial 97) :=
  [NewPolynomial [f97 3; f97 4] Canonical;
   NewPolynomial [f97 5; f97 6] Canonical;
   NewPolynomial [f97 7; f97 8] Canonical;
   NewPolynomial [f97 9; f97 10; f97 11] Canonical].

(** Sixteen evaluations on the coset of the large domain. *)
Definition toy_numerator : @Polynomial 97 :=
  NewPolynomial (f97 <$> [3; 1; 4; 1; 5; 9; 2; 6; 5; 3; 5; 8; 9; 7; 9; 3]%Z)
                LagrangeCoset.



(** A toy transcript: byte strings are integers, a point and a scalar are
    encoded by their representative, and the hash mixes the length of the
    name, the previous challenge and the bindings. *)
Definition toy_hash (name : string) (prev : option Z) (bs : list Z) : Z :=
  (Z.of_nat (String.length name) + 7 * default 0 prev
   + foldr (fun b acc => b + 31 * acc) 0 bs)%Z.

Definition toy_vk : @VerifyingKey 97 :=
  mkVerifyingKey 2 (f97 49) (f97 96) 1 (f97 5) [] (f97 22) [].

Definition toy_vk_material (vk : @VerifyingKey 97) : list Z :=
  [Zmod.to_Z (Qpublic vk)].

(** The permutation polynomial, a quotient with sixteen coefficients and
    one custom-gate witness, in canonical form. *)
Definition toy_xZ : @Polynomial 97 := NewPolynomial [f97 21; f97 22] Canonical.

Definition toy_h : @Polynomial 97 :=
  NewPolynomial (f97 <$> [1; 2; 3; 4; 5; 6; 7; 8; 9; 10; 11; 12; 0; 0; 0; 0]%Z)
                Canonical.

Definition toy_pi : @Polynomial 97 := NewPolynomial [f97 31; f97 32] Canonical.

(** The values of the custom gates as [s.x] orders them: each selector
    [Qcp] followed by its commitment polynomial. *)
Definition custom_gates {q : Z} (qc : list (Zmod q * Zmod q)) : list (Zmod q) :=
  concat ((fun p => [p.1; p.2]) <$> qc).

(** The buffers of eight passes over a small domain of two points. *)
Definition toy_bufs : list (list (Zmod 97)) :=
  (fun i => [f97 (2 * Z.of_nat i); f97 (2 * Z.of_nat i + 1)]) <$> seq 0 8.


(** * Part II: properties of the embedding *)

(** ** Loops over slices *)

Lemma for_each_app {St I : Type} (body : St -> I -> option St) idx1 idx2 s :
  for_each body (idx1 ++ idx2) s =
  match for_each body idx1 s with
  | Some s' => for_each body idx2 s'
  | None => None
  end.
Proof.
  revert s; induction idx1 as [|i idx1 IH]; intros s; simpl; [reflexivity|].
  destruct (body s i); [apply IH|reflexivity].
Qed.

(** Invariant rule: an invariant kept by every iteration whose index is
    in the list holds at the end, and the loop does not fail. *)
Lemma for_each_invariant {St I : Type} (Inv : St -> Prop)
    (body : St -> I -> option St) idx s :
  Inv s ->
  (forall s i, In i idx -> Inv s -> exists s', body s i = Some s' /\ Inv s') ->
  exists s', for_each body idx s = Some s' /\ Inv s'.
Proof.
  revert s; induction idx as [|i idx IH]; intros s Hs Hstep; simpl.
  - eauto.
  - destruct (Hstep s i) as (s' & -> & Hs'); [now left|exact Hs|].
    apply IH; [exact Hs'|]. intros s0 i0 Hin. apply Hstep. now right.
Qed.

Lemma store_Some {A} (a : list A) i x :
  i < length a -> store a i x = Some (<[i:=x]> a).
Proof. intros H. unfold store. destruct (decide (i < length a)); [reflexivity|lia]. Qed.

Lemma insert_cons_S {A} (x y : A) (l : list A) (i : nat) :
  <[S i := y]> (x :: l) = x :: <[i := y]> l.
Proof. reflexivity. Qed.

Lemma insert_cons_0 {A} (x y : A) (l : list A) : <[0 := y]> (x :: l) = y :: l.
Proof. reflexivity. Qed.

Lemma store_inv {A} (a a' : list A) i x :
  store a i x = Some a' -> i < length a /\ a' = <[i:=x]> a.
Proof.
  unfold store. destruct (decide (i < length a)); [|discriminate].
  intros [= <-]. auto.
Qed.

(** ** buildPermutation *)

Example build_lro_example :
  build_lro
    (mkSparseR1CS 1 1 1
       [mkSparseR1C 0 1 2 0 0 0 0 0; mkSparseR1C 2 1 0 0 0 0 0 0] [])
    4
  = Some [0; 0; 2; 0; 0; 1; 1; 0; 0; 2; 0; 0].
Proof. reflexivity. Qed.

Example buildPermutation_example :
  buildPermutation
    (mkSparseR1CS 1 1 1
       [mkSparseR1C 0 1 2 0 0 0 0 0; mkSparseR1C 2 1 0 0 0 0 0 0] [])
    4 3
  = Some [11; 0; 9; 1; 3; 6; 5; 4; 7; 2; 8; 10]%Z.
Proof. reflexivity. Qed.

Lemma last_seen_cases lro k v :
  (last_seen lro k v = (-1)%Z /\ forall j, j < k -> lro !! j <> Some v) \/
  (exists r, last_seen lro k v = Z.of_nat r /\ r < k /\ lro !! r = Some v /\
             forall j, r < j < k -> lro !! j <> Some v).
Proof.
  induction k as [|k IH]; simpl.
  - left. split; [reflexivity|]. intros j Hj. lia.
  - destruct (decide (lro !! k = Some v)) as [Hk|Hk].
    + right. exists k. repeat split; [lia|exact Hk|]. intros j Hj. lia.
    + destruct IH as [[H1 H2]|(r & H1 & H2 & H3 & H4)].
      * left. split; [exact H1|]. intros j Hj.
        destruct (decide (j = k)) as [->|]; [exact Hk|apply H2; lia].
      * right. exists r. repeat split; [exact H1|lia|exact H3|].
        intros j Hj. destruct (decide (j = k)) as [->|]; [exact Hk|apply H4; lia].
Qed.

Lemma last_seen_S lro k v :
  last_seen lro (S k) v =
  if decide (lro !! k = Some v) then Z.of_nat k else last_seen lro k v.
Proof. reflexivity. Qed.

(** *** The three phases establish the specification *)

Lemma build_lro_ok spr n :
  wf_wires spr -> 0 < nbVariables spr ->
  Public spr + length (Constraints spr) <= n ->
  exists lro, build_lro spr n = Some lro /\ length lro = 3 * n /\
              Forall (fun v => v < nbVariables spr) lro.
Proof.
  intros Hwf Hpos Hsz. unfold build_lro, lro_placeholders.
  set (Inv := fun lro : list nat =>
         length lro = 3 * n /\ Forall (fun v => v < nbVariables spr) lro).
  destruct (for_each_invariant Inv (fun lro i => store lro i i)
              (seq 0 (Public spr)) (replicate (3 * n) 0)) as (lro1 & -> & Hinv1).
  - split; [apply length_replicate|]. apply Forall_replicate. exact Hpos.
  - intros lro i Hin [Hlen Hall]. apply in_seq in Hin.
    exists (<[i:=i]> lro). split; [apply store_Some; lia|]. split.
    + rewrite length_insert. exact Hlen.
    + apply Forall_insert; [exact Hall|]. unfold nbVariables. lia.
  - simpl. apply for_each_invariant; [exact Hinv1|].
    intros lro [j c] Hin [Hlen Hall].
    apply list_elem_of_In in Hin.
    pose proof (elem_of_zip_l _ _ _ _ Hin) as Hj.
    pose proof (elem_of_zip_r _ _ _ _ Hin) as Hc.
    apply elem_of_seq in Hj.
    unfold wf_wires in Hwf. rewrite Forall_forall in Hwf.
    destruct (Hwf c Hc) as (Ha & Hb & Hcc).
    unfold lro_constraint. simpl.
    rewrite store_Some by lia. simpl.
    rewrite store_Some by (rewrite length_insert; lia). simpl.
    rewrite store_Some by (rewrite !length_insert; lia).
    eexists. split; [reflexivity|]. split.
    + rewrite !length_insert. exact Hlen.
    + repeat apply Forall_insert; assumption.
Qed.

Lemma link_loop_ok (lro : list nat) (nbV k : nat) :
  Forall (fun v => v < nbV) lro -> k <= length lro ->
  exists cycle permutation,
    for_each (link_step lro) (seq 0 k)
      (replicate nbV (-1)%Z, replicate (length lro) (-1)%Z)
    = Some (cycle, permutation) /\
    length cycle = nbV /\ length permutation = length lro /\
    (forall v, v < nbV -> cycle !! v = Some (last_seen lro k v)) /\
    (forall i v, lro !! i = Some v ->
       permutation !! i = Some (if decide (i < k) then last_seen lro i v
                                else (-1)%Z)).
Proof.
  intros Hall. induction k as [|k IH]; intros Hk.
  - exists (replicate nbV (-1)%Z), (replicate (length lro) (-1)%Z).
    simpl. repeat split.
    + apply length_replicate.
    + apply length_replicate.
    + intros v Hv. apply lookup_replicate_2. exact Hv.
    + intros i v Hi. apply lookup_lt_Some in Hi.
      destruct (decide (i < 0)); [lia|]. apply lookup_replicate_2. exact Hi.
  - destruct IH as (cycle & perm & Hrun & Hlc & Hlp & Hcyc & Hperm); [lia|].
    rewrite seq_S, for_each_app, Hrun. simpl.
    destruct (lookup_lt_is_Some_2 lro k) as [v Hv]; [lia|].
    assert (Hvb : v < nbV) by (rewrite Forall_lookup in Hall; exact (Hall k v Hv)).
    unfold link_step. rewrite Hv. simpl. rewrite (Hcyc v Hvb). simpl.
    destruct (decide (last_seen lro k v <> (-1)%Z)) as [Hne|Heq].
    + rewrite store_Some by lia. simpl. rewrite store_Some by lia. simpl.
      eexists _, _. split; [reflexivity|].
      rewrite !length_insert. repeat split; try assumption.
      * intros v' Hv'. rewrite ?last_seen_S.
        destruct (decide (v = v')) as [->|Hvv].
        -- rewrite list_lookup_insert_eq by lia.
           case_decide; [reflexivity|congruence].
        -- rewrite list_lookup_insert_ne by exact Hvv.
           case_decide; [congruence|]. apply Hcyc. exact Hv'.
      * intros i v' Hi. destruct (decide (i = k)) as [->|Hik].
        -- rewrite list_lookup_insert_eq by lia.
           case_decide; [|lia]. congruence.
        -- rewrite list_lookup_insert_ne by congruence.
           rewrite (Hperm i v' Hi).
           repeat case_decide; try lia; reflexivity.
    + simpl. rewrite store_Some by lia. simpl.
      eexists _, _. split; [reflexivity|].
      rewrite !length_insert. repeat split; try assumption.
      * intros v' Hv'. rewrite ?last_seen_S.
        destruct (decide (v = v')) as [->|Hvv].
        -- rewrite list_lookup_insert_eq by lia.
           case_decide; [reflexivity|congruence].
        -- rewrite list_lookup_insert_ne by exact Hvv.
           case_decide; [congruence|]. apply Hcyc. exact Hv'.
      * intros i v' Hi. rewrite (Hperm i v' Hi).
        destruct (decide (i = k)) as [->|Hik].
        -- assert (v' = v) as -> by congruence.
           repeat case_decide; try lia.
           destruct (decide (last_seen lro k v = (-1)%Z)) as [E|E];
             [congruence|contradiction].
        -- repeat case_decide; try lia; reflexivity.
Qed.

Lemma close_loop_ok (lro : list nat) (nbV k : nat) (cycle perm0 : list Z) :
  Forall (fun v => v < nbV) lro -> k <= length lro ->
  length perm0 = length lro ->
  (forall v, v < nbV -> cycle !! v = Some (last_seen lro (length lro) v)) ->
  (forall i v, lro !! i = Some v -> perm0 !! i = Some (last_seen lro i v)) ->
  exists permutation,
    for_each (close_step lro cycle) (seq 0 k) perm0 = Some permutation /\
    length permutation = length lro /\
    (forall i v, lro !! i = Some v ->
       permutation !! i = Some (if decide (i < k) then perm_spec lro i
                                else last_seen lro i v)).
Proof.
  intros Hall Hk Hlen0 Hcyc Hperm0. induction k as [|k IH].
  - exists perm0. split; [reflexivity|]. split; [exact Hlen0|].
    intros i v Hi. destruct (decide (i < 0)); [lia|]. apply Hperm0. exact Hi.
  - destruct IH as (perm & Hrun & Hlp & Hperm); [lia|].
    rewrite seq_S, for_each_app, Hrun. simpl.
    destruct (lookup_lt_is_Some_2 lro k) as [v Hv]; [lia|].
    assert (Hvb : v < nbV) by (rewrite Forall_lookup in Hall; exact (Hall k v Hv)).
    unfold close_step. rewrite (Hperm k v Hv).
    case_decide; [lia|]. simpl.
    assert (Hspec : perm_spec lro k =
                    if decide (last_seen lro k v = (-1)%Z)
                    then last_seen lro (length lro) v else last_seen lro k v).
    { unfold perm_spec. rewrite Hv. reflexivity. }
    destruct (decide (last_seen lro k v = (-1)%Z)) as [Heq|Hne].
    + rewrite Hv. simpl. rewrite (Hcyc v Hvb). simpl.
      rewrite store_Some by lia. eexists. split; [reflexivity|].
      rewrite length_insert. split; [exact Hlp|].
      intros i v' Hi. destruct (decide (i = k)) as [->|Hik].
      * rewrite list_lookup_insert_eq by lia.
        case_decide; [|lia]. rewrite Hspec. reflexivity.
      * rewrite list_lookup_insert_ne by congruence. rewrite (Hperm i v' Hi).
        repeat case_decide; try lia; reflexivity.
    + exists perm. split; [reflexivity|]. split; [exact Hlp|].
      intros i v' Hi. rewrite (Hperm i v' Hi).
      destruct (decide (i = k)) as [->|Hik].
      * assert (v' = v) as -> by congruence.
        repeat case_decide; try lia. rewrite Hspec. reflexivity.
      * repeat case_decide; try lia; reflexivity.
Qed.

(** [buildPermutation] returns, and what it returns is [perm_spec]. *)
Lemma buildPermutation_spec spr n :
  wf_wires spr -> 0 < nbVariables spr ->
  Public spr + length (Constraints spr) <= n ->
  exists lro S,
    build_lro spr n = Some lro /\
    buildPermutation spr n (nbVariables spr) = Some S /\
    length lro = 3 * n /\ length S = 3 * n /\
    forall i, i < 3 * n -> S !! i = Some (perm_spec lro i).
Proof.
  intros Hwf Hpos Hsz.
  destruct (build_lro_ok spr n Hwf Hpos Hsz) as (lro & Hlro & Hlen & Hall).
  destruct (link_loop_ok lro (nbVariables spr) (length lro) Hall)
    as (cycle & perm0 & Hlink & Hlc & Hlp & Hcyc & Hperm0); [lia|].
  destruct (close_loop_ok lro (nbVariables spr) (length lro) cycle perm0 Hall)
    as (S & Hclose & HlS & HS); [lia|exact Hlp|exact Hcyc| |].
  { intros i v Hi. rewrite (Hperm0 i v Hi).
    apply lookup_lt_Some in Hi. case_decide; [reflexivity|lia]. }
  exists lro, S. split; [exact Hlro|]. split.
  - unfold buildPermutation. rewrite Hlro. simpl.
    replace (n + (n + (n + 0))) with (length lro) by lia.
    rewrite Hlink. simpl. exact Hclose.
  - split; [exact Hlen|]. split; [lia|].
    intros i Hi. destruct (lookup_lt_is_Some_2 lro i) as [v Hv]; [lia|].
    rewrite (HS i v Hv). case_decide; [reflexivity|lia].
Qed.

(** *** Cycles of the specification *)

Section Cycles.
Variable lro : list nat.
Variable S : list Z.
Hypothesis S_length : length S = length lro.
Hypothesis S_spec : forall i, i < length lro -> S !! i = Some (perm_spec lro i).

(** The last occurrence of a variable that occurs at all. *)
Lemma last_occurrence i v :
  lro !! i = Some v ->
  exists L, last_seen lro (length lro) v = Z.of_nat L /\ i <= L < length lro /\
            lro !! L = Some v /\
            forall j, L < j -> lro !! j <> Some v.
Proof.
  intros Hi. pose proof (lookup_lt_Some _ _ _ Hi) as Hlt.
  destruct (last_seen_cases lro (length lro) v)
    as [[_ Hnone]|(L & HL & HLlt & HLv & Habove)].
  - exfalso. exact (Hnone i Hlt Hi).
  - exists L. split; [exact HL|]. split.
    + split; [|exact HLlt]. destruct (decide (i <= L)) as [|Hn]; [assumption|].
      exfalso. apply (Habove i); [lia|exact Hi].
    + split; [exact HLv|]. intros j Hj Hjv.
      pose proof (lookup_lt_Some _ _ _ Hjv). apply (Habove j); [lia|exact Hjv].
Qed.

(** A position points to the previous occurrence of its variable, or,
    being the first one, to the last occurrence. *)
Lemma perm_spec_cases i v :
  lro !! i = Some v ->
  (exists r, perm_spec lro i = Z.of_nat r /\ r < i /\ lro !! r = Some v /\
             forall j, r < j < i -> lro !! j <> Some v) \/
  (perm_spec lro i = last_seen lro (length lro) v /\
   forall j, j < i -> lro !! j <> Some v).
Proof.
  intros Hi. unfold perm_spec. rewrite Hi.
  destruct (last_seen_cases lro i v) as [[H1 H2]|(r & H1 & H2 & H3 & H4)].
  - right. rewrite H1. case_decide; [|congruence]. split; [reflexivity|exact H2].
  - left. exists r. rewrite H1. case_decide; [lia|]. auto.
Qed.

Lemma next_eq i : i < length lro -> Z.of_nat (next S i) = perm_spec lro i.
Proof.
  intros Hi. unfold next. rewrite (nth_lookup_Some _ _ _ _ (S_spec i Hi)).
  destruct (lookup_lt_is_Some_2 lro i Hi) as [v Hv].
  destruct (perm_spec_cases i v Hv) as [(r & -> & _)|[-> _]]; [lia|].
  destruct (last_occurrence i v Hv) as (L & -> & _). lia.
Qed.

Lemma next_same i :
  i < length lro -> next S i < length lro /\ lro !! (next S i) = lro !! i.
Proof.
  intros Hi. pose proof (next_eq i Hi) as Hn.
  destruct (lookup_lt_is_Some_2 lro i Hi) as [v Hv]. rewrite Hv.
  destruct (perm_spec_cases i v Hv) as [(r & Hr & Hlt & Hrv & _)|[Hl _]].
  - assert (next S i = r) as -> by lia. split; [lia|exact Hrv].
  - destruct (last_occurrence i v Hv) as (L & HL & HLlt & HLv & _).
    assert (next S i = L) as -> by lia. split; [lia|exact HLv].
Qed.

Lemma next_inj i j :
  i < length lro -> j < length lro -> next S i = next S j -> i = j.
Proof.
  assert (Hlt : forall i j, i < j -> j < length lro -> next S i <> next S j).
  { clear i j. intros i j Hij Hj Heq.
    assert (Hi : i < length lro) by lia.
    pose proof (next_eq i Hi) as Hni. pose proof (next_eq j Hj) as Hnj.
    destruct (next_same i Hi) as [_ Hsi]. destruct (next_same j Hj) as [_ Hsj].
    destruct (lookup_lt_is_Some_2 lro i Hi) as [v Hv].
    destruct (lookup_lt_is_Some_2 lro j Hj) as [w Hw].
    assert (w = v) as -> by congruence.
    destruct (perm_spec_cases j v Hw) as [(r & Hr & Hrlt & _ & Hbetween)|[_ Hnone]].
    - (* j points below itself, at or above i *)
      assert (i <= r).
      { destruct (decide (i <= r)); [assumption|].
        exfalso. apply (Hbetween i); [lia|exact Hv]. }
      destruct (perm_spec_cases i v Hv) as [(r' & Hr' & Hr'lt & _)|[Hl _]]; [lia|].
      destruct (last_occurrence j v Hw) as (L & HL & HLlt & _). lia.
    - exact (Hnone i Hij Hv). }
  intros Hi Hj Heq. destruct (Nat.lt_trichotomy i j) as [H|[H|H]].
  - exfalso. exact (Hlt i j H Hj Heq).
  - exact H.
  - exfalso. apply (Hlt j i H Hi). congruence.
Qed.

(** The array holds every position exactly once. *)
Lemma S_permutation : S ≡ₚ (Z.of_nat <$> seq 0 (length lro)).
Proof.
  assert (Hget : forall i x, S !! i = Some x ->
                   i < length lro /\ x = Z.of_nat (next S i)).
  { intros i x Hx. pose proof (lookup_lt_Some _ _ _ Hx) as Hi.
    rewrite S_length in Hi. split; [exact Hi|].
    rewrite next_eq by exact Hi. rewrite S_spec in Hx by exact Hi. congruence. }
  apply NoDup_Permutation_bis.
  - apply NoDup_ListNoDup. apply NoDup_alt. intros i j x Hi Hj.
    destruct (Hget i x Hi) as [Hil Hix]. destruct (Hget j x Hj) as [Hjl Hjx].
    apply next_inj; [assumption|assumption|lia].
  - rewrite length_fmap, length_seq. lia.
  - intros x Hx. apply list_elem_of_In in Hx.
    apply list_elem_of_lookup in Hx as [i Hi].
    destruct (Hget i x Hi) as [Hil ->].
    apply list_elem_of_In. apply list_elem_of_fmap. exists (next S i).
    split; [reflexivity|]. apply elem_of_seq.
    destruct (next_same i Hil). lia.
Qed.






End Cycles.

(** ** Sizes *)

#[local] Open Scope Z_scope.

Lemma NextPowerOfTwo_spec n c :
  0 <= n -> NextPowerOfTwo n = Some c ->
  n <= c /\ 1 <= c /\ (c < 2 * n \/ n = 0) /\ exists k, 0 <= k /\ c = 2 ^ k.
Proof.
  intros Hn. unfold NextPowerOfTwo.
  destruct (Z.eqb_spec n 0) as [->|Hn0].
  - intros [= <-]. repeat split; try lia. exists 0. split; [lia|reflexivity].
  - pose proof (Z.log2_spec n ltac:(lia)) as [Hlo Hhi].
    pose proof (Z.log2_nonneg n) as Hlog.
    destruct (Z.eqb_spec n (2 ^ Z.log2 n)) as [Hp|Hp].
    + intros [= <-]. repeat split; try lia. exists (Z.log2 n). auto.
    + destruct (Z.eqb_spec (Z.log2 n) 63); [discriminate|].
      intros [= <-]. rewrite <- Z.add_1_r in Hhi.
      assert (2 ^ (Z.log2 n + 1) = 2 * 2 ^ Z.log2 n) as Hpow
        by (rewrite Z.pow_add_r by lia; lia).
      repeat split; try lia. exists (Z.log2 n + 1). split; [lia|reflexivity].
Qed.

Lemma NextPowerOfTwo_total n :
  0 <= n < 2 ^ 63 -> exists c, NextPowerOfTwo n = Some c.
Proof.
  intros Hn. unfold NextPowerOfTwo.
  destruct (Z.eqb_spec n 0); [eauto|].
  destruct (Z.eqb_spec n (2 ^ Z.log2 n)); [eauto|].
  destruct (Z.eqb_spec (Z.log2 n) 63) as [E|E]; [|eauto].
  exfalso. pose proof (Z.log2_spec n ltac:(lia)) as [Hlo _]. rewrite E in Hlo. lia.
Qed.

#[local] Close Scope Z_scope.

Lemma trace_size_ge spr n :
  (Z.of_nat (GetNbConstraints spr + Public spr) < 2 ^ 63)%Z ->
  trace_size spr = Some n ->
  Public spr + length (Constraints spr) <= n.
Proof.
  intros Hint. unfold trace_size, sizeSystem, wrap64.
  rewrite Z.mod_small by lia.
  destruct (NextPowerOfTwo _) as [c|] eqn:Hc; [|discriminate].
  intros [= <-]. apply NextPowerOfTwo_spec in Hc as (Hge & _); [|lia].
  unfold GetNbConstraints in *. lia.
Qed.



(** ** commitTrace *)

Section CommitTrace.
Context {q : Z}.
#[local] Abbreviation fr := (Zmod q).

Lemma length_inverse_dft (d : @Domain q) (a : list fr) :
  length (inverse_dft d a) = length a.
Proof. unfold inverse_dft. apply length_imap. Qed.

Lemma Size_ToCanonical (d : @Domain q) (p : Polynomial) :
  Size (ToCanonical d p) = Size p.
Proof.
  unfold Size, ToCanonical. destruct (basis p); simpl.
  - reflexivity.
  - apply length_inverse_dft.
  - rewrite length_imap. apply length_inverse_dft.
Qed.

Lemma basis_ToCanonical (d : @Domain q) (p : Polynomial) :
  basis (ToCanonical d p) = Canonical.
Proof. unfold ToCanonical. destruct (basis p) eqn:E; simpl; auto. Qed.

Lemma cell_div_mod (t i j : nat) : j < t -> (i * t + j) / t = i /\ (i * t + j) mod t = j.
Proof.
  intros Hj. split.
  - symmetry. apply (Nat.div_unique _ _ _ j); [exact Hj|lia].
  - symmetry. apply (Nat.mod_unique _ _ i); [exact Hj|lia].
Qed.

Lemma intertwine_row_upto (tl : list (list fr)) (t cnp n i j : nat) (buf : list fr) :
  cnp <= t -> i < n -> j <= cnp ->
  length buf = t * n ->
  (forall c, c < cnp -> exists p x, tl !! c = Some p /\ p !! i = Some x) ->
  (forall k, k < t * n -> buf !! k = Some (filled tl t cnp i 0 k)) ->
  exists buf',
    for_each (fun buf j => pj ← tl !! j; c ← pj !! i; store buf (i * t + j) c)
             (seq 0 j) buf = Some buf' /\
    length buf' = t * n /\
    forall k, k < t * n -> buf' !! k = Some (filled tl t cnp i j k).
Proof.
  intros Hcnp Hi Hj Hlen Htl Hbuf. induction j as [|j IH].
  - exists buf. simpl. auto.
  - destruct IH as (buf1 & Hrun & Hlen1 & Hbuf1); [lia|].
    rewrite seq_S, for_each_app, Hrun. simpl.
    destruct (Htl j) as (p & x & Hp & Hx); [lia|].
    rewrite Hp. simpl. rewrite Hx. simpl.
    assert (Hpos : i * t + j < t * n) by nia.
    rewrite store_Some by lia.
    eexists. split; [reflexivity|]. rewrite length_insert. split; [exact Hlen1|].
    intros k Hk. destruct (cell_div_mod t i j ltac:(lia)) as [Hd Hm].
    destruct (decide (k = i * t + j)) as [->|Hne].
    + rewrite list_lookup_insert_eq by lia. unfold filled. rewrite Hd, Hm.
      case_decide as Hc; [|lia]. rewrite Hp. simpl. rewrite Hx. reflexivity.
    + rewrite list_lookup_insert_ne by congruence. rewrite Hbuf1 by exact Hk.
      f_equal. unfold filled.
      assert (Hkk : ~ (k / t = i /\ k mod t = j)).
      { intros [H1 H2]. apply Hne.
        pose proof (Nat.div_mod_eq k t). rewrite H1, H2 in H. lia. }
      repeat case_decide; try reflexivity; exfalso; lia.
Qed.

Lemma filled_next_row (tl : list (list fr)) (t cnp i k : nat) :
  filled tl t cnp i cnp k = filled tl t cnp (S i) 0 k.
Proof. unfold filled. repeat case_decide; try reflexivity; exfalso; lia. Qed.

Lemma intertwine_rows (tl : list (list fr)) (t cnp n i : nat) :
  cnp <= t -> i <= n ->
  (forall c r, c < cnp -> r < n -> exists p x, tl !! c = Some p /\ p !! r = Some x) ->
  exists buf,
    for_each (intertwine_row t cnp tl) (seq 0 i) (replicate (t * n) Zmod.zero)
    = Some buf /\
    length buf = t * n /\
    forall k, k < t * n -> buf !! k = Some (filled tl t cnp i 0 k).
Proof.
  intros Hcnp Hi Htl. induction i as [|i IH].
  - eexists. split; [reflexivity|]. split; [apply length_replicate|].
    intros k Hk. rewrite lookup_replicate_2 by exact Hk. f_equal.
    unfold filled. case_decide; [exfalso; lia|reflexivity].
  - destruct IH as (buf & Hrun & Hlen & Hbuf); [lia|].
    rewrite seq_S, for_each_app, Hrun. simpl.
    destruct (intertwine_row_upto tl t cnp n i cnp buf) as (buf' & Hrow & Hlen' & Hbuf');
      try assumption; try lia.
    { intros c Hc. apply Htl; [exact Hc|lia]. }
    unfold intertwine_row. rewrite Hrow.
    eexists. split; [reflexivity|]. split; [exact Hlen'|].
    intros k Hk. rewrite Hbuf' by exact Hk. f_equal. apply filled_next_row.
Qed.

(** The buffer of [commitTrace] exists and is [filled] row after row. *)
Lemma intertwine_ok (trace : @Trace q) (domain : Domain) :
  let n := Z.to_nat (Cardinality domain) in
  let nq := length (Qcp trace) in
  let t := 15 + 2 * nq in
  let setup_polynomials :=
    [Ql trace; Qr trace; Qm trace; Qo trace; Qk trace;
     S1 trace; S2 trace; S3 trace] ++ Qcp trace in
  (0 <= Cardinality domain < 2 ^ 63)%Z ->
  Forall (fun p => Size p = n) setup_polynomials ->
  exists buf : list fr,
    intertwine trace domain = Some buf /\
    length buf = t * n /\
    (forall c r, c < setup_s3 + nq + 1 -> r < n ->
       exists p x, traceList trace domain !! c = Some p /\ p !! r = Some x) /\
    (forall k, k < t * n ->
       buf !! k = Some (filled (traceList trace domain) t (setup_s3 + nq + 1) n 0 k)).
Proof.
  intros n nq t polys Hcard Hsize.
  assert (Hlen_polys : length polys = 8 + nq) by (unfold polys; simpl; lia).
  assert (Htl : forall c r, c < setup_s3 + nq + 1 -> r < n ->
            exists p x, traceList trace domain !! c = Some p /\ p !! r = Some x).
  { intros c r Hc Hr. unfold setup_s3 in Hc.
    destruct (lookup_lt_is_Some_2 polys c) as [p Hp]; [lia|].
    assert (Hsz : Size (ToCanonical domain p) = n).
    { rewrite Size_ToCanonical. rewrite Forall_lookup in Hsize. exact (Hsize c p Hp). }
    destruct (lookup_lt_is_Some_2 (Coefficients (ToCanonical domain p)) r) as [x Hx];
      [unfold Size in Hsz; lia|].
    exists (Coefficients (ToCanonical domain p)), x. split; [|exact Hx].
    unfold traceList. fold polys. rewrite list_lookup_fmap, Hp. reflexivity. }
  destruct (intertwine_rows (traceList trace domain) t (setup_s3 + nq + 1) n n)
    as (buf & Hrun & Hlen & Hbuf); [unfold setup_s3; lia|lia|exact Htl|].
  exists buf. split; [|auto].
  unfold intertwine. unfold int_of_uint64.
  destruct (Z.ltb_spec (Cardinality domain) (2 ^ 63)) as [_|?]; [|lia].
  destruct (Z.ltb_spec (Cardinality domain) 0) as [?|_]; [lia|].
  exact Hrun.
Qed.

(** C8. [commitTrace] puts the setup polynomials Ql, Qr, Qm, Qo, the
    incomplete Qk, S1, S2, S3 and the Qcp's, each in canonical form, into
    one buffer of size t * n with t = 15 + 2|Qcp|: coefficient [i] of
    polynomial [j] is at slot [i*t + j], every slot whose polynomial index
    is 8 + |Qcp| or more is zero, and the value stored in [vk.Qpublic] is
    the one commitment of this buffer. *)
Theorem commitTrace_intertwines (trace : @Trace q) (domain : Domain)
    (srsPk : list G1Affine) :
  let n := Z.to_nat (Cardinality domain) in
  let nq := length (Qcp trace) in
  let t := 15 + 2 * nq in
  let setup_polynomials :=
    [Ql trace; Qr trace; Qm trace; Qo trace; Qk trace;
     S1 trace; S2 trace; S3 trace] ++ Qcp trace in
  (0 <= Cardinality domain < 2 ^ 63)%Z ->
  Forall (fun p => Size p = n) setup_polynomials ->
  exists buf : list fr,
    intertwine trace domain = Some buf /\
    commitTrace trace domain srsPk = kzg_Commit buf srsPk /\
    length buf = t * n /\
    (forall i j p, i < n -> setup_polynomials !! j = Some p ->
       basis (ToCanonical domain p) = Canonical /\
       buf !! (i * t + j) = Coefficients (ToCanonical domain p) !! i) /\
    (forall i j, i < n -> 8 + nq <= j < t -> buf !! (i * t + j) = Some Zmod.zero).
Proof.
  intros n nq t polys Hcard Hsize.
  assert (Hlen_polys : length polys = 8 + nq) by (unfold polys; simpl; lia).
  destruct (intertwine_ok trace domain Hcard Hsize)
    as (buf & Hint & Hlen & Htl & Hbuf).
  fold n nq t in Hlen, Htl, Hbuf.
  exists buf. split; [exact Hint|]. split.
  { unfold commitTrace. rewrite Hint. reflexivity. }
  split; [exact Hlen|]. split.
  - intros i j p Hi Hp. split; [apply basis_ToCanonical|].
    pose proof (lookup_lt_Some _ _ _ Hp) as Hj. rewrite Hlen_polys in Hj.
    assert (Hk : i * t + j < t * n) by (unfold t; nia).
    rewrite (Hbuf _ Hk). unfold filled.
    destruct (cell_div_mod t i j ltac:(unfold t; lia)) as [-> ->].
    case_decide as Hc; [|exfalso; unfold setup_s3 in Hc; lia].
    destruct (Htl j i) as (p' & x & Hp' & Hx); [unfold setup_s3; lia|exact Hi|].
    rewrite Hp'. simpl. rewrite Hx. simpl.
    unfold traceList in Hp'. fold polys in Hp'.
    rewrite list_lookup_fmap, Hp in Hp'. simpl in Hp'. injection Hp' as <-.
    symmetry. exact Hx.
  - intros i j Hi Hj.
    assert (Hk : i * t + j < t * n) by (unfold t; nia).
    rewrite (Hbuf _ Hk). unfold filled.
    destruct (cell_div_mod t i j ltac:(lia)) as [-> ->].
    case_decide as Hc; [exfalso; unfold setup_s3 in Hc; lia|reflexivity].
Qed.

End CommitTrace.

Lemma commitTrace_intertwines_witness :
  exists buf : list (Zmod 97),
    intertwine toy_trace toy_domain0 = Some buf /\
    commitTrace toy_trace toy_domain0 (toy_srs 34) = kzg_Commit buf (toy_srs 34) /\
    length buf = 17 * 2 /\
    (forall i j p, i < 2 ->
       ([Ql toy_trace; Qr toy_trace; Qm toy_trace; Qo toy_trace; Qk toy_trace;
         S1 toy_trace; S2 toy_trace; S3 toy_trace] ++ Qcp toy_trace) !! j = Some p ->
       basis (ToCanonical toy_domain0 p) = Canonical /\
       buf !! (i * 17 + j) = Coefficients (ToCanonical toy_domain0 p) !! i) /\
    (forall i j, i < 2 -> 8 + 1 <= j < 17 -> buf !! (i * 17 + j) = Some Zmod.zero).
Proof.
  apply (commitTrace_intertwines toy_trace toy_domain0 (toy_srs 34)).
  - simpl. lia.
  - repeat constructor.
Defined.


(** ** Setup and the size of the commitment key *)

(** A key that passes the size check of [Setup] and is shorter than the
    buffer of [commitTrace] is rejected by the commitment itself. *)
Lemma commitTrace_key_too_short {q : Z} (trace : @Trace q) (domain : Domain)
    (srsPk : list G1Affine) :
  (0 <= Cardinality domain < 2 ^ 63)%Z ->
  Forall (fun p => Size p = Z.to_nat (Cardinality domain))
    ([Ql trace; Qr trace; Qm trace; Qo trace; Qk trace;
      S1 trace; S2 trace; S3 trace] ++ Qcp trace) ->
  length srsPk < (15 + 2 * length (Qcp trace)) * Z.to_nat (Cardinality domain) ->
  commitTrace trace domain srsPk = Err ErrInvalidPolynomialSize.
Proof.
  intros Hcard Hsize Hshort.
  destruct (intertwine_ok trace domain Hcard Hsize) as (buf & Hint & Hlen & _).
  unfold commitTrace. rewrite Hint. cbn [or_panic mbind result_bind].
  unfold kzg_Commit. rewrite Hlen.
  destruct (Nat.ltb_spec (length srsPk)
              ((15 + 2 * length (Qcp trace)) * Z.to_nat (Cardinality domain)));
    [|lia].
  rewrite orb_true_r. reflexivity.
Qed.

(** C1. A circuit of two constraints has a small domain of cardinality 2;
    a key of 5 = 2 + 3 elements passes both checks of [Setup], and [Setup]
    fails all the same, in [commitTrace], on the commitment of the buffer
    of 15 * 2 coefficients: the error is [kzg.ErrInvalidPolynomialSize]. *)
Theorem Setup_key_check_too_weak :
  (Cardinality <$> toy_NewDomain (sizeSystem toy_spr)) = Some 2%Z /\
  length (toy_srs 5) = 2 + 3 /\
  (length <$> (d ← toy_NewDomain (sizeSystem toy_spr);
               trace ← NewTrace toy_spr toy_coefficients d;
               intertwine trace d)) = Some (15 * 2) /\
  Setup (f97 5) (f97 28) 5 toy_spr toy_coefficients (toy_srs 5)
  = Err ErrInvalidPolynomialSize.
Proof. vm_compute. repeat split; reflexivity. Qed.

(** With a key as long as the buffer the same setup succeeds. *)
Example Setup_toy_succeeds :
  exists pk vk,
    Setup (f97 5) (f97 28) 5 toy_spr toy_coefficients (toy_srs 30) = Ok (pk, vk).
Proof. vm_compute. eauto. Qed.

(** ** The blinding polynomials *)

Lemma getRandomPolynomial_order {q : Z} (n : nat) (rand : nat -> Zmod q) (k : nat) :
  getRandomPolynomial (Z.of_nat n) rand k
  = Some (NewPolynomial (rand <$> seq k (S n)) Canonical, k + S n).
Proof.
  unfold getRandomPolynomial.
  destruct (Z.eqb_spec (Z.of_nat n) (-1)) as [?|_]; [lia|].
  destruct (Z.ltb_spec (Z.of_nat n + 1) 0) as [?|_]; [lia|].
  replace (Z.to_nat (Z.of_nat n + 1)) with (S n) by lia. cbn [mbind option_bind].
  assert (Hloop : forall m, m <= S n ->
    for_each (fun '(a, k0) i => a0 ← store a i (rand k0); Some (a0, S k0))
      (seq 0 m) (replicate (S n) (Zmod.zero : Zmod q), k)
    = Some ((rand <$> seq k m) ++ replicate (S n - m) Zmod.zero, k + m)).
  { induction m as [|m IH]; intros Hm.
    - simpl. rewrite Nat.add_0_r. reflexivity.
    - rewrite seq_S, for_each_app, IH by lia. cbn [for_each Nat.add].
      rewrite store_Some
        by (rewrite length_app, length_fmap, length_seq, length_replicate; lia).
      cbn [mbind option_bind]. f_equal. f_equal; [|lia].
      rewrite (seq_S m k), fmap_app.
      replace (S n - m) with (S (S n - S m)) by lia.
      cbn [replicate fmap list_fmap].
      replace m with (length (rand <$> seq k m) + 0) at 1
        by (rewrite length_fmap, length_seq; lia).
      rewrite insert_app_r. cbn [list_insert]. rewrite <- app_assoc. reflexivity. }
  rewrite (Hloop (S n)) by lia. rewrite Nat.sub_diag. simpl.
  rewrite app_nil_r. reflexivity.
Qed.

(** C4. With the order -1 that cancels the blinding, and such are the four
    configured orders, [getRandomPolynomial] returns a polynomial without
    any coefficient, not the polynomial whose one coefficient is zero; so
    the four polynomials of [initBlindingPolynomials] have size 0. *)
Theorem getRandomPolynomial_minus_one_is_empty
    {q : Z} (rand : nat -> Zmod q) (k : nat) :
  getRandomPolynomial (-1) rand k = Some (NewPolynomial [] Canonical, k) /\
  initBlindingPolynomials rand = Some (replicate 4 (NewPolynomial [] Canonical)) /\
  Size (NewPolynomial ([] : list (Zmod q)) Canonical) = 0.
Proof. repeat split; reflexivity. Qed.

(** ** commitToLRO *)

Example toy_domain0_is_NewDomain : toy_NewDomain 2 = Some toy_domain0.
Proof. vm_compute. reflexivity. Qed.

(** When the three column commitments succeed, the digest left in the
    proof is their sum if the sum is taken last, and the sum of three zero
    values if it is taken first. *)
Lemma commitToLRO_schedules {q : Z} (domain0 : @Domain q) key t offsetQcp
    xL xR xO bl br bo bz dl dr do :
  commitToEntangledPolyAndBlinding domain0 key t xL bl (prover_l + offsetQcp)
    = Some (dl, None) ->
  commitToEntangledPolyAndBlinding domain0 key t xR br (prover_r + offsetQcp)
    = Some (dr, None) ->
  commitToEntangledPolyAndBlinding domain0 key t xO bo (prover_o + offsetQcp)
    = Some (do, None) ->
  commitToLRO domain0 key t offsetQcp xL xR xO [bl; br; bo; bz]
    [Commits col_L; Commits col_R; Commits col_O; Sums]
  = Ok (G1_add (G1_add dl dr) do) /\
  commitToLRO domain0 key t offsetQcp xL xR xO [bl; br; bo; bz]
    [Sums; Commits col_L; Commits col_R; Commits col_O]
  = Ok (G1_add (G1_add G1_zero G1_zero) G1_zero).
Proof.
  intros Hl Hr Ho. unfold commitToLRO.
  change ([bl; br; bo; bz] !! id_Bl) with (Some bl).
  change ([bl; br; bo; bz] !! id_Br) with (Some br).
  change ([bl; br; bo; bz] !! id_Bo) with (Some bo).
  cbn [or_panic mbind result_bind]. rewrite Hl, Hr, Ho.
  split; reflexivity.
Qed.

(** C3. [commitToLRO] adds [l], [r] and [o] before it waits for the three
    goroutines that assign them. In the execution in which the sum runs
    first the function returns without error and the digest of the proof
    is the sum of three zero values (the point at infinity), whereas the
    three commitments add up to another point. *)
Theorem commitToLRO_sums_before_wait :
  lro_schedule [Sums; Commits col_L; Commits col_R; Commits col_O] /\
  commitToLRO toy_domain0 (toy_srs 30) 15 0 toy_xL toy_xR toy_xO toy_bp
    [Sums; Commits col_L; Commits col_R; Commits col_O] = Ok G1_zero /\
  commitToLRO toy_domain0 (toy_srs 30) 15 0 toy_xL toy_xR toy_xO toy_bp
    [Commits col_L; Commits col_R; Commits col_O; Sums] = Ok (f97 54) /\
  f97 54 <> G1_zero.
Proof.
  split; [|split; [|split]].
  - unfold lro_schedule.
    exact (Permutation_cons_append [Commits col_L; Commits col_R; Commits col_O] Sums).
  - vm_compute. reflexivity.
  - vm_compute. reflexivity.
  - intros H. apply (f_equal Zmod.to_Z) in H. vm_compute in H. discriminate.
Qed.

(** ** The strides of the entangled commitments *)

(** The verifying key that [Setup] returns has no [Qcp]. *)
Lemma Setup_vk_Qcp {q : Z} (g w : Zmod q) (maxOrder : Z) spr coefficients srs pk vk :
  Setup g w maxOrder spr coefficients srs = Ok (pk, vk) ->
  Vk pk = vk /\ vk_Qcp vk = [].
Proof.
  unfold Setup. destruct (or_panic (initFFTDomain g w maxOrder spr)) as [d| |];
    simpl; try discriminate.
  destruct (Cardinality d <? 2)%Z; [discriminate|].
  destruct (Z.of_nat (length srs) <? int_of_uint64 (Cardinality d) + 3)%Z;
    [discriminate|].
  destruct (or_panic (NewTrace spr coefficients d)) as [tr| |]; simpl; try discriminate.
  destruct (commitTrace tr d srs) as [qp| |]; simpl; try discriminate.
  intros [= <- <-]. split; reflexivity.
Qed.

(** The trace has one [Qcp] per custom gate of the circuit. *)
Lemma NewTrace_Qcp {q : Z} spr (coefficients : list (Zmod q)) d trace :
  NewTrace spr coefficients d = Some trace ->
  length (Qcp trace) = length (CommitmentInfo spr).
Proof.
  unfold NewTrace. intros H.
  destruct (trace_size spr) as [size|]; simpl in H; [|discriminate].
  destruct (for_each placeholder_row _ _) as [sel|]; simpl in H; [|discriminate].
  destruct (for_each (constraint_row _ _) _ _) as [sel'|]; simpl in H; [|discriminate].
  destruct (mapM _ (CommitmentInfo spr)) as [qcp|] eqn:Hq; simpl in H; [|discriminate].
  destruct (buildPermutation _ _ _) as [S|]; simpl in H; [|discriminate].
  destruct (computePermutationPolynomials S d) as [[[s1 s2] s3]|]; simpl in H;
    [|discriminate].
  injection H as <-. simpl. rewrite length_fmap.
  apply length_mapM in Hq. lia.
Qed.

(** C10. For the circuit with one custom gate, [Setup] succeeds and leaves
    [vk.Qcp] empty: [commitToQuotient] strides by 15 + 2 * 0 = 15 through
    the key, while [commitTrace] has folded the setup polynomials with the
    stride 15 + 2 * 1 = 17. *)
Theorem strides_differ_with_custom_gate :
  exists pk vk d trace,
    Setup (f97 5) (f97 28) 5 toy_spr_bsb toy_coefficients (toy_srs 34) = Ok (pk, vk) /\
    toy_NewDomain (sizeSystem toy_spr_bsb) = Some d /\
    NewTrace toy_spr_bsb toy_coefficients d = Some trace /\
    commitTrace_t trace = 17 /\
    commitToQuotient_t (Vk pk) = 15.
Proof. vm_compute. do 4 eexists. repeat split; reflexivity. Qed.

(** ** The scaling of the blinding polynomials is undone *)

Section Scaling.
Context {q : Z}.
Hypothesis q_prime : Z.prime q.
#[local] Abbreviation fr := (Zmod q).
Add Field fr_field : (Zmod.field_theory q q_prime).

#[local] Open Scope Zmod_scope.

Lemma scale_by_powers_acc (a a' w : fr) (cq : list fr) :
  a = a' -> scale_by_powers a w cq = scale_by_powers a' w cq.
Proof. intros ->. reflexivity. Qed.

(** Multiplying every coefficient by [c] multiplies the first factor. *)
Lemma scale_by_powers_mul (c acc w : fr) (cq : list fr) :
  (fun x => x * c) <$> scale_by_powers acc w cq = scale_by_powers (acc * c) w cq.
Proof.
  revert acc. induction cq as [|x cq IH]; intros acc; simpl; [reflexivity|].
  f_equal; [ring|]. change (map (fun x => x * c)) with (fmap (fun x : fr => x * c)).
  rewrite IH. apply scale_by_powers_acc. ring.
Qed.

(** Two scalings compose into one. *)
Lemma scale_by_powers_compose (a v b w : fr) (cq : list fr) :
  scale_by_powers a v (scale_by_powers b w cq) = scale_by_powers (a * b) (v * w) cq.
Proof.
  revert a b. induction cq as [|x cq IH]; intros a b; simpl; [reflexivity|].
  f_equal; [ring|]. rewrite IH. apply scale_by_powers_acc. ring.
Qed.

Lemma scale_by_powers_one (cq : list fr) : scale_by_powers 1 1 cq = cq.
Proof.
  induction cq as [|x cq IH]; simpl; [reflexivity|].
  f_equal; [ring|]. rewrite <- IH at 2. apply scale_by_powers_acc. ring.
Qed.

Lemma scalePowers_compose (p : Polynomial) (v w : fr) :
  scalePowers (scalePowers p w) v = scalePowers p (w * v).
Proof.
  unfold scalePowers. simpl. f_equal.
  rewrite scale_by_powers_compose.
  rewrite (scale_by_powers_acc (1 * 1) 1) by ring.
  f_equal. ring.
Qed.

Lemma scalePowers_one (p : @Polynomial q) : scalePowers p 1 = p.
Proof. unfold scalePowers. rewrite scale_by_powers_one. destruct p; reflexivity. Qed.

(** One pass over a coset on which X^n - 1 does not vanish leaves every
    blinding polynomial scaled by the powers of the shifter. *)
Lemma coset_pass_scales (n : Z) (coset shifter : fr) (bp : list Polynomial) :
  Exp (coset * shifter) n - 1 <> 0 ->
  coset_pass n (coset, bp) shifter
  = (coset * shifter, (fun p => scalePowers p shifter) <$> bp).
Proof.
  intros Hne. unfold coset_pass. f_equal.
  rewrite <- list_fmap_compose. apply list_fmap_ext. intros _ p _. simpl.
  unfold scalePowers. f_equal.
  rewrite scale_by_powers_mul. apply scale_by_powers_acc. field. exact Hne.
Qed.

Lemma foldl_mul_start (a : fr) (l : list fr) :
  foldl Zmod.mul a l = a * foldl Zmod.mul 1 l.
Proof.
  revert a. induction l as [|x l IH]; intros a; simpl; [ring|].
  rewrite (IH (a * x)), (IH (1 * x)). ring.
Qed.

Lemma coset_passes_scale (n : Z) (shifters : list fr) :
  forall (coset : fr) (bp : list Polynomial),
  (forall k, (k < length shifters)%nat ->
     Exp (foldl Zmod.mul coset (take (S k) shifters)) n - 1 <> 0) ->
  foldl (coset_pass n) (coset, bp) shifters
  = (foldl Zmod.mul coset shifters,
     (fun p => scalePowers p (foldl Zmod.mul 1 shifters)) <$> bp).
Proof.
  induction shifters as [|s ss IH]; intros coset bp Hne.
  - simpl. f_equal. rewrite <- (list_fmap_id bp) at 1.
    apply list_fmap_ext. intros _ p _. simpl. symmetry. apply scalePowers_one.
  - cbn [foldl]. rewrite coset_pass_scales by (apply (Hne 0%nat); simpl; lia).
    rewrite IH.
    + f_equal. rewrite <- list_fmap_compose. apply list_fmap_ext. intros _ p _.
      simpl. rewrite scalePowers_compose. f_equal.
      rewrite (foldl_mul_start (1 * s)). ring.
    + intros k Hk. apply (Hne (S k)). simpl. lia.
Qed.

Lemma shifters_of_eq (domain1 : @Domain q) (rho : nat) :
  (0 < rho)%nat ->
  shifters_of domain1 rho
  = Some (FrMultiplicativeGen domain1 :: replicate (rho - 1) (Generator domain1)).
Proof.
  intros Hrho. unfold shifters_of.
  rewrite store_Some by (rewrite length_replicate; lia).
  cbn [mbind option_bind].
  destruct rho as [|r]; [lia|]. cbn [replicate list_insert insert].
  replace (S r - 1)%nat with r by lia.
  assert (Hloop : forall m, (m <= r)%nat ->
    for_each (fun sh i => store sh i (Generator domain1)) (seq 1 m)
      (FrMultiplicativeGen domain1 :: replicate r 0)
    = Some (FrMultiplicativeGen domain1 ::
            replicate m (Generator domain1) ++ replicate (r - m) 0)).
  { induction m as [|m IHm]; intros Hm.
    - simpl. rewrite Nat.sub_0_r. reflexivity.
    - rewrite seq_S, for_each_app, IHm by lia. cbn [for_each Nat.add].
      rewrite store_Some
        by (cbn [length]; rewrite length_app, !length_replicate; lia).
      f_equal. rewrite insert_cons_S. f_equal.
      replace (r - m)%nat with (S (r - S m)) by lia.
      rewrite insert_app_r_alt by (rewrite length_replicate; lia).
      rewrite length_replicate, Nat.sub_diag.
      change (replicate (S (r - S m)) (0 : fr))
        with ((0 : fr) :: replicate (r - S m) 0).
      rewrite insert_cons_0, replicate_S_end, <- app_assoc. reflexivity. }
  rewrite (Hloop r) by lia. rewrite Nat.sub_diag. simpl. rewrite app_nil_r.
  reflexivity.
Qed.

Lemma foldl_mul_replicate (a w : fr) (k : nat) :
  foldl Zmod.mul a (replicate k w) = a * Exp w (Z.of_nat k).
Proof.
  revert a. induction k as [|k IH]; intros a.
  - simpl. unfold Exp. rewrite Zmod.pow_0_r. ring.
  - cbn [replicate foldl]. rewrite IH. unfold Exp.
    rewrite Nat2Z.inj_succ, Zmod.pow_succ_nonneg_r by lia. ring.
Qed.

Lemma foldl_mul_nonzero (a : fr) (l : list fr) :
  a <> 0 -> Forall (fun x => x <> 0) l -> foldl Zmod.mul a l <> 0.
Proof.
  revert a. induction l as [|x l IH]; intros a Ha Hl; simpl; [exact Ha|].
  apply Forall_cons in Hl as [Hx Hl]. apply IH; [|exact Hl].
  intros H. apply (Zmod.mul_0_iff_prime q_prime) in H. tauto.
Qed.

(** C6. On exit from [computeNumerator] every blinding polynomial has the
    coefficients it had on entry: on each of the rho cosets coefficient j
    is multiplied by (coset^n - 1) * shifter^j and then by the inverse of
    coset^n - 1, and the final [scalePowers] by the inverse of the product
    of the shifters removes the powers that are left. The shifters are
    non-zero and X^n - 1 does not vanish on the cosets g * w^i of the
    large domain. *)
Theorem computeNumerator_restores_blinding
    (domain0 domain1 : @Domain q) (bp : list Polynomial) :
  let n := Cardinality domain0 in
  let rho := Z.to_nat (Cardinality domain1 / n) in
  let g := FrMultiplicativeGen domain1 in
  let w := Generator domain1 in
  (0 < rho)%nat ->
  g <> 0 -> w <> 0 ->
  (forall i, (i < rho)%nat -> Exp (g * Exp w (Z.of_nat i)) n <> 1) ->
  computeNumerator_bp domain0 domain1 bp = Some bp.
Proof.
  intros n rho g w Hrho Hg Hw Hcoset. unfold computeNumerator_bp.
  fold n. fold rho. rewrite shifters_of_eq by exact Hrho. fold g. fold w.
  cbn [mbind option_bind].
  rewrite coset_passes_scale.
  - change ((g :: replicate (rho - 1) w) !! 0%nat) with (Some g).
    cbn [mbind option_bind drop]. f_equal.
    rewrite <- list_fmap_compose. rewrite <- (list_fmap_id bp) at 2.
    apply list_fmap_ext. intros _ p _. simpl.
    rewrite scalePowers_compose, drop_0.
    set (X := foldl Zmod.mul g (replicate (rho - 1) w)).
    assert (HX : X <> 0).
    { apply foldl_mul_nonzero; [exact Hg|]. apply Forall_replicate. exact Hw. }
    replace (foldl Zmod.mul (1 * g) (replicate (rho - 1) w)) with X
      by (unfold X; f_equal; ring).
    replace (X * Zmod.inv X) with (1 : fr) by (field; exact HX).
    apply scalePowers_one.
  - intros k Hk. cbn [length] in Hk. rewrite length_replicate in Hk.
    cbn [take foldl]. rewrite take_replicate, foldl_mul_replicate.
    replace (k `min` (rho - 1))%nat with k by lia.
    replace (1 * g * Exp w (Z.of_nat k)) with (g * Exp w (Z.of_nat k)) by ring.
    intros H0. apply (Hcoset k); [lia|].
    replace (Exp (g * Exp w (Z.of_nat k)) n)
      with (Exp (g * Exp w (Z.of_nat k)) n - 1 + 1) by ring.
    rewrite H0. ring.
Qed.


End Scaling.

Lemma trial_division_prime (p : Z) : trial_division p = true -> Z.prime p.
Proof.
  unfold trial_division. intros H. apply andb_prop in H as [H1 H2].
  apply Z.ltb_lt in H1. split; [exact H1|].
  intros n Hn Hd. apply Z.mod_divide in Hd; [|lia].
  rewrite forallb_forall in H2.
  assert (Hin : In (Z.to_nat n) (seq 2 (Z.to_nat p - 2))) by (apply in_seq; lia).
  apply H2 in Hin. rewrite Z2Nat.id in Hin by lia. rewrite Hd in Hin. discriminate.
Qed.

Lemma prime_97 : Z.prime 97.
Proof. apply trial_division_prime. vm_compute. reflexivity. Qed.

Lemma f97_neq (a b : Z) : (a mod 97 =? b mod 97)%Z = false -> f97 a <> f97 b.
Proof.
  intros H E. apply (f_equal Zmod.to_Z) in E. unfold f97 in E.
  rewrite !Zmod.to_Z_of_Z in E. rewrite E, Z.eqb_refl in H. discriminate.
Qed.

Example toy_domain1_is_NewDomain : toy_NewDomain 16 = Some toy_domain1.
Proof. vm_compute. reflexivity. Qed.

Lemma computeNumerator_restores_blinding_witness :
  computeNumerator_bp toy_domain0 toy_domain1 toy_blinding = Some toy_blinding.
Proof.
  apply (computeNumerator_restores_blinding prime_97 toy_domain0 toy_domain1).
  - vm_compute. lia.
  - apply (f97_neq 5 0). reflexivity.
  - apply (f97_neq 8 0). reflexivity.
  - intros i Hi. change (Z.to_nat (Cardinality toy_domain1 / Cardinality toy_domain0))
      with 8 in Hi.
    intros E. apply (f_equal Zmod.to_Z) in E.
    do 8 (destruct i as [|i]; [vm_compute in E; discriminate|]). lia.
Defined.

(** ** The domains of the prover *)



Lemma NewDomain_Cardinality {q : Z} (g w : Zmod q) (maxOrder m : Z) (d : Domain) :
  NewDomain g w maxOrder m = Some d -> NextPowerOfTwo m = Some (Cardinality d).
Proof.
  unfold NewDomain. destruct (NextPowerOfTwo m) as [x|]; simpl; [|discriminate].
  destruct (maxOrder <? Z.log2 x)%Z; [discriminate|]. intros [= <-]. reflexivity.
Qed.


Lemma slice_Some {A : Type} (s : list A) (a b : nat) :
  a <= b <= length s -> slice s a b = Some (take (b - a) (drop a s)).
Proof. intros H. unfold slice. destruct (decide (a <= b <= length s)); [reflexivity|lia]. Qed.

(** ** The challenges *)

Section Challenges.
Context {q : Z} {bytes : Type}.
Context (RawBytes : @G1Affine q -> bytes) (fr_Bytes : Zmod q -> bytes)
        (SetBytes : bytes -> Zmod q)
        (challenge_hash : string -> option bytes -> list bytes -> bytes)
        (vk_material : @VerifyingKey q -> list bytes).

(** Binding values to a challenge that is not computed yet appends them
    to its bindings. *)
Lemma fs_bind_all_ok (id : string) (bs : list bytes) :
  forall (m : gmap string (challenge bytes)) prev pos old,
  m !! id = Some (mk_challenge pos old None) ->
  fs_bind_all id bs (mk_Transcript m prev)
  = Ok (tt, mk_Transcript (<[id := mk_challenge pos (old ++ bs) None]> m) prev).
Proof.
  induction bs as [|b bs IH]; intros m prev pos old Hm.
  - cbn [fs_bind_all]. unfold fs_ret. rewrite app_nil_r, insert_id by exact Hm.
    reflexivity.
  - cbn [fs_bind_all]. unfold fs_bind, fs_Bind, Bind. cbn [challenges previous].
    rewrite Hm. cbn [value position bindings].
    rewrite (IH _ prev pos (old ++ [b])) by apply lookup_insert_eq.
    rewrite insert_insert_eq, <- app_assoc. reflexivity.
Qed.

(** The first challenge is the hash of its name and of its bindings. *)
Lemma ComputeChallenge_first (id : string) (m : gmap string (challenge bytes))
    prev bs :
  m !! id = Some (mk_challenge 0 bs None) ->
  let res := challenge_hash id None bs in
  let c := mk_challenge 0 bs (Some res) in
  fs_ComputeChallenge challenge_hash id (mk_Transcript m prev)
  = Ok (res, mk_Transcript (<[id := c]> m) (Some c)).
Proof.
  intros Hm. unfold fs_ComputeChallenge, ComputeChallenge. cbn [challenges previous].
  rewrite Hm. reflexivity.
Qed.

(** A later challenge also hashes the value of the challenge before it,
    which must be the last one computed. *)
Lemma ComputeChallenge_next (id : string) (m : gmap string (challenge bytes))
    (p : challenge bytes) pos bs :
  m !! id = Some (mk_challenge (S pos) bs None) ->
  position p = pos ->
  let res := challenge_hash id (value p) bs in
  let c := mk_challenge (S pos) bs (Some res) in
  fs_ComputeChallenge challenge_hash id (mk_Transcript m (Some p))
  = Ok (res, mk_Transcript (<[id := c]> m) (Some c)).
Proof.
  intros Hm Hp. unfold fs_ComputeChallenge, ComputeChallenge. cbn [challenges previous].
  rewrite Hm. cbn [value position bindings].
  destruct (decide (S pos = 0)) as [?|_]; [lia|].
  destruct (decide (position p = S pos - 1)) as [_|?]; [|lia].
  reflexivity.
Qed.

(** A challenge cannot be computed before the one that precedes it. *)
Lemma ComputeChallenge_out_of_order :
  fs_ComputeChallenge challenge_hash "beta" new_fs
  = Err ErrPreviousChallengeNotComputed.
Proof. reflexivity. Qed.

Lemma deriveRandomness_first (id : string) (points : list G1Affine)
    (m : gmap string (challenge bytes)) prev old :
  m !! id = Some (mk_challenge 0 old None) ->
  let res := challenge_hash id None (old ++ (RawBytes <$> points)) in
  let c := mk_challenge 0 (old ++ (RawBytes <$> points)) (Some res) in
  deriveRandomness RawBytes SetBytes challenge_hash id points (mk_Transcript m prev)
  = Ok (SetBytes res, mk_Transcript (<[id := c]> m) (Some c)).
Proof.
  intros Hm. unfold deriveRandomness, fs_bind.
  rewrite (fs_bind_all_ok _ _ _ _ _ _ Hm). cbn beta iota.
  rewrite (ComputeChallenge_first id _ prev (old ++ (RawBytes <$> points)))
    by apply lookup_insert_eq.
  cbn beta iota zeta. rewrite insert_insert_eq. reflexivity.
Qed.

Lemma deriveRandomness_next (id : string) (points : list G1Affine)
    (m : gmap string (challenge bytes)) (p : challenge bytes) pos :
  m !! id = Some (mk_challenge (S pos) [] None) ->
  position p = pos ->
  let res := challenge_hash id (value p) (RawBytes <$> points) in
  let c := mk_challenge (S pos) (RawBytes <$> points) (Some res) in
  deriveRandomness RawBytes SetBytes challenge_hash id points
    (mk_Transcript m (Some p))
  = Ok (SetBytes res, mk_Transcript (<[id := c]> m) (Some c)).
Proof.
  intros Hm Hp. unfold deriveRandomness, fs_bind.
  rewrite (fs_bind_all_ok _ _ _ _ _ _ Hm). cbn beta iota.
  rewrite (ComputeChallenge_next id _ p pos ([] ++ (RawBytes <$> points)))
    by (apply lookup_insert_eq || exact Hp).
  cbn beta iota zeta. rewrite insert_insert_eq. reflexivity.
Qed.

Ltac lookup_challenge :=
  repeat (rewrite lookup_insert_ne by discriminate); apply lookup_insert_eq.

(** C9. The prover derives gamma, beta, alpha and zeta in this order, and
    none of the four derivations fails. gamma is the hash of the
    verifying-key material and of the public inputs, bound first, and then
    of the entangled L‖R‖O commitment; beta is the hash of gamma alone,
    with no binding; alpha is the hash of beta, of the custom-gate
    commitments and then of the entangled Z commitment; zeta is the hash of
    alpha and of the entangled quotient commitment. *)
Theorem derive_challenges_bindings (vk : @VerifyingKey q)
    (wWitness : list (Zmod q)) (nbPublic : nat) (lroEntangled : G1Affine)
    (bsb22Commitments : list G1Affine)
    (zEntangled : Zmod q -> Zmod q -> G1Affine)
    (hEntangled : Zmod q -> Zmod q -> Zmod q -> G1Affine) :
  nbPublic <= length wWitness ->
  let publicInputs := take nbPublic wWitness in
  let gamma_bytes :=
    challenge_hash "gamma" None
      (vk_material vk ++ (fr_Bytes <$> publicInputs) ++ [RawBytes lroEntangled]) in
  let gamma := SetBytes gamma_bytes in
  let beta_bytes := challenge_hash "beta" (Some gamma_bytes) [] in
  let beta := SetBytes beta_bytes in
  let alpha_bytes :=
    challenge_hash "alpha" (Some beta_bytes)
      ((RawBytes <$> bsb22Commitments) ++ [RawBytes (zEntangled gamma beta)]) in
  let alpha := SetBytes alpha_bytes in
  let zeta_bytes :=
    challenge_hash "zeta" (Some alpha_bytes)
      [RawBytes (hEntangled gamma beta alpha)] in
  let zeta := SetBytes zeta_bytes in
  exists fs' : Transcript bytes,
    derive_challenges RawBytes fr_Bytes SetBytes challenge_hash vk_material
      vk wWitness nbPublic lroEntangled bsb22Commitments zEntangled hEntangled
      new_fs
    = Ok ((gamma, beta, alpha, zeta), fs').
Proof.
  intros Hpub publicInputs gamma_bytes gamma beta_bytes beta alpha_bytes alpha
         zeta_bytes zeta.
  unfold derive_challenges, deriveGammaAndBeta.
  rewrite slice_Some by lia. rewrite Nat.sub_0_r, drop_0. fold publicInputs.
  change (@new_fs bytes) with
    (mk_Transcript
       (<["zeta" := mk_challenge 3 [] None]>
          (<["alpha" := mk_challenge 2 [] None]>
             (<["beta" := mk_challenge 1 [] None]>
                (<["gamma" := mk_challenge 0 ([] : list bytes) None]> ∅))))
       None).
  unfold fs_bind at 1 2. unfold bindPublicData.
  rewrite (fs_bind_all_ok "gamma" _ _ None 0 []) by lookup_challenge.
  cbn beta iota. rewrite app_nil_l.
  unfold fs_bind at 1.
  rewrite (deriveRandomness_first "gamma" [lroEntangled] _ None
             (vk_material vk ++ (fr_Bytes <$> publicInputs)))
    by apply lookup_insert_eq.
  cbn beta iota zeta. rewrite insert_insert_eq.
  change (RawBytes <$> [lroEntangled]) with [RawBytes lroEntangled].
  rewrite <- app_assoc. fold gamma_bytes. fold gamma.
  unfold fs_bind at 1.
  rewrite (ComputeChallenge_next "beta" _ _ 0 [])
    by (lookup_challenge || reflexivity).
  cbn beta iota zeta. cbn [value]. fold beta_bytes.
  unfold fs_ret at 1. cbn beta iota. fold beta.
  unfold fs_bind at 1. unfold deriveAlpha.
  rewrite (deriveRandomness_next "alpha" _ _ _ 1)
    by (lookup_challenge || reflexivity).
  cbn beta iota zeta. cbn [value]. rewrite fmap_app.
  change (RawBytes <$> [zEntangled gamma beta]) with [RawBytes (zEntangled gamma beta)].
  fold alpha_bytes. fold alpha.
  unfold fs_bind at 1. unfold deriveZeta.
  rewrite (deriveRandomness_next "zeta" _ _ _ 2)
    by (lookup_challenge || reflexivity).
  cbn beta iota zeta. cbn [value].
  change (RawBytes <$> [hEntangled gamma beta alpha])
    with [RawBytes (hEntangled gamma beta alpha)].
  fold zeta_bytes. fold zeta. unfold fs_ret. eexists. reflexivity.
Qed.


End Challenges.

Lemma derive_challenges_bindings_witness :
  let wWitness := [f97 4; f97 2; f97 8] in
  let zEntangled := fun gamma beta : Zmod 97 => Zmod.add gamma beta in
  let hEntangled := fun gamma beta alpha : Zmod 97 =>
                      Zmod.add (Zmod.mul gamma beta) alpha in
  let publicInputs := take 1 wWitness in
  let gamma_bytes :=
    toy_hash "gamma" None
      (toy_vk_material toy_vk ++ (Zmod.to_Z <$> publicInputs)
       ++ [Zmod.to_Z (f97 54)]) in
  let gamma := f97 gamma_bytes in
  let beta_bytes := toy_hash "beta" (Some gamma_bytes) [] in
  let beta := f97 beta_bytes in
  let alpha_bytes :=
    toy_hash "alpha" (Some beta_bytes)
      ((Zmod.to_Z <$> [f97 7]) ++ [Zmod.to_Z (zEntangled gamma beta)]) in
  let alpha := f97 alpha_bytes in
  let zeta_bytes :=
    toy_hash "zeta" (Some alpha_bytes)
      [Zmod.to_Z (hEntangled gamma beta alpha)] in
  let zeta := f97 zeta_bytes in
  exists fs' : Transcript Z,
    derive_challenges Zmod.to_Z Zmod.to_Z f97 toy_hash toy_vk_material
      toy_vk wWitness 1 (f97 54) [f97 7] zEntangled hEntangled new_fs
    = Ok ((gamma, beta, alpha, zeta), fs').
Proof.
  apply (derive_challenges_bindings Zmod.to_Z Zmod.to_Z f97 toy_hash
           toy_vk_material toy_vk [f97 4; f97 2; f97 8] 1 (f97 54) [f97 7]).
  simpl. lia.
Defined.

(** ** batchOpening *)

Section BatchOpening.
Context {P : Type}.

(** Writing the first nil slot. *)
Lemma store_slots (t : nat) (filled : list P) (i : nat) (x : P) :
  i = length filled -> i < t ->
  store (slots t filled) i (Some x) = Some (slots t (filled ++ [x])).
Proof.
  intros -> Hlt. unfold slots.
  rewrite store_Some
    by (rewrite length_app, length_fmap, length_replicate; lia).
  f_equal. rewrite insert_app_r_alt by (rewrite length_fmap; lia).
  rewrite length_fmap, Nat.sub_diag, length_app. cbn [length].
  replace (t - length filled) with (S (t - (length filled + 1))) by lia.
  cbn [replicate]. rewrite insert_cons_0, fmap_app, <- app_assoc. reflexivity.
Qed.

Lemma slots_nil (t : nat) : replicate t (None : option P) = slots t [].
Proof. unfold slots. simpl. rewrite Nat.sub_0_r. reflexivity. Qed.

(** The loop over the custom-gate selectors. *)
Lemma fill_indexed (t base : nat) (xs : list P) :
  forall (k : nat) (filled : list P),
  length filled = base + k -> length filled + length xs <= t ->
  for_each (fun set0 '(i, p) => store set0 (base + i) (Some p))
           (imap (fun i p => (k + i, p)) xs) (slots t filled)
  = Some (slots t (filled ++ xs)).
Proof.
  induction xs as [|x xs IH]; intros k filled Hlen Hroom.
  - simpl. rewrite app_nil_r. reflexivity.
  - rewrite imap_cons. cbn [for_each]. cbn [length] in Hroom.
    rewrite store_slots by lia.
    rewrite (imap_ext _ (fun i p => (S k + i, p)))
      by (intros; unfold compose; f_equal; lia).
    rewrite IH by (rewrite ?length_app; cbn [length]; lia).
    rewrite <- app_assoc. reflexivity.
Qed.

(** The loop over the custom-gate witnesses. *)
Lemma fill_lookup (t base : nat) (bsb : list P) :
  forall (r k : nat) (filled : list P),
  length filled = base + k -> k + r <= length bsb -> length filled + r <= t ->
  for_each (fun set0 i => p ← bsb !! i; store set0 (base + i) (Some p))
           (seq k r) (slots t filled)
  = Some (slots t (filled ++ take r (drop k bsb))).
Proof.
  induction r as [|r IH]; intros k filled Hlen Hk Hroom.
  - simpl. rewrite app_nil_r. reflexivity.
  - cbn [seq for_each].
    destruct (lookup_lt_is_Some_2 bsb k) as [p Hp]; [lia|].
    rewrite Hp. cbn [mbind option_bind]. rewrite store_slots by lia.
    rewrite IH by (rewrite ?length_app; cbn [length]; lia).
    rewrite (drop_S _ _ _ Hp). cbn [take]. rewrite <- app_assoc. reflexivity.
Qed.

End BatchOpening.

Ltac slot_index :=
  unfold setup_ql, setup_qr, setup_qm, setup_qo, setup_qk_incomplete, setup_s1,
    setup_s2, setup_s3, prover_l, prover_r, prover_o, prover_z, prover_h_1,
    prover_h_2, prover_h_3, number_polynomials;
  rewrite ?length_app; cbn [length]; lia.

(** C2, as the code has it. The first set of [batchOpening] is opened at
    zeta and holds every slotted polynomial, the blinded Z included, which
    sits at the slot [prover_z + |Qcp|]: Ql, Qr, Qm, Qo, the incomplete Qk,
    S1, S2, S3, the Qcp's, the blinded L, R, O and Z, H1, H2, H3 and the
    custom-gate witnesses, in this order from slot 0 on, the slots from
    15 + 2|Qcp| up to t staying nil. The second set is opened at
    omega * zeta^t and holds the blinded Z alone. *)
Theorem batchOpening_sets {q : Z} {P : Type} (t : nat)
    (ql qr qm qo qk s1 s2 s3 : P) (qcp : list P)
    (l r o z h_1 h_2 h_3 : P) (bsb : list P)
    (zeta : Zmod q) (domain0 : @Domain q) :
  15 + 2 * length qcp <= t ->
  length bsb = length qcp ->
  let first_set :=
    slots t ([ql; qr; qm; qo; qk; s1; s2; s3] ++ qcp
             ++ [l; r; o; z; h_1; h_2; h_3] ++ bsb) in
  polysToOpen t ql qr qm qo qk s1 s2 s3 qcp l r o z h_1 h_2 h_3 bsb
  = Some (first_set, [Some z]) /\
  first_set !! (prover_z + length qcp) = Some (Some z) /\
  batchOpening_points t zeta domain0
  = [[zeta]; [Zmod.mul (Generator domain0) (Exp zeta (Z.of_nat t))]].
Proof.
  intros Ht Hbsb first_set. split; [|split].
  - unfold polysToOpen. cbv zeta. rewrite (slots_nil t).
    rewrite (store_slots t [] setup_ql) by slot_index.
    cbn [mbind option_bind app].
    rewrite (store_slots t [ql] setup_qr) by slot_index.
    cbn [mbind option_bind app].
    rewrite (store_slots t [ql; qr] setup_qm) by slot_index.
    cbn [mbind option_bind app].
    rewrite (store_slots t [ql; qr; qm] setup_qo) by slot_index.
    cbn [mbind option_bind app].
    rewrite (store_slots t [ql; qr; qm; qo] setup_qk_incomplete)
      by slot_index.
    cbn [mbind option_bind app].
    rewrite (store_slots t [ql; qr; qm; qo; qk] setup_s1)
      by slot_index.
    cbn [mbind option_bind app].
    rewrite (store_slots t [ql; qr; qm; qo; qk; s1] setup_s2)
      by slot_index.
    cbn [mbind option_bind app].
    rewrite (store_slots t [ql; qr; qm; qo; qk; s1; s2] setup_s3)
      by slot_index.
    cbn [mbind option_bind app].
    change (imap pair qcp) with (imap (fun i (p : P) => (0 + i, p)) qcp).
    rewrite (fill_indexed t (setup_s3 + 1) qcp 0) by slot_index.
    cbn [mbind option_bind].
    set (f0 := [ql; qr; qm; qo; qk; s1; s2; s3] ++ qcp).
    assert (Hf0 : length f0 = 8 + length qcp)
      by (unfold f0; rewrite length_app; reflexivity).
    rewrite (store_slots t f0) by slot_index.
    cbn [mbind option_bind].
    rewrite (store_slots t (f0 ++ [l]))
      by slot_index.
    cbn [mbind option_bind].
    rewrite (store_slots t ((f0 ++ [l]) ++ [r]))
      by slot_index.
    cbn [mbind option_bind].
    rewrite (store_slots t (((f0 ++ [l]) ++ [r]) ++ [o]))
      by slot_index.
    cbn [mbind option_bind].
    rewrite (store_slots t ((((f0 ++ [l]) ++ [r]) ++ [o]) ++ [z]))
      by slot_index.
    cbn [mbind option_bind].
    rewrite (store_slots t (((((f0 ++ [l]) ++ [r]) ++ [o]) ++ [z]) ++ [h_1]))
      by slot_index.
    cbn [mbind option_bind].
    rewrite (store_slots t ((((((f0 ++ [l]) ++ [r]) ++ [o]) ++ [z]) ++ [h_1]) ++ [h_2]))
      by slot_index.
    cbn [mbind option_bind].
    rewrite (fill_lookup t (number_polynomials + length qcp) bsb (length qcp) 0)
      by slot_index.
    cbn [mbind option_bind]. rewrite drop_0, take_ge by lia.
    change (store (replicate 1 None) 0 (Some z)) with (Some [Some z]).
    cbn [mbind option_bind]. unfold first_set, f0.
    rewrite <- !app_assoc. reflexivity.
  - unfold first_set, slots.
    rewrite lookup_app_l
      by (rewrite length_fmap, !length_app; cbn [length]; unfold prover_z; lia).
    rewrite list_lookup_fmap.
    rewrite lookup_app_r by (cbn [length]; unfold prover_z; lia).
    rewrite lookup_app_r by (cbn [length]; unfold prover_z; lia).
    cbn [length]. replace (prover_z + length qcp - 8 - length qcp) with 3
      by (unfold prover_z; lia).
    reflexivity.
  - unfold batchOpening_points. rewrite Zmod.mul_comm. reflexivity.
Qed.

(** The sets of [batchOpening] for a circuit with one custom gate, the
    polynomials being known by their names. *)
Lemma batchOpening_sets_witness :
  let first_set :=
    slots 17 (["Ql"; "Qr"; "Qm"; "Qo"; "Qk"; "S1"; "S2"; "S3"] ++ ["Qcp0"]
              ++ ["L"; "R"; "O"; "Z"; "H1"; "H2"; "H3"] ++ ["Pi0"]) in
  polysToOpen 17 "Ql" "Qr" "Qm" "Qo" "Qk" "S1" "S2" "S3" ["Qcp0"]
    "L" "R" "O" "Z" "H1" "H2" "H3" ["Pi0"]
  = Some (first_set, [Some "Z"]) /\
  first_set !! (prover_z + length ["Qcp0"]) = Some (Some "Z") /\
  batchOpening_points 17 (f97 3) toy_domain0
  = [[f97 3]; [Zmod.mul (Generator toy_domain0) (Exp (f97 3) (Z.of_nat 17))]].
Proof.
  apply (batchOpening_sets 17 "Ql" "Qr" "Qm" "Qo" "Qk" "S1" "S2" "S3" ["Qcp0"]
           "L" "R" "O" "Z" "H1" "H2" "H3" ["Pi0"] (f97 3) toy_domain0).
  - simpl. lia.
  - reflexivity.
Defined.

(** The first set of [batchOpening] is not free of Z: without custom gate
    and with t = 15, its slot [prover_z] = 11 holds the blinded Z. *)
Lemma batchOpening_first_set_holds_Z :
  exists set0 set1 : list (option string),
    polysToOpen 15 "Ql" "Qr" "Qm" "Qo" "Qk" "S1" "S2" "S3" []
      "L" "R" "O" "Z" "H1" "H2" "H3" []
    = Some (set0, set1) /\
    set0 !! prover_z = Some (Some "Z") /\
    Some "Z" ∈ set0.
Proof.
  eexists _, _. split; [reflexivity|]. split; [reflexivity|].
  apply (list_elem_of_lookup_2 _ prover_z). reflexivity.
Qed.

(** On the state of an instance with one custom gate and t = 17: the slot
    [prover_z + 1] of the first set and the only slot of the second set
    hold the coefficients of the blinded Z. *)
Example batchOpening_polys_toy :
  exists set0 set1,
    batchOpening_polys 17 toy_trace toy_domain0 toy_xL toy_xR toy_xO toy_xZ
      toy_bp toy_h [toy_pi] = Some (set0, set1) /\
    length set0 = 17 /\
    set0 !! (prover_z + 1) = Some (Some [f97 21; f97 22]) /\
    set0 !! (prover_h_1 + 1) = Some (Some [f97 1; f97 2; f97 3; f97 4]) /\
    set1 = [Some [f97 21; f97 22]].
Proof. vm_compute. eexists _, _. repeat split; reflexivity. Qed.

(** ** Blinded polynomials *)

Section Blinding.
Context {q : Z}.
#[local] Abbreviation fr := (Zmod q).
Add Ring fr_ring_blinding : (Zmod.ring_theory q).

#[local] Open Scope Zmod_scope.

Lemma Evaluate_cons (c : fr) (l : list fr) (x : fr) :
  Evaluate (c :: l) x = c + x * Evaluate l x.
Proof. reflexivity. Qed.

Lemma Evaluate_append (a b : list fr) (x : fr) :
  Evaluate (a ++ b) x
  = Evaluate a x + Exp x (Z.of_nat (length a)) * Evaluate b x.
Proof.
  unfold Exp. induction a as [|c a IH].
  - cbn [app length]. change (Evaluate [] x) with (0 : fr).
    rewrite Zmod.pow_0_r. ring.
  - cbn [app length]. rewrite !Evaluate_cons, IH.
    rewrite Nat2Z.inj_succ, Zmod.pow_succ_nonneg_r by lia. ring.
Qed.

Lemma Evaluate_zip_sub (x : fr) :
  forall l1 l2 : list fr, length l1 = length l2 ->
  Evaluate (zip_with Zmod.sub l1 l2) x = Evaluate l1 x - Evaluate l2 x.
Proof.
  induction l1 as [|c l1 IH]; intros [|d l2] Hlen; try discriminate.
  - cbn [zip_with]. change (Evaluate [] x) with (0 : fr). ring.
  - cbn [zip_with]. rewrite !Evaluate_cons.
    rewrite IH by (cbn in Hlen; lia). ring.
Qed.

(** The loop of [getBlindedCoefficients], from index [k] on. *)
Lemma blinding_loop (b : list fr) :
  forall (m k : nat) (l : list fr),
  (k + m = length b)%nat -> (length b <= length l)%nat ->
  for_each (fun cp i => c ← cp !! i; d ← b !! i; store cp i (Zmod.sub c d))
           (seq k m) l
  = Some (take k l ++ zip_with Zmod.sub (take m (drop k l)) (drop k b)
          ++ drop (k + m) l).
Proof.
  induction m as [|m IH]; intros k l Hk Hl.
  - cbn [seq for_each]. rewrite take_0. cbn [zip_with app].
    rewrite Nat.add_0_r, take_drop. reflexivity.
  - cbn [seq for_each].
    destruct (lookup_lt_is_Some_2 l k ltac:(lia)) as [c Hc].
    destruct (lookup_lt_is_Some_2 b k ltac:(lia)) as [d Hd].
    rewrite Hc. cbn [mbind option_bind]. rewrite Hd. cbn [mbind option_bind].
    rewrite store_Some by lia.
    rewrite IH by (rewrite ?length_insert; lia).
    f_equal.
    rewrite (take_S_r (<[k:=c - d]> l) k (c - d))
      by (apply list_lookup_insert_eq; lia).
    rewrite take_insert_ge by lia.
    rewrite !drop_insert_lt by lia.
    rewrite (drop_S l c k Hc), (drop_S b d k Hd).
    cbn [take zip_with]. rewrite <- app_assoc. cbn [app].
    replace (S k + m)%nat with (k + S m)%nat by lia. reflexivity.
Qed.

Lemma getBlindedCoefficients_eq (p bp : @Polynomial q) :
  getBlindedCoefficients p bp
  = Some (zip_with Zmod.sub (take (Size bp) (Coefficients p ++ Coefficients bp))
                            (Coefficients bp)
          ++ drop (Size bp) (Coefficients p ++ Coefficients bp)).
Proof.
  unfold getBlindedCoefficients.
  rewrite (blinding_loop (Coefficients bp) (length (Coefficients bp)) 0)
    by (rewrite ?length_app; lia).
  cbn [take app]. rewrite !drop_0. reflexivity.
Qed.

Lemma blinded_Evaluate (cp cb : list fr) (x : fr) :
  Evaluate (zip_with Zmod.sub (take (length cb) (cp ++ cb)) cb
            ++ drop (length cb) (cp ++ cb)) x
  = Evaluate cp x + Evaluate cb x * (Exp x (Z.of_nat (length cp)) - 1).
Proof.
  assert (Hlen : length (take (length cb) (cp ++ cb)) = length cb)
    by (rewrite length_take, length_app; lia).
  rewrite Evaluate_append, Evaluate_zip_sub by exact Hlen.
  rewrite length_zip_with, Hlen, Nat.min_id.
  transitivity (Evaluate (take (length cb) (cp ++ cb) ++ drop (length cb) (cp ++ cb)) x
                - Evaluate cb x).
  - rewrite Evaluate_append, Hlen. ring.
  - rewrite take_drop, Evaluate_append. ring.
Qed.

(** X1. [getBlindedCoefficients] always returns; what it returns are the
    coefficients of p + b (X^n - 1), with n the size of p, so that blinding is
    invisible at every n-th root of unity. *)
Theorem getBlindedCoefficients_blinds (p bp : @Polynomial q) :
  exists r : list fr,
    getBlindedCoefficients p bp = Some r /\
    length r = (Size p + Size bp)%nat /\
    (forall x : fr,
       Evaluate r x
       = Evaluate (Coefficients p) x
         + Evaluate (Coefficients bp) x * (Exp x (Z.of_nat (Size p)) - 1)) /\
    (forall x : fr, Exp x (Z.of_nat (Size p)) = 1 ->
       Evaluate r x = Evaluate (Coefficients p) x).
Proof.
  eexists. split; [apply getBlindedCoefficients_eq|].
  assert (HE : forall x : fr,
    Evaluate (zip_with Zmod.sub (take (Size bp) (Coefficients p ++ Coefficients bp))
                (Coefficients bp)
              ++ drop (Size bp) (Coefficients p ++ Coefficients bp)) x
    = Evaluate (Coefficients p) x
      + Evaluate (Coefficients bp) x * (Exp x (Z.of_nat (Size p)) - 1))
    by (intros x; apply blinded_Evaluate).
  split; [|split].
  - unfold Size. rewrite length_app, length_zip_with, length_take, length_drop, length_app. lia.
  - exact HE.
  - intros x Hx. rewrite HE, Hx. ring.
Qed.

(** X2. On canonical polynomials [evaluateBlinded] is the evaluation of the
    coefficients that [getBlindedCoefficients] returns. *)
Theorem evaluateBlinded_agrees (p bp : @Polynomial q) (zeta : fr) :
  basis p = Canonical -> basis bp = Canonical ->
  exists r : list fr,
    getBlindedCoefficients p bp = Some r /\
    evaluateBlinded p bp zeta = Some (Evaluate r zeta).
Proof.
  intros Hp Hb. eexists. split; [apply getBlindedCoefficients_eq|].
  unfold evaluateBlinded, Polynomial_Evaluate. rewrite Hp, Hb.
  cbn [mbind option_bind]. f_equal.
  unfold Size. rewrite blinded_Evaluate. reflexivity.
Qed.

End Blinding.

Lemma evaluateBlinded_agrees_witness :
  exists r : list (Zmod 97),
    getBlindedCoefficients toy_xZ (NewPolynomial [f97 3; f97 4] Canonical) = Some r /\
    evaluateBlinded toy_xZ (NewPolynomial [f97 3; f97 4] Canonical) (f97 7)
    = Some (Evaluate r (f97 7)).
Proof.
  apply (evaluateBlinded_agrees toy_xZ (NewPolynomial [f97 3; f97 4] Canonical) (f97 7));
    reflexivity.
Defined.

(** ** Commitments of blinded and entangled polynomials *)

Section Commitments.
Context {q : Z}.
#[local] Abbreviation fr := (Zmod q).
Add Ring fr_ring_commitments : (Zmod.ring_theory q).

#[local] Open Scope Zmod_scope.

(** Points are scalars in the embedding: equations between points are
    equations of the ring. *)
Ltac g1_gen :=
  repeat match goal with
         | |- context [@MultiExp ?qq ?K ?s] =>
             generalize (@MultiExp qq K s : Zmod qq); intro
         end.
Ltac g1_ring :=
  unfold G1_add, G1_sub, G1_zero; g1_gen;
  match goal with |- @eq _ ?a ?b => change (@eq (Zmod q) a b) end;
  ring.

Lemma MultiExp_cons (g : @G1Affine q) (K : list G1Affine) (c : fr) (s : list fr) :
  MultiExp (g :: K) (c :: s) = c * g + MultiExp K s.
Proof. reflexivity. Qed.

Lemma MultiExp_nil_r (K : list (@G1Affine q)) : MultiExp K [] = 0.
Proof. destruct K; reflexivity. Qed.

Lemma MultiExp_split (s1 : list fr) :
  forall (K : list (@G1Affine q)) (s2 : list fr),
  MultiExp K (s1 ++ s2)
  = MultiExp (take (length s1) K) s1 + MultiExp (drop (length s1) K) s2.
Proof.
  induction s1 as [|c s1 IH]; intros K s2.
  - cbn [app length]. rewrite take_0, drop_0. change (MultiExp [] []) with (0 : fr). g1_ring.
  - destruct K as [|g K].
    + cbn [app length]. rewrite take_nil, drop_nil.
      change (MultiExp [] ?s) with (0 : fr). g1_ring.
    + cbn [app length take drop]. rewrite !MultiExp_cons, IH. g1_ring.
Qed.

Lemma MultiExp_zip_sub :
  forall (K : list (@G1Affine q)) (s1 s2 : list fr), length s1 = length s2 ->
  MultiExp K (zip_with Zmod.sub s1 s2) = MultiExp K s1 - MultiExp K s2.
Proof.
  induction K as [|g K IH]; intros s1 s2 Hlen.
  - change (MultiExp [] ?s) with (0 : fr). g1_ring.
  - destruct s1 as [|c s1], s2 as [|d s2]; try discriminate.
    + cbn [zip_with]. rewrite MultiExp_nil_r. g1_ring.
    + cbn [zip_with]. rewrite !MultiExp_cons, IH by (cbn in Hlen; lia). g1_ring.
Qed.

Lemma MultiExp_zeros (k : nat) :
  forall (K : list (@G1Affine q)) (s : list fr),
  MultiExp K (replicate k 0 ++ s) = MultiExp (drop k K) s.
Proof.
  induction k as [|k IH]; intros K s.
  - rewrite drop_0. reflexivity.
  - destruct K as [|g K].
    + rewrite drop_nil. reflexivity.
    + cbn [replicate app drop]. rewrite MultiExp_cons, IH. g1_ring.
Qed.

Lemma kzg_Commit_Ok (p : list fr) (pk : list (@G1Affine q)) :
  (0 < length p <= length pk)%nat ->
  kzg_Commit p pk = Ok (MultiExp (take (length p) pk) p).
Proof.
  intros H. unfold kzg_Commit.
  destruct (Nat.eqb_spec (length p) 0); [lia|].
  destruct (Nat.ltb_spec (length pk) (length p)); [lia|]. reflexivity.
Qed.

Lemma commitBlindingFactor_Some (n : nat) (b : @Polynomial q) (key : list G1Affine) :
  (n + Size b <= length key)%nat ->
  commitBlindingFactor n b key
  = Some (MultiExp (take (Size b) (drop n key)) (Coefficients b)
          - MultiExp (take (Size b) key) (Coefficients b)).
Proof.
  intros H. unfold commitBlindingFactor.
  rewrite !slice_Some by lia. cbn [mbind option_bind].
  rewrite drop_0. replace (Size b - 0)%nat with (Size b) by lia.
  replace (n + Size b - n)%nat with (Size b) by lia. reflexivity.
Qed.

(** The commitment of the blinded coefficients splits into the commitment
    of the polynomial and the two multi-exponentiations of the blinding. *)
Lemma MultiExp_blinded (key : list (@G1Affine q)) (cp cb : list fr) :
  (length cp + length cb <= length key)%nat ->
  MultiExp (take (length cp + length cb) key)
    (zip_with Zmod.sub (take (length cb) (cp ++ cb)) cb
     ++ drop (length cb) (cp ++ cb))
  = MultiExp (take (length cp) key) cp
    + (MultiExp (take (length cb) (drop (length cp) key)) cb
       - MultiExp (take (length cb) key) cb).
Proof.
  intros Hkey.
  set (K := take (length cp + length cb) key).
  assert (Hlen : length (take (length cb) (cp ++ cb)) = length cb)
    by (rewrite length_take, length_app; lia).
  rewrite MultiExp_split, MultiExp_zip_sub by exact Hlen.
  rewrite length_zip_with, Hlen, Nat.min_id.
  transitivity (MultiExp K (take (length cb) (cp ++ cb) ++ drop (length cb) (cp ++ cb))
                - MultiExp (take (length cb) K) cb).
  - rewrite (MultiExp_split (take (length cb) (cp ++ cb))), Hlen. g1_ring.
  - rewrite take_drop, MultiExp_split.
    replace (take (length cp) K) with (take (length cp) key)
      by (unfold K; rewrite take_take; f_equal; lia).
    replace (drop (length cp) K) with (take (length cb) (drop (length cp) key))
      by (unfold K; rewrite take_drop_commute; reflexivity).
    replace (take (length cb) K) with (take (length cb) key)
      by (unfold K; rewrite take_take; f_equal; lia).
    g1_ring.
Qed.

(** X3. When the polynomial has the size of the small domain and the key
    is long enough, the digest of [commitToPolyAndBlinding] is the KZG commitment of the
    blinded coefficients p + b (X^n - 1). *)
Theorem commitToPolyAndBlinding_commits_blinded (domain0 : @Domain q)
    (key : list G1Affine) (p b : Polynomial) :
  let n := Z.to_nat (Cardinality domain0) in
  Size p = n -> (0 < n)%nat -> (n + Size b <= length key)%nat ->
  exists (r : list fr) (c : G1Affine),
    getBlindedCoefficients (ToCanonical domain0 p) b = Some r /\
    commitToPolyAndBlinding domain0 key p b = Some (c, None) /\
    kzg_Commit r key = Ok c.
Proof.
  intros n Hp Hn Hkey.
  pose proof (Size_ToCanonical domain0 p) as Hs. unfold Size in Hs, Hp, Hkey.
  set (cp := Coefficients (ToCanonical domain0 p)) in *.
  set (cb := Coefficients b) in *.
  assert (Hr : getBlindedCoefficients (ToCanonical domain0 p) b
               = Some (zip_with Zmod.sub (take (length cb) (cp ++ cb)) cb
                       ++ drop (length cb) (cp ++ cb))).
  { unfold getBlindedCoefficients. fold cp cb.
    pose proof (blinding_loop cb (length cb) 0 (cp ++ cb)) as HL.
    rewrite HL by (rewrite ?length_app; lia).
    cbn [take app]. rewrite !drop_0. reflexivity. }
  eexists _, _. split; [exact Hr|]. split.
  - unfold commitToPolyAndBlinding. fold cp. fold n.
    rewrite kzg_Commit_Ok by lia.
    rewrite commitBlindingFactor_Some by (unfold Size; fold cb; lia).
    cbn [mbind option_bind]. reflexivity.
  - rewrite kzg_Commit_Ok
      by (rewrite length_app, length_zip_with, length_take, length_drop, length_app; lia).
    f_equal.
    replace (length (zip_with Zmod.sub (take (length cb) (cp ++ cb)) cb
                     ++ drop (length cb) (cp ++ cb)))
      with (length cp + length cb)%nat
      by (rewrite length_app, length_zip_with, length_take, length_drop, length_app; lia).
    rewrite MultiExp_blinded by lia.
    unfold G1_add, G1_sub, Size. fold cb. rewrite Hs, Hp. reflexivity.
Qed.

Lemma Evaluate_replicate_zero (k : nat) (x : fr) :
  Evaluate (replicate k (0 : fr)) x = 0.
Proof.
  induction k as [|k IH]; [reflexivity|].
  cbn [replicate]. rewrite Evaluate_cons, IH. ring.
Qed.

Lemma Evaluate_spread (t : nat) (x : fr) (cp : list fr) :
  (0 < t)%nat ->
  Evaluate (concat ((fun c => c :: replicate (t - 1) (0 : fr)) <$> cp)) x
  = Evaluate cp (Exp x (Z.of_nat t)).
Proof.
  intros Ht. induction cp as [|c cp IH]; [reflexivity|].
  cbn [fmap list_fmap concat app]. rewrite !Evaluate_cons, Evaluate_append.
  rewrite Evaluate_replicate_zero, length_replicate.
  change (concat (list_fmap _ _ ?f cp)) with (concat (f <$> cp)).
  rewrite IH. unfold Exp.
  replace (Z.of_nat t) with (Z.succ (Z.of_nat (t - 1))) by lia.
  rewrite Zmod.pow_succ_nonneg_r by lia. ring.
Qed.

Lemma MultiExp_spread (t : nat) :
  (0 < t)%nat ->
  forall (cp : list fr) (sub K : list (@G1Affine q)),
  length sub = length cp ->
  (forall i, (i < length cp)%nat -> sub !! i = K !! (i * t)%nat) ->
  MultiExp sub cp
  = MultiExp K (concat ((fun c => c :: replicate (t - 1) (0 : fr)) <$> cp)).
Proof.
  intros Ht. induction cp as [|c cp IH]; intros sub K Hlen Hsub.
  - cbn. rewrite !MultiExp_nil_r. reflexivity.
  - destruct sub as [|g sub]; [discriminate|].
    pose proof (Hsub 0%nat ltac:(cbn; lia)) as H0. cbn in H0.
    destruct K as [|g' K]; [discriminate|]. cbn in H0. injection H0 as <-.
    cbn [fmap list_fmap concat app]. rewrite !MultiExp_cons, MultiExp_zeros.
    change (concat (list_fmap _ _ ?f cp)) with (concat (f <$> cp)).
    rewrite <- (IH sub (drop (t - 1) K)); [reflexivity|cbn in Hlen; lia|].
    intros i Hi. pose proof (Hsub (S i) ltac:(cbn; lia)) as HS.
    change ((g :: sub) !! S i) with (sub !! i) in HS. rewrite HS, lookup_drop.
    replace (S i * t)%nat with (S (t - 1 + i * t)) by lia. reflexivity.
Qed.

Lemma subKey_lookup (key : list (@G1Affine q)) (t id len : nat) :
  (len = 0 \/ (len - 1) * t + id < length key)%nat ->
  exists sub, subKey key t id len = Some sub /\ length sub = len /\
    forall i, (i < len)%nat -> sub !! i = key !! (i * t + id)%nat.
Proof.
  intros Hkey.
  assert (Hall : forall i, (i < len)%nat -> is_Some (key !! (i * t + id)%nat)).
  { intros i Hi. apply lookup_lt_is_Some_2. destruct Hkey as [->|Hk]; [lia|]. nia. }
  unfold subKey.
  destruct (mapM (fun i => key !! (i * t + id)%nat) (seq 0 len)) as [sub|] eqn:E.
  - apply mapM_Some in E. exists sub. split; [reflexivity|].
    pose proof (Forall2_length _ _ _ E) as HL. rewrite length_seq in HL.
    split; [lia|]. intros i Hi.
    destruct (lookup_lt_is_Some_2 sub i ltac:(lia)) as [g Hg].
    pose proof (Forall2_lookup_lr _ _ _ i i g E (lookup_seq_lt 0 len i Hi) Hg) as Hx.
    cbn in Hx. congruence.
  - exfalso. apply mapM_None in E. apply Exists_exists in E.
    destruct E as [i [Hin Hnone]]. apply elem_of_seq in Hin.
    destruct (Hall i ltac:(lia)) as [g Hg]. congruence.
Qed.

(** X4. In [commitToEntangledPolyAndBlinding], for a non-empty polynomial
    and a key that is long enough, the commitment under the sub-key of slot [id] is the commitment, under
    the whole key, of P(X^t) X^id; the blinding part is committed under
    the whole key and added to it. *)
Theorem commitToEntangled_commits_entangled (domain0 : @Domain q)
    (key : list G1Affine) (t : nat) (p b : Polynomial) (id : nat) :
  let n := Z.to_nat (Cardinality domain0) in
  let cp := Coefficients (ToCanonical domain0 p) in
  (0 < t)%nat -> (0 < Size p)%nat ->
  ((Size p - 1) * t + id < length key)%nat ->
  (n + Size b <= length key)%nat ->
  exists cb : G1Affine,
    commitBlindingFactor n b key = Some cb /\
    commitToEntangledPolyAndBlinding domain0 key t p b id
    = Some (G1_add (MultiExp key (entangle t id cp)) cb, None) /\
    forall x : fr,
      Evaluate (entangle t id cp) x
      = Exp x (Z.of_nat id) * Evaluate cp (Exp x (Z.of_nat t)).
Proof.
  intros n cp Ht Hp Hkey Hb.
  pose proof (Size_ToCanonical domain0 p) as Hs. unfold Size in Hs, Hp, Hkey.
  fold cp in Hs.
  eexists. split; [apply commitBlindingFactor_Some; exact Hb|]. split.
  - unfold commitToEntangledPolyAndBlinding. fold cp. fold n.
    destruct (subKey_lookup key t id (length cp)) as [sub [Hsub [Hlen Hlook]]];
      [right; rewrite Hs; exact Hkey|].
    rewrite Hsub. cbn [mbind option_bind].
    rewrite kzg_Commit_Ok by lia.
    rewrite commitBlindingFactor_Some by exact Hb.
    cbn [mbind option_bind]. do 3 f_equal.
    rewrite <- Hlen, firstn_all. unfold entangle. rewrite MultiExp_zeros.
    apply MultiExp_spread; [exact Ht|exact Hlen|].
    intros i Hi. rewrite Hlook by exact Hi. rewrite lookup_drop. f_equal. lia.
  - intros x. unfold entangle.
    rewrite Evaluate_append, Evaluate_replicate_zero, length_replicate.
    rewrite Evaluate_spread by exact Ht. ring.
Qed.

End Commitments.

Lemma commitToPolyAndBlinding_commits_blinded_witness :
  exists (r : list (Zmod 97)) (c : G1Affine),
    getBlindedCoefficients (ToCanonical toy_domain0 toy_xL)
      (NewPolynomial [f97 3; f97 4] Canonical) = Some r /\
    commitToPolyAndBlinding toy_domain0 (toy_srs 30) toy_xL
      (NewPolynomial [f97 3; f97 4] Canonical) = Some (c, None) /\
    kzg_Commit r (toy_srs 30) = Ok c.
Proof.
  apply (commitToPolyAndBlinding_commits_blinded toy_domain0 (toy_srs 30) toy_xL
           (NewPolynomial [f97 3; f97 4] Canonical)).
  - reflexivity.
  - vm_compute. lia.
  - vm_compute. lia.
Defined.

Lemma commitToEntangled_commits_entangled_witness :
  let b := NewPolynomial [f97 3; f97 4] Canonical in
  let cp := Coefficients (ToCanonical toy_domain0 toy_xL) in
  exists cb : G1Affine,
    commitBlindingFactor 2 b (toy_srs 30) = Some cb /\
    commitToEntangledPolyAndBlinding toy_domain0 (toy_srs 30) 15 toy_xL b prover_l
    = Some (G1_add (MultiExp (toy_srs 30) (entangle 15 prover_l cp)) cb, None) /\
    forall x : Zmod 97,
      Evaluate (entangle 15 prover_l cp) x
      = Zmod.mul (Exp x (Z.of_nat prover_l)) (Evaluate cp (Exp x (Z.of_nat 15))).
Proof.
  apply (commitToEntangled_commits_entangled toy_domain0 (toy_srs 30) 15 toy_xL
           (NewPolynomial [f97 3; f97 4] Canonical) prover_l).
  - lia.
  - vm_compute. lia.
  - vm_compute. lia.
  - vm_compute. lia.
Defined.

(** ** Tasks, scaling and the values of X^n - 1 *)

Lemma wrap_int_small (x : Z) : (- 2 ^ 63 <= x < 2 ^ 63)%Z -> wrap_int x = x.
Proof. intros H. unfold wrap_int. rewrite Z.mod_small by lia. lia. Qed.

(** X5. [calculateNbTasks] panics on [n = 0] (a division by zero); for a
    positive [n] it returns the number of CPUs divided by [n], and one
    when that quotient is zero. *)
Theorem calculateNbTasks_spec (numCPU n : Z) :
  (1 <= numCPU < 2 ^ 62)%Z -> (0 <= n < 2 ^ 62)%Z ->
  calculateNbTasks numCPU n
  = if (n =? 0)%Z then None else Some (Z.max 1 (numCPU / n)).
Proof.
  intros Hc Hn. unfold calculateNbTasks.
  destruct (Z.eqb_spec n 0) as [->|Hn0]; [reflexivity|]. f_equal.
  rewrite (wrap_int_small (numCPU - n)) by lia.
  destruct (Z.ltb_spec (numCPU - n) 0) as [Hlt|Hge].
  - assert (Hq : Z.quot 1 n = 0%Z) by (apply Z.quot_small; lia).
    rewrite Hq. rewrite (wrap_int_small 0) by lia. rewrite wrap_int_small by lia.
    rewrite (Z.div_small numCPU n) by lia. reflexivity.
  - rewrite Z.quot_div_nonneg by lia.
    assert (Hd : ((numCPU - n) / n = numCPU / n - 1)%Z).
    { replace (numCPU - n)%Z with (numCPU + (-1) * n)%Z by lia.
      rewrite Z.div_add by lia. lia. }
    assert (1 <= numCPU / n)%Z by (apply Z.div_le_lower_bound; lia).
    assert (numCPU / n <= numCPU)%Z by (apply Z.div_le_upper_bound; nia).
    rewrite Hd. rewrite (wrap_int_small (numCPU / n - 1)) by lia.
    rewrite wrap_int_small by lia. lia.
Qed.

Lemma calculateNbTasks_spec_witness :
  calculateNbTasks 8 3 = (if (3 =? 0)%Z then None else Some (Z.max 1 (8 / 3)))
  /\ calculateNbTasks 8 0 = (if (0 =? 0)%Z then None else Some (Z.max 1 (8 / 0))).
Proof.
  split.
  - apply (calculateNbTasks_spec 8 3); lia.
  - apply (calculateNbTasks_spec 8 0); lia.
Defined.

Section XnMinusOne.
Context {q : Z}.
#[local] Abbreviation fr := (Zmod q).
Add Ring fr_ring_xn : (Zmod.ring_theory q).

#[local] Open Scope Zmod_scope.

Lemma Evaluate_scale_by_powers (w x : fr) (cq : list fr) :
  forall acc : fr,
  Evaluate (scale_by_powers acc w cq) x = acc * Evaluate cq (w * x).
Proof.
  induction cq as [|c cq IH]; intros acc.
  - cbn [scale_by_powers]. change (Evaluate [] ?y) with (0 : fr). ring.
  - cbn [scale_by_powers]. rewrite !Evaluate_cons, IH. ring.
Qed.

(** X6. [scalePowers p w] substitutes wX for X: the scaled coefficients,
    evaluated at x, give the value of p at w*x. *)
Theorem scalePowers_substitutes (p : @Polynomial q) (w x : fr) :
  Evaluate (Coefficients (scalePowers p w)) x = Evaluate (Coefficients p) (w * x)
  /\ Size (scalePowers p w) = Size p /\ basis (scalePowers p w) = basis p.
Proof.
  split; [|split].
  - unfold scalePowers. cbn [Coefficients]. rewrite Evaluate_scale_by_powers. ring.
  - unfold scalePowers, Size. cbn [Coefficients].
    generalize (1 : fr). induction (Coefficients p) as [|c l IH]; intros a;
      cbn [scale_by_powers length]; [reflexivity|]. rewrite IH. reflexivity.
  - reflexivity.
Qed.

(** The loop of [evaluateXnMinusOneDomainBigCoset] after [k] passes. *)
Lemma xn_loop (first t : fr) (rho : nat) :
  forall k : nat, (k < rho)%nat ->
  exists res : list fr,
    for_each (fun res i =>
                prev ← res !! (i - 1)%nat;
                res ← store res i (Zmod.mul prev t);
                prev ← res !! (i - 1)%nat;
                store res (i - 1)%nat (Zmod.sub prev (Zmod.one : fr)))
             (seq 1 k) (<[0%nat := first]> (replicate rho (0 : fr)))
    = Some res /\
    length res = rho /\
    forall j : nat, (j < rho)%nat ->
      res !! j = Some (if decide (j < k)%nat then first * Exp t (Z.of_nat j) - 1
                       else if decide (j = k) then first * Exp t (Z.of_nat k)
                       else 0).
Proof.
  induction k as [|k IH]; intros Hk.
  - eexists. split; [reflexivity|]. split; [rewrite length_insert, length_replicate; lia|].
    intros j Hj. destruct (decide (j < 0)%nat); [lia|].
    destruct (decide (j = 0%nat)) as [->|Hj0].
    + rewrite list_lookup_insert_eq by (rewrite length_replicate; lia).
      f_equal. unfold Exp. rewrite Zmod.pow_0_r. ring.
    + rewrite list_lookup_insert_ne by lia. apply lookup_replicate_2. lia.
  - destruct (IH ltac:(lia)) as [res [Hres [Hlen Hlook]]].
    rewrite seq_S, for_each_app, Hres. cbn [for_each].
    replace (1 + k - 1)%nat with k by lia.
    pose proof (Hlook k ltac:(lia)) as Hk0.
    destruct (decide (k < k)%nat); [lia|]. destruct (decide (k = k)); [|lia].
    rewrite Hk0. cbn [mbind option_bind].
    rewrite store_Some by lia. cbn [mbind option_bind].
    rewrite list_lookup_insert_ne by lia. rewrite Hk0. cbn [mbind option_bind].
    rewrite store_Some by (rewrite length_insert; lia).
    eexists. split; [reflexivity|]. split; [rewrite !length_insert; exact Hlen|].
    intros j Hj.
    destruct (decide (j = k)) as [->|Hjk].
    + rewrite list_lookup_insert_eq by (rewrite length_insert; lia).
      destruct (decide (k < S k)%nat); [reflexivity|lia].
    + rewrite list_lookup_insert_ne by lia.
      destruct (decide (j = S k)) as [->|HjS].
      * rewrite list_lookup_insert_eq by lia.
        destruct (decide (S k < S k)%nat); [lia|]. destruct (decide (S k = S k)); [|lia].
        f_equal. unfold Exp. rewrite Nat2Z.inj_succ, Zmod.pow_succ_nonneg_r by lia. ring.
      * rewrite list_lookup_insert_ne by lia. rewrite Hlook by lia.
        destruct (decide (j < k)%nat), (decide (j < S k)%nat); try lia; [reflexivity|].
        destruct (decide (j = k)); [lia|]. destruct (decide (j = S k)); [lia|]. reflexivity.
Qed.

(** X7. [evaluateXnMinusOneDomainBigCoset] panics when the large domain is
    smaller than the small one (rho = 0); otherwise its loop returns rho
    values, the one of index i being the inverse of X^n - 1 at the shift
    g w^i of the i-th coset. *)
Theorem evaluateXnMinusOne_loop_spec (domain0 domain1 : @Domain q) :
  let rho := Z.to_nat (Cardinality domain1 / Cardinality domain0) in
  let n := Cardinality domain0 in
  let g := FrMultiplicativeGen domain1 in
  let w := Generator domain1 in
  (0 <= n)%Z ->
  evaluateXnMinusOne_loop domain0 domain1
  = (if decide (rho = 0%nat) then None
     else Some (evaluateXnMinusOneDomainBigCoset domain0 domain1)) /\
  length (evaluateXnMinusOneDomainBigCoset domain0 domain1) = rho /\
  forall i : nat, (i < rho)%nat ->
    evaluateXnMinusOneDomainBigCoset domain0 domain1 !! i
    = Some (Zmod.inv (Exp (g * Exp w (Z.of_nat i)) n - 1)).
Proof.
  intros rho n g w Hn.
  assert (Hclosed : forall i : nat, (i < rho)%nat ->
    evaluateXnMinusOneDomainBigCoset domain0 domain1 !! i
    = Some (Zmod.inv (Exp g n * Exp (Exp w n) (Z.of_nat i) - 1))).
  { intros i Hi. unfold evaluateXnMinusOneDomainBigCoset. fold rho.
    rewrite list_lookup_fmap, lookup_seq_lt by exact Hi. reflexivity. }
  split; [|split].
  - unfold evaluateXnMinusOne_loop. fold rho n g w.
    destruct (decide (rho = 0%nat)) as [Hr|Hr].
    + rewrite Hr. reflexivity.
    + rewrite store_Some by (rewrite length_replicate; lia).
      cbn [mbind option_bind].
      destruct (xn_loop (Exp g n) (Exp w n) rho (rho - 1) ltac:(lia))
        as [res [Hres [Hlen Hlook]]].
      rewrite Hres. cbn [mbind option_bind]. rewrite Hlen.
      pose proof (Hlook (rho - 1)%nat ltac:(lia)) as Hlast.
      destruct (decide (rho - 1 < rho - 1)%nat); [lia|].
      destruct (decide (rho - 1 = rho - 1)%nat); [|lia].
      rewrite Hlast. cbn [mbind option_bind].
      rewrite store_Some by lia. cbn [mbind option_bind]. f_equal.
      apply list_eq. intros j.
      destruct (decide (j < rho)%nat) as [Hj|Hj].
      * rewrite Hclosed by exact Hj. rewrite list_lookup_fmap.
        destruct (decide (j = rho - 1)%nat) as [->|Hjl].
        -- rewrite list_lookup_insert_eq by lia. reflexivity.
        -- rewrite list_lookup_insert_ne by lia. rewrite Hlook by lia.
           destruct (decide (j < rho - 1)%nat); [reflexivity|lia].
      * rewrite !lookup_ge_None_2; [reflexivity| |].
        -- unfold evaluateXnMinusOneDomainBigCoset. fold rho.
           rewrite length_fmap, length_seq. lia.
        -- rewrite length_fmap, length_insert. lia.
  - unfold evaluateXnMinusOneDomainBigCoset. fold rho.
    rewrite length_fmap, length_seq. reflexivity.
  - intros i Hi. rewrite Hclosed by exact Hi. do 3 f_equal.
    unfold Exp. rewrite Zmod.pow_mul_l_nonneg by exact Hn. f_equal.
    rewrite <- !Zmod.pow_mul_r_nonneg by lia. f_equal. lia.
Qed.

End XnMinusOne.

Lemma evaluateXnMinusOne_loop_spec_witness :
  evaluateXnMinusOne_loop toy_domain0 toy_domain1
  = (if decide (Z.to_nat (Cardinality toy_domain1 / Cardinality toy_domain0) = 0)
     then None
     else Some (evaluateXnMinusOneDomainBigCoset toy_domain0 toy_domain1)) /\
  length (evaluateXnMinusOneDomainBigCoset toy_domain0 toy_domain1)
  = Z.to_nat (Cardinality toy_domain1 / Cardinality toy_domain0) /\
  forall i : nat, i < Z.to_nat (Cardinality toy_domain1 / Cardinality toy_domain0) ->
    evaluateXnMinusOneDomainBigCoset toy_domain0 toy_domain1 !! i
    = Some (Zmod.inv
              (Zmod.sub
                 (Exp (Zmod.mul (FrMultiplicativeGen toy_domain1)
                                (Exp (Generator toy_domain1) (Z.of_nat i)))
                      (Cardinality toy_domain0))
                 Zmod.one)).
Proof.
  apply (evaluateXnMinusOne_loop_spec toy_domain0 toy_domain1). vm_compute. discriminate.
Defined.

(** X8. [getRandomPolynomial] with an order [n >= 0] draws [n + 1] fresh
    random coefficients, in order, for a canonical polynomial of degree at
    most [n]; with an order below -1 it panics on the allocation. *)
Theorem getRandomPolynomial_draws {q : Z} (n : Z) (rand : nat -> Zmod q) (k : nat) :
  n <> (-1)%Z ->
  getRandomPolynomial n rand k
  = if (n <? -1)%Z then None
    else Some (NewPolynomial (rand <$> seq k (Z.to_nat (n + 1))) Canonical,
               k + Z.to_nat (n + 1)).
Proof.
  intros Hn. destruct (Z.ltb_spec n (-1)) as [Hlt|Hge].
  - unfold getRandomPolynomial.
    destruct (Z.eqb_spec n (-1)); [lia|].
    destruct (Z.ltb_spec (n + 1) 0); [reflexivity|lia].
  - replace n with (Z.of_nat (Z.to_nat n)) at 1 by lia.
    rewrite getRandomPolynomial_order.
    replace (Z.to_nat (n + 1)) with (S (Z.to_nat n)) by lia. reflexivity.
Qed.

Lemma getRandomPolynomial_draws_witness :
  getRandomPolynomial 2 (fun i => f97 (Z.of_nat i)) 4
  = (if (2 <? -1)%Z then None
     else Some (NewPolynomial ((fun i => f97 (Z.of_nat i)) <$> seq 4 (Z.to_nat (2 + 1)))
                              Canonical,
                4 + Z.to_nat (2 + 1))).
Proof.
  apply (getRandomPolynomial_draws 2 (fun i => f97 (Z.of_nat i)) 4). lia.
Defined.
(** ** completeQk *)

Section CompleteQk.
Context {q : Z}.
#[local] Abbreviation fr := (Zmod q).

Lemma length_copy {A : Type} (dst src : list A) : length (copy dst src) = length dst.
Proof. unfold copy. rewrite length_app, length_take, length_drop. lia. Qed.

Lemma lookup_copy {A : Type} (dst src : list A) (i : nat) :
  i < length dst ->
  copy dst src !! i = if decide (i < length src) then src !! i else dst !! i.
Proof.
  intros Hi. unfold copy. destruct (decide (i < length src)) as [Hs|Hs].
  - rewrite lookup_app_l by (rewrite length_take; lia).
    apply lookup_take_lt. lia.
  - rewrite lookup_app_r by (rewrite length_take; lia).
    rewrite length_take, lookup_drop. f_equal. lia.
Qed.

(** The loop of [completeQk] over the custom gates from index [k] on. *)
Lemma completeQk_loop (nbPublic : nat) (commitmentVal : list fr) :
  forall (infos : list PlonkCommitment) (k : nat) (qk : list fr),
  k + length infos <= length commitmentVal ->
  Forall (fun info => nbPublic + CommitmentIndex info < length qk) infos ->
  exists qk' : list fr,
    for_each (fun qk '(i, info) =>
                v ← commitmentVal !! i;
                store qk (nbPublic + CommitmentIndex info) v)
             (imap (fun i info => (k + i, info)) infos) qk = Some qk' /\
    length qk' = length qk /\
    (forall i, Forall (fun info => i <> nbPublic + CommitmentIndex info) infos ->
       qk' !! i = qk !! i) /\
    (forall j info, infos !! j = Some info ->
       (forall j' info', j < j' -> infos !! j' = Some info' ->
          CommitmentIndex info' <> CommitmentIndex info) ->
       qk' !! (nbPublic + CommitmentIndex info) = commitmentVal !! (k + j)).
Proof.
  induction infos as [|info0 infos IH]; intros k qk Hcv Hin.
  - exists qk. split; [reflexivity|]. split; [reflexivity|]. split; [reflexivity|].
    intros j info Hj. rewrite lookup_nil in Hj. discriminate.
  - cbn [imap for_each]. cbn [length] in Hcv.
    apply Forall_cons in Hin. destruct Hin as [Hin0 Hin].
    destruct (lookup_lt_is_Some_2 commitmentVal (k + 0) ltac:(lia)) as [v Hv].
    rewrite Hv. cbn [mbind option_bind]. rewrite store_Some by exact Hin0.
    rewrite (imap_ext _ (fun i info => (S k + i, info)))
      by (intros i x _; unfold compose; f_equal; lia).
    destruct (IH (S k) (<[nbPublic + CommitmentIndex info0 := v]> qk))
      as [qk' [Hqk' [Hlen [Hother Hrow]]]].
    { lia. }
    { rewrite length_insert. exact Hin. }
    exists qk'. split; [exact Hqk'|]. split; [rewrite Hlen, length_insert; reflexivity|].
    split.
    + intros i Hi. apply Forall_cons in Hi. destruct Hi as [Hi0 Hi].
      rewrite Hother by exact Hi. apply list_lookup_insert_ne. lia.
    + intros [|j] info Hj Hlater.
      * cbn in Hj. injection Hj as <-.
        rewrite Hother.
        -- rewrite list_lookup_insert_eq by exact Hin0. symmetry. exact Hv.
        -- apply Forall_forall. intros info' Hel E.
           apply list_elem_of_lookup in Hel. destruct Hel as [j' Hj'].
           apply (Hlater (S j') info'); [lia|exact Hj'|lia].
      * cbn in Hj. rewrite (Hrow j info Hj).
        -- f_equal. lia.
        -- intros j' info' Hlt Hj'. apply (Hlater (S j') info'); [lia|exact Hj'].
Qed.

(** X9. [completeQk] works on a clone of [trace.Qk]: the result has the
    size and the basis of [trace.Qk], its first rows hold the public part
    of the witness, the row of every custom-gate commitment holds the
    value of that commitment, and every other row is the one of
    [trace.Qk]. *)
Theorem completeQk_fills (trace_Qk : @Polynomial q) (wWitness : list fr)
    (spr : SparseR1CS) (commitmentVal : list fr) :
  Public spr <= length wWitness ->
  length (CommitmentInfo spr) <= length commitmentVal ->
  Forall (fun info => Public spr + CommitmentIndex info < Size trace_Qk)
         (CommitmentInfo spr) ->
  exists qk : Polynomial,
    completeQk trace_Qk wWitness spr commitmentVal = Some qk /\
    basis qk = basis trace_Qk /\ Size qk = Size trace_Qk /\
    (forall i, i < Public spr -> i < Size trace_Qk ->
       Coefficients qk !! i = wWitness !! i) /\
    (forall j info, CommitmentInfo spr !! j = Some info ->
       (forall j' info', j < j' -> CommitmentInfo spr !! j' = Some info' ->
          CommitmentIndex info' <> CommitmentIndex info) ->
       Coefficients qk !! (Public spr + CommitmentIndex info) = commitmentVal !! j) /\
    (forall i, Public spr <= i ->
       Forall (fun info => i <> Public spr + CommitmentIndex info) (CommitmentInfo spr) ->
       Coefficients qk !! i = Coefficients trace_Qk !! i).
Proof.
  intros Hw Hcv Hin. unfold completeQk.
  rewrite slice_Some by lia. cbn [mbind option_bind].
  rewrite drop_0, Nat.sub_0_r.
  set (pub := take (Public spr) wWitness).
  assert (Hpub : length pub = Public spr) by (unfold pub; rewrite length_take; lia).
  destruct (completeQk_loop (Public spr) commitmentVal (CommitmentInfo spr) 0
              (copy (Coefficients trace_Qk) pub))
    as [qk' [Hqk' [Hlen [Hother Hrow]]]].
  { lia. }
  { rewrite length_copy. exact Hin. }
  change (imap pair (CommitmentInfo spr))
    with (imap (fun i info => (0 + i, info)) (CommitmentInfo spr)).
  rewrite Hqk'. cbn [mbind option_bind].
  eexists. split; [reflexivity|]. cbn [basis Coefficients]. unfold Size. cbn [Coefficients].
  rewrite length_copy in Hlen.
  split; [reflexivity|]. split; [exact Hlen|]. split; [|split].
  - intros i Hi Hs. rewrite Hother.
    + rewrite lookup_copy by exact Hs. rewrite Hpub.
      destruct (decide (i < Public spr)); [|lia].
      unfold pub. apply lookup_take_lt. exact Hi.
    + apply Forall_forall. intros info _. lia.
  - intros j info Hj Hlater. apply (Hrow j info Hj Hlater).
  - intros i Hi Hno. rewrite Hother by exact Hno.
    destruct (decide (i < length (Coefficients trace_Qk))) as [Hs|Hs].
    + rewrite lookup_copy by exact Hs. rewrite Hpub.
      destruct (decide (i < Public spr)); [lia|reflexivity].
    + rewrite !lookup_ge_None_2; [reflexivity|lia|rewrite length_copy; lia].
Qed.

End CompleteQk.

Lemma completeQk_fills_witness :
  let trace_Qk := NewPolynomial [f97 0; f97 9; f97 10; f97 11] Lagrange in
  let spr := mkSparseR1CS 1 3 0
               [mkSparseR1C 0 1 2 0 0 1 2 0; mkSparseR1C 2 1 0 0 0 1 2 0]
               [mkPlonkCommitment [0] 1] in
  let wWitness := [f97 4; f97 2; f97 8; f97 16] in
  let commitmentVal := [f97 77] in
  exists qk : Polynomial,
    completeQk trace_Qk wWitness spr commitmentVal = Some qk /\
    basis qk = basis trace_Qk /\ Size qk = Size trace_Qk /\
    (forall i, i < Public spr -> i < Size trace_Qk ->
       Coefficients qk !! i = wWitness !! i) /\
    (forall j info, CommitmentInfo spr !! j = Some info ->
       (forall j' info', j < j' -> CommitmentInfo spr !! j' = Some info' ->
          CommitmentIndex info' <> CommitmentIndex info) ->
       Coefficients qk !! (Public spr + CommitmentIndex info) = commitmentVal !! j) /\
    (forall i, Public spr <= i ->
       Forall (fun info => i <> Public spr + CommitmentIndex info) (CommitmentInfo spr) ->
       Coefficients qk !! i = Coefficients trace_Qk !! i).
Proof.
  apply (completeQk_fills (NewPolynomial [f97 0; f97 9; f97 10; f97 11] Lagrange)
           [f97 4; f97 2; f97 8; f97 16]
           (mkSparseR1CS 1 3 0
              [mkSparseR1C 0 1 2 0 0 1 2 0; mkSparseR1C 2 1 0 0 0 1 2 0]
              [mkPlonkCommitment [0] 1])
           [f97 77]).
  - simpl. lia.
  - simpl. lia.
  - repeat constructor.
Defined.

(** ** The support of the permutation and the permutation polynomials *)

Section Support.
Context {q : Z}.
#[local] Abbreviation fr := (Zmod q).
Add Ring fr_ring_support : (Zmod.ring_theory q).

#[local] Open Scope Zmod_scope.

Ltac insert_lookups :=
  repeat first
    [ rewrite list_lookup_insert_eq by (rewrite ?length_insert; lia)
    | rewrite list_lookup_insert_ne by lia ].

(** The loop of [getSupportPermutation] after [k] passes. *)
Lemma support_loop (u g : fr) (n : nat) :
  forall k : nat, (k < n)%nat ->
  exists res : list fr,
    for_each (fun res i =>
                a ← res !! (i - 1)%nat;
                res ← store res i (Zmod.mul a g);
                b ← res !! (n + i - 1)%nat;
                res ← store res (n + i)%nat (Zmod.mul b g);
                c ← res !! (2 * n + i - 1)%nat;
                store res (2 * n + i)%nat (Zmod.mul c g))
             (seq 1 k)
             (<[(2 * n)%nat := u * u]>
                (<[n := u]> (<[0%nat := 1]> (replicate (3 * n) (0 : fr)))))
    = Some res /\
    length res = (3 * n)%nat /\
    forall i : nat, (i < n)%nat ->
      res !! i = Some (if decide (i <= k)%nat then Exp g (Z.of_nat i) else 0) /\
      res !! (n + i)%nat
      = Some (if decide (i <= k)%nat then u * Exp g (Z.of_nat i) else 0) /\
      res !! (2 * n + i)%nat
      = Some (if decide (i <= k)%nat then u * u * Exp g (Z.of_nat i) else 0).
Proof.
  induction k as [|k IH]; intros Hk.
  - eexists. split; [reflexivity|].
    split; [rewrite !length_insert, length_replicate; reflexivity|].
    intros i Hi. destruct (decide (i <= 0)%nat) as [Hi0|Hi0].
    + assert (i = 0%nat) as -> by lia. rewrite !Nat.add_0_r.
      unfold Exp. rewrite Zmod.pow_0_r.
      repeat split.
      * rewrite !list_lookup_insert_ne by lia.
        rewrite list_lookup_insert_eq by (rewrite length_replicate; lia). reflexivity.
      * rewrite list_lookup_insert_ne by lia.
        rewrite list_lookup_insert_eq
          by (rewrite length_insert, length_replicate; lia). f_equal. ring.
      * rewrite list_lookup_insert_eq
          by (rewrite !length_insert, length_replicate; lia). f_equal. ring.
    + repeat split; rewrite !list_lookup_insert_ne by lia;
        apply lookup_replicate_2; lia.
  - destruct (IH ltac:(lia)) as [res [Hres [Hlen Hlook]]].
    rewrite seq_S, for_each_app, Hres. cbn [for_each].
    replace (1 + k - 1)%nat with k by lia.
    replace (n + (1 + k) - 1)%nat with (n + k)%nat by lia.
    replace (2 * n + (1 + k) - 1)%nat with (2 * n + k)%nat by lia.
    destruct (Hlook k ltac:(lia)) as [Ha [Hb Hc]].
    destruct (decide (k <= k)%nat); [|lia].
    rewrite Ha. cbn [mbind option_bind].
    rewrite store_Some by lia. cbn [mbind option_bind].
    rewrite list_lookup_insert_ne by lia. rewrite Hb. cbn [mbind option_bind].
    rewrite store_Some by (rewrite length_insert; lia). cbn [mbind option_bind].
    rewrite !list_lookup_insert_ne by lia. rewrite Hc. cbn [mbind option_bind].
    rewrite store_Some by (rewrite !length_insert; lia).
    eexists. split; [reflexivity|]. split; [rewrite !length_insert; exact Hlen|].
    intros i Hi. destruct (Hlook i Hi) as [Hai [Hbi Hci]].
    assert (HS : Exp g (Z.of_nat (1 + k)) = Exp g (Z.of_nat k) * g).
    { unfold Exp. replace (Z.of_nat (1 + k)) with (Z.succ (Z.of_nat k)) by lia.
      rewrite Zmod.pow_succ_nonneg_r by lia. ring. }
    destruct (decide (i = 1 + k)%nat) as [->|Hne].
    + destruct (decide (1 + k <= S k)%nat); [|lia]. rewrite HS.
      repeat split; insert_lookups; f_equal; ring.
    + repeat split; insert_lookups; rewrite ?Hai, ?Hbi, ?Hci;
        destruct (decide (i <= k)%nat), (decide (i <= S k)%nat); try lia; reflexivity.
Qed.

Lemma getSupportPermutation_Some (domain : @Domain q) :
  let n := Z.to_nat (Cardinality domain) in
  let u := FrMultiplicativeGen domain in
  let g := Generator domain in
  n <> 0%nat ->
  getSupportPermutation domain
  = Some (((fun i => Exp g (Z.of_nat i)) <$> seq 0 n)
          ++ ((fun i => u * Exp g (Z.of_nat i)) <$> seq 0 n)
          ++ ((fun i => u * u * Exp g (Z.of_nat i)) <$> seq 0 n)).
Proof.
  intros n u g Hn. unfold getSupportPermutation. fold n u g.
  rewrite store_Some by (rewrite length_replicate; lia). cbn [mbind option_bind].
  rewrite store_Some by (rewrite length_insert, length_replicate; lia).
  cbn [mbind option_bind].
  rewrite store_Some by (rewrite !length_insert, length_replicate; lia).
  cbn [mbind option_bind].
  destruct (support_loop u g n (n - 1) ltac:(lia)) as [res [Hres [Hlen Hlook]]].
  rewrite Hres. f_equal.
  apply list_eq. intros j.
  destruct (decide (j < n)%nat) as [H1|H1].
  { destruct (Hlook j H1) as [Ha _]. rewrite Ha.
    destruct (decide (j <= n - 1)%nat); [|lia].
    rewrite lookup_app_l by (rewrite length_fmap, length_seq; lia).
    rewrite list_lookup_fmap, lookup_seq_lt by lia. reflexivity. }
  rewrite lookup_app_r by (rewrite length_fmap, length_seq; lia).
  rewrite length_fmap, length_seq.
  destruct (decide (j < 2 * n)%nat) as [H2|H2].
  { destruct (Hlook (j - n)%nat ltac:(lia)) as [_ [Hb _]].
    replace (n + (j - n))%nat with j in Hb by lia. rewrite Hb.
    destruct (decide (j - n <= n - 1)%nat); [|lia].
    rewrite lookup_app_l by (rewrite length_fmap, length_seq; lia).
    rewrite list_lookup_fmap, lookup_seq_lt by lia. reflexivity. }
  rewrite lookup_app_r by (rewrite length_fmap, length_seq; lia).
  rewrite length_fmap, length_seq.
  destruct (decide (j < 3 * n)%nat) as [H3|H3].
  { destruct (Hlook (j - 2 * n)%nat ltac:(lia)) as [_ [_ Hc]].
    replace (2 * n + (j - 2 * n))%nat with j in Hc by lia. rewrite Hc.
    destruct (decide (j - 2 * n <= n - 1)%nat); [|lia].
    rewrite list_lookup_fmap, lookup_seq_lt by lia.
    replace (j - n - n)%nat with (j - 2 * n)%nat by lia. reflexivity. }
  rewrite !lookup_ge_None_2; [reflexivity| |lia].
  rewrite length_fmap, length_seq. lia.
Qed.

Lemma getSupportPermutation_length (domain : @Domain q) (support : list fr) :
  getSupportPermutation domain = Some support ->
  Z.to_nat (Cardinality domain) <> 0%nat /\
  length support = (3 * Z.to_nat (Cardinality domain))%nat.
Proof.
  intros H. destruct (decide (Z.to_nat (Cardinality domain) = 0%nat)) as [Hn|Hn].
  - unfold getSupportPermutation in H. rewrite Hn in H. discriminate.
  - split; [exact Hn|]. rewrite (getSupportPermutation_Some domain Hn) in H.
    injection H as <-. rewrite !length_app, !length_fmap, !length_seq. lia.
Qed.

(** X10. [getSupportPermutation] panics on a domain without points; on a
    domain of n >= 1 points it returns the 3n values g^i, u g^i and
    u^2 g^i (i < n), in this order: <g> ‖ u<g> ‖ u²<g>. *)
Theorem getSupportPermutation_spec (domain : @Domain q) :
  let n := Z.to_nat (Cardinality domain) in
  let u := FrMultiplicativeGen domain in
  let g := Generator domain in
  getSupportPermutation domain
  = if decide (n = 0%nat) then None
    else Some (((fun i => Exp g (Z.of_nat i)) <$> seq 0 n)
               ++ ((fun i => u * Exp g (Z.of_nat i)) <$> seq 0 n)
               ++ ((fun i => u * u * Exp g (Z.of_nat i)) <$> seq 0 n)).
Proof.
  intros n u g. destruct (decide (n = 0%nat)) as [Hn|Hn].
  - unfold getSupportPermutation. fold n. rewrite Hn. reflexivity.
  - apply getSupportPermutation_Some. exact Hn.
Qed.

Lemma mapM_fmap_total {A B : Type} (f : A -> option B) (h : A -> B) (l : list A) :
  (forall x, x ∈ l -> f x = Some (h x)) -> mapM f l = Some (h <$> l).
Proof.
  induction l as [|x l IH]; intros H; [reflexivity|].
  cbn [mapM fmap list_fmap]. rewrite (H x) by left. cbn [mbind option_bind].
  rewrite IH by (intros y Hy; apply H; right; exact Hy). reflexivity.
Qed.

(** What [computePermutationPolynomials] computes, for a permutation whose
    entries are positions of the support. *)
Lemma computePermutationPolynomials_Some (S : list Z) (domain : @Domain q)
    (support : list fr) :
  let n := Z.to_nat (Cardinality domain) in
  let phi := fun p : Z => default (0 : fr) (support !! Z.to_nat p) in
  getSupportPermutation domain = Some support ->
  length S = (3 * n)%nat ->
  Forall (fun p => (0 <= p < Z.of_nat (3 * n))%Z) S ->
  computePermutationPolynomials S domain
  = Some (NewPolynomial (phi <$> take n S) Lagrange,
          NewPolynomial (phi <$> take n (drop n S)) Lagrange,
          NewPolynomial (phi <$> drop (2 * n) S) Lagrange).
Proof.
  intros n phi Hsup HS Hrange.
  destruct (getSupportPermutation_length domain support Hsup) as [Hn Hlen]. fold n in Hn, Hlen.
  assert (Hat : forall k, (k < 3 * n)%nat ->
            support_at support S k = Some (phi (default 0%Z (S !! k)))).
  { intros k Hk. unfold support_at.
    destruct (lookup_lt_is_Some_2 S k ltac:(lia)) as [p Hp].
    rewrite Hp. cbn [mbind option_bind]. change (default 0%Z (Some p)) with p.
    pose proof (proj1 (Forall_lookup _ _) Hrange k p Hp) as Hr. cbn beta in Hr.
    destruct (Z.ltb_spec p 0); [lia|].
    destruct (lookup_lt_is_Some_2 support (Z.to_nat p) ltac:(lia)) as [v Hv].
    unfold phi. rewrite Hv. reflexivity. }
  unfold computePermutationPolynomials. fold n. rewrite Hsup. cbn [mbind option_bind].
  rewrite (mapM_fmap_total (fun i => support_at support S i)
             (fun i => phi (default 0%Z (S !! i))))
    by (intros i Hi; apply elem_of_seq in Hi; apply Hat; lia).
  cbn [mbind option_bind].
  rewrite (mapM_fmap_total (fun i => support_at support S (n + i))
             (fun i => phi (default 0%Z (S !! (n + i)%nat))))
    by (intros i Hi; apply elem_of_seq in Hi; apply Hat; lia).
  cbn [mbind option_bind].
  rewrite (mapM_fmap_total (fun i => support_at support S (2 * n + i))
             (fun i => phi (default 0%Z (S !! (2 * n + i)%nat))))
    by (intros i Hi; apply elem_of_seq in Hi; apply Hat; lia).
  cbn [mbind option_bind].
  assert (Hcol : forall off len, (off + len <= 3 * n)%nat ->
            (fun i => phi (default 0%Z (S !! (off + i)%nat))) <$> seq 0 len
            = phi <$> take len (drop off S)).
  { intros off len Hol. apply list_eq. intros j.
    rewrite !list_lookup_fmap.
    destruct (decide (j < len)%nat) as [Hj|Hj].
    - rewrite lookup_seq_lt by exact Hj. rewrite lookup_take_lt by exact Hj.
      rewrite lookup_drop.
      destruct (lookup_lt_is_Some_2 S (off + j) ltac:(lia)) as [p Hp].
      rewrite Hp. cbn. rewrite Hp. reflexivity.
    - rewrite lookup_seq_ge by lia. rewrite lookup_take_ge by lia. reflexivity. }
  pose proof (Hcol 0%nat n ltac:(lia)) as H1. rewrite drop_0 in H1.
  pose proof (Hcol n n ltac:(lia)) as H2.
  pose proof (Hcol (2 * n)%nat n ltac:(lia)) as H3.
  rewrite (take_ge (drop (2 * n) S)) in H3 by (rewrite length_drop; lia).
  cbn [Nat.add] in H1.
  rewrite <- H1, <- H2, <- H3. reflexivity.
Qed.

(** X11. Given the support and a permutation [S] of the 3n positions,
    [computePermutationPolynomials] returns three Lagrange polynomials of
    n values each, S1 ‖ S2 ‖ S3 being the support read through S,
    [support[S[k]]] at position k; so the three columns together hold
    the values of the support, each once, in permuted order. *)
Theorem computePermutationPolynomials_spec (S : list Z) (domain : @Domain q) :
  let n := Z.to_nat (Cardinality domain) in
  (0 < n)%nat ->
  length S = (3 * n)%nat ->
  S ≡ₚ (Z.of_nat <$> seq 0 (3 * n)) ->
  exists (support s1 s2 s3 : list fr),
    getSupportPermutation domain = Some support /\
    computePermutationPolynomials S domain
    = Some (NewPolynomial s1 Lagrange, NewPolynomial s2 Lagrange,
            NewPolynomial s3 Lagrange) /\
    length s1 = n /\ length s2 = n /\ length s3 = n /\
    (forall k p, S !! k = Some p ->
       (s1 ++ s2 ++ s3) !! k = support !! Z.to_nat p) /\
    s1 ++ s2 ++ s3 ≡ₚ support.
Proof.
  intros n Hn HS Hperm.
  assert (Hrange : Forall (fun p => (0 <= p < Z.of_nat (3 * n))%Z) S).
  { apply Forall_forall. intros p Hp. rewrite Hperm in Hp.
    apply list_elem_of_fmap in Hp. destruct Hp as [i [-> Hi]].
    apply elem_of_seq in Hi. lia. }
  pose proof (getSupportPermutation_Some domain ltac:(fold n; lia)) as Hsup.
  cbv zeta in Hsup. fold n in Hsup.
  set (support := _ ++ _ ++ _) in Hsup.
  assert (Hlen : length support = (3 * n)%nat).
  { apply (getSupportPermutation_length domain support Hsup). }
  set (phi := fun p : Z => default (0 : fr) (support !! Z.to_nat p)).
  exists support, (phi <$> take n S), (phi <$> take n (drop n S)),
    (phi <$> drop (2 * n) S).
  assert (Hcat : (phi <$> take n S) ++ (phi <$> take n (drop n S))
                 ++ (phi <$> drop (2 * n) S) = phi <$> S).
  { rewrite <- !fmap_app. f_equal.
    transitivity (take n S ++ drop n S); [|apply take_drop]. f_equal.
    transitivity (take n (drop n S) ++ drop n (drop n S)); [|apply take_drop].
    f_equal. rewrite drop_drop. f_equal. lia. }
  split; [exact Hsup|]. split.
  { apply (computePermutationPolynomials_Some S domain support Hsup HS Hrange). }
  split; [rewrite length_fmap, length_take; lia|].
  split; [rewrite length_fmap, length_take, length_drop; lia|].
  split; [rewrite length_fmap, length_drop; lia|].
  rewrite Hcat. split.
  - intros k p Hk. rewrite list_lookup_fmap, Hk. cbn [fmap option_fmap option_map].
    pose proof (proj1 (Forall_lookup _ _) Hrange k p Hk) as Hr. cbn beta in Hr.
    destruct (lookup_lt_is_Some_2 support (Z.to_nat p) ltac:(lia)) as [v Hv].
    unfold phi. rewrite Hv. reflexivity.
  - rewrite Hperm. rewrite <- list_fmap_compose.
    replace (phi ∘ Z.of_nat <$> seq 0 (3 * n)) with support; [reflexivity|].
    apply list_eq. intros j. rewrite list_lookup_fmap.
    destruct (decide (j < 3 * n)%nat) as [Hj|Hj].
    + rewrite lookup_seq_lt by exact Hj. cbn. unfold phi. rewrite Nat2Z.id.
      destruct (lookup_lt_is_Some_2 support j ltac:(lia)) as [v Hv].
      rewrite Hv. reflexivity.
    + rewrite lookup_seq_ge by lia. apply lookup_ge_None_2. lia.
Qed.

End Support.

Lemma computePermutationPolynomials_spec_witness :
  exists (support s1 s2 s3 : list (Zmod 97)),
    getSupportPermutation toy_domain0 = Some support /\
    computePermutationPolynomials [5; 4; 3; 2; 1; 0]%Z toy_domain0
    = Some (NewPolynomial s1 Lagrange, NewPolynomial s2 Lagrange,
            NewPolynomial s3 Lagrange) /\
    length s1 = 2 /\ length s2 = 2 /\ length s3 = 2 /\
    (forall k p, [5; 4; 3; 2; 1; 0]%Z !! k = Some p ->
       (s1 ++ s2 ++ s3) !! k = support !! Z.to_nat p) /\
    s1 ++ s2 ++ s3 ≡ₚ support.
Proof.
  apply (computePermutationPolynomials_spec [5; 4; 3; 2; 1; 0]%Z toy_domain0).
  - vm_compute. lia.
  - reflexivity.
  - exact (reverse_Permutation [0; 1; 2; 3; 4; 5]%Z).
Defined.
(** ** The columns that setup builds *)

Lemma store_boundary {A : Type} (pre : list A) (x d : A) (r : nat) :
  store (pre ++ replicate (S r) d) (length pre) x
  = Some ((pre ++ [x]) ++ replicate r d).
Proof.
  rewrite store_Some by (rewrite length_app, length_replicate; lia). f_equal.
  replace (length pre) with (length pre + 0) at 1 by lia.
  rewrite insert_app_r. cbn [replicate]. rewrite insert_cons_0, <- app_assoc.
  reflexivity.
Qed.

(** A block of a column: a prefix, one value per constraint seen so far,
    and padding up to [n] rows. Writing the row of the next constraint
    extends the middle part. *)
Lemma segment_length {A B : Type} (pre : list A) (f : B -> A) (d : A)
    (cs : list B) (n k : nat) :
  k <= length cs -> length pre + length cs <= n ->
  length (pre ++ (f <$> take k cs) ++ replicate (n - length pre - k) d) = n.
Proof.
  intros Hk Hn. rewrite !length_app, length_fmap, length_take, length_replicate. lia.
Qed.

Lemma segment_insert {A B : Type} (pre : list A) (f : B -> A) (d : A)
    (cs : list B) (n k : nat) (c : B) :
  cs !! k = Some c -> length pre + length cs <= n ->
  <[length pre + k := f c]>
    (pre ++ (f <$> take k cs) ++ replicate (n - length pre - k) d)
  = pre ++ (f <$> take (S k) cs) ++ replicate (n - length pre - S k) d.
Proof.
  intros Hc Hn. pose proof (lookup_lt_Some _ _ _ Hc) as Hk.
  rewrite insert_app_r. f_equal.
  replace (n - length pre - k) with (S (n - length pre - S k)) by lia.
  assert (Hlen : length (f <$> take k cs) = k)
    by (rewrite length_fmap, length_take; lia).
  pose proof (store_boundary (f <$> take k cs) (f c) d (n - length pre - S k)) as Hs.
  rewrite Hlen in Hs. apply store_inv in Hs. destruct Hs as [_ Hs].
  rewrite <- Hs. rewrite (take_S_r cs k c Hc), fmap_app. reflexivity.
Qed.

Lemma segment_start {A B : Type} (pre : list A) (f : B -> A) (d : A)
    (cs : list B) (n : nat) :
  pre ++ (f <$> take 0 cs) ++ replicate (n - length pre - 0) d
  = pre ++ replicate (n - length pre) d.
Proof. rewrite take_0, Nat.sub_0_r. reflexivity. Qed.

Lemma segment_end {A B : Type} (pre : list A) (f : B -> A) (d : A)
    (cs : list B) (n : nat) :
  pre ++ (f <$> take (length cs) cs) ++ replicate (n - length pre - length cs) d
  = pre ++ (f <$> cs) ++ replicate (n - length pre - length cs) d.
Proof. rewrite firstn_all. reflexivity. Qed.

Lemma zip_seq_take_S {B : Type} (cs : list B) (k : nat) (c : B) :
  cs !! k = Some c ->
  zip (seq 0 (S k)) (take (S k) cs) = zip (seq 0 k) (take k cs) ++ [(k, c)].
Proof.
  intros Hc. pose proof (lookup_lt_Some _ _ _ Hc) as Hk.
  rewrite seq_S, (take_S_r cs k c Hc).
  rewrite zip_with_app by (rewrite length_seq, length_take; lia). reflexivity.
Qed.

(** *** The slice lro of buildPermutation *)

Lemma lro_placeholders_loop (len : nat) :
  forall k : nat, k <= len ->
  for_each (fun lro i => store lro i i) (seq 0 k) (replicate len 0)
  = Some (seq 0 k ++ replicate (len - k) 0).
Proof.
  induction k as [|k IH]; intros Hk.
  - rewrite Nat.sub_0_r. reflexivity.
  - rewrite seq_S, for_each_app, IH by lia. cbn [for_each Nat.add].
    replace (len - k) with (S (len - S k)) by lia.
    pose proof (store_boundary (seq 0 k) k 0 (len - S k)) as Hs.
    rewrite length_seq in Hs. rewrite Hs. reflexivity.
Qed.

Lemma lro_constraints_loop (spr : SparseR1CS) (n : nat) :
  let P := Public spr in
  let cs := Constraints spr in
  let block (pre : list nat) (f : SparseR1C -> nat) (k : nat) :=
    pre ++ (f <$> take k cs) ++ replicate (n - length pre - k) 0 in
  let state (k : nat) :=
    block (seq 0 P) XA k ++ block (replicate P 0) XB k ++ block (replicate P 0) XC k in
  P + length cs <= n ->
  forall k : nat, k <= length cs ->
  for_each (lro_constraint n P) (zip (seq 0 k) (take k cs)) (state 0)
  = Some (state k).
Proof.
  intros P cs block state Hn.
  assert (Hlen : forall pre f k, length pre = P -> k <= length cs ->
            length (block pre f k) = n).
  { intros pre f k Hp Hk. unfold block. apply segment_length; lia. }
  assert (Hins : forall pre f k c, length pre = P -> cs !! k = Some c ->
            <[P + k := f c]> (block pre f k) = block pre f (S k)).
  { intros pre f k c Hp Hc. unfold block. rewrite <- Hp.
    apply segment_insert; [exact Hc|lia]. }
  induction k as [|k IH]; intros Hk; [reflexivity|].
  destruct (lookup_lt_is_Some_2 cs k ltac:(lia)) as [c Hc].
  rewrite (zip_seq_take_S cs k c Hc), for_each_app, IH by lia.
  cbn [for_each]. unfold lro_constraint.
  assert (HA : length (block (seq 0 P) XA k) = n)
    by (apply Hlen; [apply length_seq|lia]).
  assert (HB : length (block (replicate P 0) XB k) = n)
    by (apply Hlen; [apply length_replicate|lia]).
  assert (HC : length (block (replicate P 0) XC k) = n)
    by (apply Hlen; [apply length_replicate|lia]).
  assert (HA' : length (block (seq 0 P) XA (S k)) = n)
    by (apply Hlen; [apply length_seq|lia]).
  assert (HB' : length (block (replicate P 0) XB (S k)) = n)
    by (apply Hlen; [apply length_replicate|lia]).
  unfold state.
  rewrite store_Some by (rewrite !length_app, HA, HB, HC; lia).
  cbn [mbind option_bind].
  rewrite insert_app_l by lia.
  rewrite (Hins (seq 0 P) XA k c (length_seq _ _) Hc).
  rewrite store_Some by (rewrite !length_app, HA', HB, HC; lia).
  cbn [mbind option_bind].
  rewrite insert_app_r_alt by lia. rewrite HA'.
  replace (n + P + k - n) with (P + k) by lia.
  rewrite insert_app_l by lia.
  rewrite (Hins (replicate P 0) XB k c (length_replicate _ _) Hc).
  rewrite store_Some by (rewrite !length_app, HA', HB', HC; lia).
  f_equal.
  rewrite insert_app_r_alt by lia. rewrite HA'.
  rewrite insert_app_r_alt by lia. rewrite HB'.
  replace (2 * n + P + k - n - n) with (P + k) by lia.
  rewrite (Hins (replicate P 0) XC k c (length_replicate _ _) Hc).
  reflexivity.
Qed.

(** X12. When the columns have room for the public inputs and the
    constraints, the first phase of [buildPermutation] fills [lro] with
    l ‖ r ‖ o: in each block the rows of the public inputs, then the
    rows of the constraints, then the padding. The left wire of a
    public-input row is the variable of that input; its right and output
    wires, like every wire of a padding row, are variable 0. *)
Theorem build_lro_spec (spr : SparseR1CS) (n : nat) :
  Public spr + length (Constraints spr) <= n ->
  build_lro spr n = Some (lro_spec spr n).
Proof.
  intros Hn. unfold build_lro, lro_placeholders.
  rewrite lro_placeholders_loop by lia. cbn [mbind option_bind].
  pose proof (lro_constraints_loop spr n Hn (length (Constraints spr)) (le_n _)) as HL.
  cbv zeta in HL. rewrite !firstn_all in HL.
  rewrite !take_0 in HL. cbn [fmap list_fmap app] in HL.
  rewrite !Nat.sub_0_r, length_seq, length_replicate in HL.
  replace (seq 0 (Public spr) ++ replicate (3 * n - Public spr) 0)
    with ((seq 0 (Public spr) ++ replicate (n - Public spr) 0)
          ++ (replicate (Public spr) 0 ++ replicate (n - Public spr) 0)
          ++ replicate (Public spr) 0 ++ replicate (n - Public spr) 0).
  - rewrite HL. reflexivity.
  - rewrite <- !replicate_add, <- app_assoc, <- !replicate_add. do 2 f_equal. lia.
Qed.

Lemma build_lro_spec_witness :
  build_lro (mkSparseR1CS 1 1 1
               [mkSparseR1C 0 1 2 0 0 0 0 0; mkSparseR1C 2 1 0 0 0 0 0 0] []) 4
  = Some (lro_spec (mkSparseR1CS 1 1 1
               [mkSparseR1C 0 1 2 0 0 0 0 0; mkSparseR1C 2 1 0 0 0 0 0 0] []) 4).
Proof.
  apply (build_lro_spec (mkSparseR1CS 1 1 1
               [mkSparseR1C 0 1 2 0 0 0 0 0; mkSparseR1C 2 1 0 0 0 0 0 0] []) 4).
  simpl. lia.
Defined.

(** ** The trace that NewTrace builds *)

Section NewTraceSpec.
Context {q : Z}.
#[local] Abbreviation fr := (Zmod q).

#[local] Open Scope Zmod_scope.

Lemma placeholder_rows (n : nat) :
  forall k : nat, (k <= n)%nat ->
  for_each (@placeholder_row q) (seq 0 k)
    (mkSelectors (replicate n 0) (replicate n 0) (replicate n 0)
                 (replicate n 0) (replicate n 0))
  = Some (mkSelectors (replicate k (- (1)) ++ replicate (n - k) 0)
            (replicate n 0) (replicate n 0) (replicate n 0) (replicate n 0)).
Proof.
  induction k as [|k IH]; intros Hk.
  - rewrite Nat.sub_0_r. reflexivity.
  - rewrite seq_S, for_each_app, IH by lia. cbn [for_each Nat.add].
    unfold placeholder_row. cbn [sel_ql sel_qr sel_qm sel_qo sel_qk].
    replace (n - k)%nat with (S (n - S k)) by lia.
    pose proof (store_boundary (replicate k (- (1) : fr)) (- (1)) 0 (n - S k)) as Hs.
    rewrite length_replicate in Hs. rewrite Hs. cbn [mbind option_bind].
    rewrite !store_Some by (rewrite length_replicate; lia).
    cbn [mbind option_bind]. rewrite !insert_replicate.
    rewrite <- replicate_S_end. reflexivity.
Qed.

Lemma constraint_rows (coefficients : list fr) (spr : SparseR1CS) (n : nat) :
  let P := Public spr in
  let cs := Constraints spr in
  let col (pre : fr) (sel : SparseR1C -> nat) (k : nat) :=
    replicate P pre
    ++ ((fun c => default 0 (coefficients !! sel c)) <$> take k cs)
    ++ replicate (n - P - k) 0 in
  let state (k : nat) :=
    mkSelectors (col (- (1)) QL k) (col 0 QR k) (col 0 QM k) (col 0 QO k)
                (col 0 QC k) in
  (P + length cs <= n)%nat ->
  wf_selectors (length coefficients) spr ->
  forall k : nat, (k <= length cs)%nat ->
  for_each (constraint_row coefficients P) (zip (seq 0 k) (take k cs)) (state 0%nat)
  = Some (state k).
Proof.
  intros P cs col state Hn Hwf.
  assert (Hlen : forall pre sel k, (k <= length cs)%nat -> length (col pre sel k) = n).
  { intros pre sel k Hk. unfold col.
    pose proof (segment_length (replicate P pre)
                  (fun c => default 0 (coefficients !! sel c)) 0 cs n k) as HL.
    rewrite length_replicate in HL. apply HL; lia. }
  assert (Hins : forall pre sel k c x, cs !! k = Some c ->
            coefficients !! sel c = Some x ->
            store (col pre sel k) (P + k) x = Some (col pre sel (S k))).
  { intros pre sel k c x Hc Hx.
    pose proof (lookup_lt_Some _ _ _ Hc) as Hk.
    rewrite store_Some by (rewrite Hlen; lia). f_equal. unfold col.
    pose proof (segment_insert (replicate P pre)
                  (fun c => default 0 (coefficients !! sel c)) 0 cs n k c Hc) as HI.
    rewrite length_replicate in HI. cbn beta in HI. rewrite Hx in HI.
    apply HI. lia. }
  induction k as [|k IH]; intros Hk; [reflexivity|].
  destruct (lookup_lt_is_Some_2 cs k ltac:(lia)) as [c Hc].
  rewrite (zip_seq_take_S cs k c Hc), for_each_app, IH by lia.
  cbn [for_each]. unfold constraint_row, state.
  cbn [sel_ql sel_qr sel_qm sel_qo sel_qk].
  pose proof (proj1 (Forall_lookup _ _) Hwf k c Hc) as (H1 & H2 & H3 & H4 & H5).
  destruct (lookup_lt_is_Some_2 coefficients (QL c) H1) as [xl Hl].
  destruct (lookup_lt_is_Some_2 coefficients (QR c) H2) as [xr Hr].
  destruct (lookup_lt_is_Some_2 coefficients (QM c) H3) as [xm Hm].
  destruct (lookup_lt_is_Some_2 coefficients (QO c) H4) as [xo Ho].
  destruct (lookup_lt_is_Some_2 coefficients (QC c) H5) as [xk Hxk].
  rewrite Hl. cbn [mbind option_bind]. rewrite (Hins _ QL k c xl Hc Hl).
  cbn [mbind option_bind].
  rewrite Hr. cbn [mbind option_bind]. rewrite (Hins _ QR k c xr Hc Hr).
  cbn [mbind option_bind].
  rewrite Hm. cbn [mbind option_bind]. rewrite (Hins _ QM k c xm Hc Hm).
  cbn [mbind option_bind].
  rewrite Ho. cbn [mbind option_bind]. rewrite (Hins _ QO k c xo Hc Ho).
  cbn [mbind option_bind].
  rewrite Hxk. cbn [mbind option_bind]. rewrite (Hins _ QC k c xk Hc Hxk).
  reflexivity.
Qed.

Lemma commitment_column_loop (P n : nat) :
  forall (committed : list nat) (col0 : list fr),
  length col0 = n -> Forall (fun c => (P + c < n)%nat) committed ->
  exists col : list fr,
    for_each (fun col c => store col (P + c)%nat (1 : fr)) committed col0 = Some col /\
    length col = n /\
    forall j : nat,
      col !! j = if decide (j ∈ (fun c => (P + c)%nat) <$> committed)
                 then Some 1 else col0 !! j.
Proof.
  induction committed as [|c rest IH]; intros col0 Hlen Hin.
  - exists col0. split; [reflexivity|]. split; [exact Hlen|]. intros j.
    destruct (decide (j ∈ _)) as [Hj|Hj]; [|reflexivity].
    cbn in Hj. apply elem_of_nil in Hj. destruct Hj.
  - apply Forall_cons in Hin. destruct Hin as [Hc Hin].
    cbn [for_each]. rewrite store_Some by lia.
    destruct (IH (<[(P + c)%nat := 1]> col0)) as [col [Hcol [Hl Hlook]]].
    { rewrite length_insert. exact Hlen. }
    { exact Hin. }
    exists col. split; [exact Hcol|]. split; [exact Hl|]. intros j.
    rewrite Hlook. cbn [fmap list_fmap].
    destruct (decide (j ∈ (fun c => (P + c)%nat) <$> rest)) as [Hj|Hj].
    + destruct (decide (j ∈ (P + c)%nat :: ((fun c => (P + c)%nat) <$> rest)))
        as [_|Hn]; [reflexivity|]. exfalso. apply Hn. right. exact Hj.
    + destruct (decide (j = P + c)%nat) as [->|Hne].
      * rewrite list_lookup_insert_eq by lia.
        destruct (decide ((P + c)%nat ∈ (P + c)%nat :: ((fun c => (P + c)%nat) <$> rest)))
          as [_|Hn]; [reflexivity|]. exfalso. apply Hn. left.
      * rewrite list_lookup_insert_ne by lia.
        destruct (decide (j ∈ (P + c)%nat :: ((fun c => (P + c)%nat) <$> rest)))
          as [Hy|_]; [|reflexivity].
        apply elem_of_cons in Hy. destruct Hy as [Hy|Hy]; [lia|contradiction].
Qed.

Lemma commitment_columns (spr : SparseR1CS) (n : nat) :
  wf_commitments spr n ->
  mapM (fun info =>
          for_each (fun col committed => store col (Public spr + committed)%nat (1 : fr))
                   (Committed info) (replicate n 0))
       (CommitmentInfo spr)
  = Some (commitment_column spr n <$> CommitmentInfo spr).
Proof.
  intros Hwf. apply mapM_fmap_total. intros info Hinfo.
  pose proof (proj1 (Forall_forall _ _) Hwf info Hinfo) as Hc. cbn beta in Hc.
  destruct (commitment_column_loop (Public spr) n (Committed info) (replicate n 0))
    as [col [Hcol [Hlen Hlook]]]; [apply length_replicate|exact Hc|].
  rewrite Hcol. f_equal. apply list_eq. intros j. rewrite Hlook.
  unfold commitment_column. rewrite list_lookup_fmap.
  destruct (decide (j < n)%nat) as [Hj|Hj].
  - rewrite lookup_seq_lt by exact Hj. cbn [fmap option_fmap option_map Nat.add].
    destruct (decide (j ∈ _)); [reflexivity|]. apply lookup_replicate_2. exact Hj.
  - rewrite lookup_seq_ge by lia. cbn [fmap option_fmap option_map].
    destruct (decide (j ∈ _)) as [Hin|_].
    + exfalso. apply list_elem_of_fmap in Hin. destruct Hin as [c [-> Hin]].
      pose proof (proj1 (Forall_forall _ _) Hc c Hin). cbn beta in *. lia.
    + apply lookup_ge_None_2. rewrite length_replicate. lia.
Qed.

Lemma selector_column_length (coefficients : list fr) (spr : SparseR1CS)
    (n : nat) (pre : fr) (sel : SparseR1C -> nat) :
  (Public spr + length (Constraints spr) <= n)%nat ->
  length (selector_column coefficients spr n pre sel) = n.
Proof.
  intros Hn. unfold selector_column.
  rewrite !length_app, length_fmap, !length_replicate. lia.
Qed.

(** [NewTrace] on a well-formed circuit, with the columns in closed form. *)
Lemma NewTrace_Some (spr : SparseR1CS) (coefficients : list fr)
    (domain : @Domain q) (n : nat) :
  (Z.of_nat (GetNbConstraints spr + Public spr) < 2 ^ 63)%Z ->
  trace_size spr = Some n ->
  Cardinality domain = Z.of_nat n ->
  wf_wires spr -> (0 < nbVariables spr)%nat ->
  wf_selectors (length coefficients) spr ->
  wf_commitments spr n ->
  exists (S : list Z) (s1 s2 s3 : list fr),
    (Public spr + length (Constraints spr) <= n)%nat /\
    buildPermutation spr n (nbVariables spr) = Some S /\
    S ≡ₚ (Z.of_nat <$> seq 0 (3 * n)) /\
    computePermutationPolynomials S domain
    = Some (NewPolynomial s1 Lagrange, NewPolynomial s2 Lagrange,
            NewPolynomial s3 Lagrange) /\
    length s1 = n /\ length s2 = n /\ length s3 = n /\
    NewTrace spr coefficients domain
    = Some {| Ql := NewPolynomial (selector_column coefficients spr n (- (1)) QL) Lagrange;
              Qr := NewPolynomial (selector_column coefficients spr n 0 QR) Lagrange;
              Qm := NewPolynomial (selector_column coefficients spr n 0 QM) Lagrange;
              Qo := NewPolynomial (selector_column coefficients spr n 0 QO) Lagrange;
              Qk := NewPolynomial (selector_column coefficients spr n 0 QC) Lagrange;
              Qcp := (fun info => NewPolynomial (commitment_column spr n info) Lagrange)
                     <$> CommitmentInfo spr;
              S1 := NewPolynomial s1 Lagrange;
              S2 := NewPolynomial s2 Lagrange;
              S3 := NewPolynomial s3 Lagrange;
              trace_S := S |}.
Proof.
  intros Hint Hsize Hcard Hwires Hvars Hsel Hcom.
  pose proof (trace_size_ge spr n Hint Hsize) as Hroom.
  assert (Hn : (0 < n)%nat).
  { unfold trace_size in Hsize.
    destruct (NextPowerOfTwo (sizeSystem spr)) as [c|] eqn:Hc; [|discriminate].
    injection Hsize as <-.
    apply NextPowerOfTwo_spec in Hc; [lia|]. unfold sizeSystem, wrap64.
    apply Z.mod_pos_bound. lia. }
  destruct (buildPermutation_spec spr n Hwires Hvars Hroom)
    as (lro & S & Hlro & HS & Hlenl & HlenS & Hspec).
  assert (Hperm : S ≡ₚ (Z.of_nat <$> seq 0 (3 * n))).
  { rewrite <- Hlenl. apply S_permutation; [lia|].
    intros i Hi. apply Hspec. lia. }
  assert (Hnz : Z.to_nat (Cardinality domain) = n) by (rewrite Hcard; lia).
  assert (Hrange : Forall (fun p => (0 <= p < Z.of_nat (3 * n))%Z) S).
  { apply Forall_forall. intros p Hp. rewrite Hperm in Hp.
    apply list_elem_of_fmap in Hp. destruct Hp as [i [-> Hi]].
    apply elem_of_seq in Hi. lia. }
  pose proof (getSupportPermutation_Some domain ltac:(lia)) as Hsup.
  cbv zeta in Hsup. rewrite Hnz in Hsup.
  pose proof (computePermutationPolynomials_Some S domain _ Hsup) as Hcpp.
  cbv zeta in Hcpp. rewrite Hnz in Hcpp. specialize (Hcpp HlenS Hrange).
  pose proof (constraint_rows coefficients spr n Hroom Hsel
                (length (Constraints spr)) (le_n _)) as Hrows.
  cbv zeta in Hrows. rewrite !firstn_all, !take_0 in Hrows.
  cbn [fmap list_fmap app] in Hrows. rewrite !Nat.sub_0_r in Hrows.
  rewrite <- !replicate_add in Hrows.
  replace (Public spr + (n - Public spr))%nat with n in Hrows by lia.
  change (Some (mkSelectors _ _ _ _ _))
    with (Some (mkSelectors (selector_column coefficients spr n (- (1)) QL)
                  (selector_column coefficients spr n 0 QR)
                  (selector_column coefficients spr n 0 QM)
                  (selector_column coefficients spr n 0 QO)
                  (selector_column coefficients spr n 0 QC))) in Hrows.
  eexists S, _, _, _. split; [exact Hroom|]. split; [exact HS|].
  split; [exact Hperm|]. split; [exact Hcpp|].
  split; [rewrite length_fmap, length_take; lia|].
  split; [rewrite length_fmap, length_take, length_drop; lia|].
  split; [rewrite length_fmap, length_drop; lia|].
  unfold NewTrace. rewrite Hsize. cbn [mbind option_bind].
  rewrite (placeholder_rows n (Public spr)) by lia. cbn [mbind option_bind].
  rewrite Hrows. cbn [mbind option_bind].
  rewrite (commitment_columns spr n Hcom). cbn [mbind option_bind sel_ql].
  rewrite (selector_column_length coefficients spr n) by exact Hroom.
  rewrite HS. cbn [mbind option_bind]. rewrite Hcpp. cbn [mbind option_bind].
  cbn [sel_ql sel_qr sel_qm sel_qo sel_qk].
  rewrite <- list_fmap_compose. reflexivity.
Qed.

(** Every column of that trace has [n] rows and is in Lagrange form. *)
Lemma trace_columns_sizes (coefficients : list fr) (spr : SparseR1CS) (n : nat)
    (s1 s2 s3 : list fr) :
  (Public spr + length (Constraints spr) <= n)%nat ->
  length s1 = n -> length s2 = n -> length s3 = n ->
  Forall (fun p => Size p = n /\ basis p = Lagrange)
    ([NewPolynomial (selector_column coefficients spr n (- (1)) QL) Lagrange;
      NewPolynomial (selector_column coefficients spr n 0 QR) Lagrange;
      NewPolynomial (selector_column coefficients spr n 0 QM) Lagrange;
      NewPolynomial (selector_column coefficients spr n 0 QO) Lagrange;
      NewPolynomial (selector_column coefficients spr n 0 QC) Lagrange;
      NewPolynomial s1 Lagrange; NewPolynomial s2 Lagrange; NewPolynomial s3 Lagrange]
     ++ ((fun info => NewPolynomial (commitment_column spr n info) Lagrange)
         <$> CommitmentInfo spr)).
Proof.
  intros Hroom H1 H2 H3.
  repeat (apply Forall_cons; split;
          [split; [unfold Size; cbn [Coefficients]|reflexivity]|]);
    try (apply selector_column_length; exact Hroom); try assumption.
  apply Forall_fmap, Forall_forall. intros info _. cbn.
  split; [|reflexivity]. unfold Size, commitment_column. cbn [Coefficients].
  rewrite length_fmap, length_seq. reflexivity.
Qed.

(** X13. On a well-formed circuit [NewTrace] returns (it panics on no
    index), and the trace is the following. Every column has the number
    of rows of the domain and is in Lagrange form. Ql is -1 on the rows
    of the public inputs and the other selectors are 0 there; on the row
    of a constraint each selector holds the coefficient the constraint
    names; the padding rows are 0. The column of a custom gate is 1 on
    its committed rows and 0 elsewhere. The permutation is the one of
    [buildPermutation] and S1, S2, S3 are the columns that
    [computePermutationPolynomials] derives from it. *)
Theorem NewTrace_spec (spr : SparseR1CS) (coefficients : list fr)
    (domain : @Domain q) (n : nat) :
  (Z.of_nat (GetNbConstraints spr + Public spr) < 2 ^ 63)%Z ->
  trace_size spr = Some n ->
  Cardinality domain = Z.of_nat n ->
  wf_wires spr -> (0 < nbVariables spr)%nat ->
  wf_selectors (length coefficients) spr ->
  wf_commitments spr n ->
  exists trace : Trace,
    NewTrace spr coefficients domain = Some trace /\
    Ql trace = NewPolynomial (selector_column coefficients spr n (- (1)) QL) Lagrange /\
    Qr trace = NewPolynomial (selector_column coefficients spr n 0 QR) Lagrange /\
    Qm trace = NewPolynomial (selector_column coefficients spr n 0 QM) Lagrange /\
    Qo trace = NewPolynomial (selector_column coefficients spr n 0 QO) Lagrange /\
    Qk trace = NewPolynomial (selector_column coefficients spr n 0 QC) Lagrange /\
    Qcp trace = (fun info => NewPolynomial (commitment_column spr n info) Lagrange)
                <$> CommitmentInfo spr /\
    buildPermutation spr n (nbVariables spr) = Some (trace_S trace) /\
    trace_S trace ≡ₚ (Z.of_nat <$> seq 0 (3 * n)) /\
    computePermutationPolynomials (trace_S trace) domain
    = Some (S1 trace, S2 trace, S3 trace) /\
    Forall (fun p => Size p = n /\ basis p = Lagrange)
      ([Ql trace; Qr trace; Qm trace; Qo trace; Qk trace;
        S1 trace; S2 trace; S3 trace] ++ Qcp trace).
Proof.
  intros Hint Hsize Hcard Hwires Hvars Hsel Hcom.
  destruct (NewTrace_Some spr coefficients domain n Hint Hsize Hcard Hwires Hvars
              Hsel Hcom)
    as (S & s1 & s2 & s3 & Hroom & HS & Hperm & Hcpp & H1 & H2 & H3 & Htrace).
  eexists. split; [exact Htrace|].
  cbn [Ql Qr Qm Qo Qk Qcp S1 S2 S3 trace_S].
  repeat (split; [reflexivity|]).
  split; [exact HS|]. split; [exact Hperm|]. split; [exact Hcpp|].
  apply trace_columns_sizes; assumption.
Qed.

End NewTraceSpec.

Lemma NewTrace_spec_witness :
  exists trace : @Trace 97,
    NewTrace toy_spr_bsb toy_coefficients toy_domain0 = Some trace /\
    Ql trace = NewPolynomial
                 (selector_column toy_coefficients toy_spr_bsb 2 (Zmod.opp Zmod.one) QL)
                 Lagrange /\
    Qr trace = NewPolynomial (selector_column toy_coefficients toy_spr_bsb 2 Zmod.zero QR)
                 Lagrange /\
    Qm trace = NewPolynomial (selector_column toy_coefficients toy_spr_bsb 2 Zmod.zero QM)
                 Lagrange /\
    Qo trace = NewPolynomial (selector_column toy_coefficients toy_spr_bsb 2 Zmod.zero QO)
                 Lagrange /\
    Qk trace = NewPolynomial (selector_column toy_coefficients toy_spr_bsb 2 Zmod.zero QC)
                 Lagrange /\
    Qcp trace = (fun info => NewPolynomial (commitment_column toy_spr_bsb 2 info) Lagrange)
                <$> CommitmentInfo toy_spr_bsb /\
    buildPermutation toy_spr_bsb 2 (nbVariables toy_spr_bsb) = Some (trace_S trace) /\
    trace_S trace ≡ₚ (Z.of_nat <$> seq 0 (3 * 2)) /\
    computePermutationPolynomials (trace_S trace) toy_domain0
    = Some (S1 trace, S2 trace, S3 trace) /\
    Forall (fun p => Size p = 2 /\ basis p = Lagrange)
      ([Ql trace; Qr trace; Qm trace; Qo trace; Qk trace;
        S1 trace; S2 trace; S3 trace] ++ Qcp trace).
Proof.
  apply (NewTrace_spec toy_spr_bsb toy_coefficients toy_domain0 2).
  - vm_compute. reflexivity.
  - reflexivity.
  - reflexivity.
  - repeat constructor.
  - vm_compute. lia.
  - repeat constructor.
  - repeat constructor.
Defined.

(** ** What Setup returns *)

Lemma int_of_uint64_small (x : Z) : (0 <= x < 2 ^ 63)%Z -> int_of_uint64 x = x.
Proof. intros H. unfold int_of_uint64. destruct (Z.ltb_spec x (2 ^ 63)); lia. Qed.

(** [Setup] with an SRS of at least t n elements. *)
Lemma Setup_Ok {q : Z} (g w : Zmod q) (maxOrder : Z) (spr : SparseR1CS)
    (coefficients : list (Zmod q)) (srs : list G1Affine) (domain : Domain) :
  let n := Z.to_nat (Cardinality domain) in
  let t := 15 + 2 * length (CommitmentInfo spr) in
  (Z.of_nat (GetNbConstraints spr + Public spr) < 2 ^ 62)%Z ->
  initFFTDomain g w maxOrder spr = Some domain ->
  wf_wires spr -> 0 < nbVariables spr ->
  wf_selectors (length coefficients) spr ->
  wf_commitments spr n ->
  (2 <= Cardinality domain)%Z -> t * n <= length srs ->
  exists (trace : Trace) (buf : list (Zmod q)) (qpublic : G1Affine),
    NewTrace spr coefficients domain = Some trace /\
    intertwine trace domain = Some buf /\
    length buf = t * n /\
    kzg_Commit buf srs = Ok qpublic /\
    let vk := {| vk_Size := Cardinality domain;
                 vk_SizeInv := Zmod.inv (Zmod.of_Z q (Cardinality domain));
                 vk_Generator := Generator domain;
                 NbPublicVariables := Z.of_nat (Public spr);
                 CosetShift := FrMultiplicativeGen domain;
                 vk_Qcp := [];
                 Qpublic := qpublic;
                 CommitmentConstraintIndexes :=
                   CommitmentIndex <$> CommitmentInfo spr |} in
    Setup g w maxOrder spr coefficients srs = Ok ({| Kzg := srs; Vk := vk |}, vk).
Proof.
  intros n t Hint Hdom Hwires Hvars Hsel Hcom Hbig Hsrs.
  pose proof Hdom as Hnp. unfold initFFTDomain in Hnp.
  apply NewDomain_Cardinality in Hnp.
  assert (Hsys : sizeSystem spr = Z.of_nat (GetNbConstraints spr + Public spr)).
  { unfold sizeSystem, wrap64. apply Z.mod_small. lia. }
  pose proof (NextPowerOfTwo_spec (sizeSystem spr) _ ltac:(rewrite Hsys; lia) Hnp)
    as (Hge & Hpos & Hlt & _).
  assert (Hcard : (1 <= Cardinality domain < 2 ^ 63)%Z).
  { destruct Hlt as [Hlt|H0]; [lia|].
    rewrite H0 in Hnp. change (NextPowerOfTwo 0) with (Some 1%Z) in Hnp.
    injection Hnp as <-. lia. }
  assert (Hsize : trace_size spr = Some n).
  { unfold trace_size. rewrite Hnp. reflexivity. }
  assert (HcardN : Cardinality domain = Z.of_nat n) by (unfold n; lia).
  unfold Setup. rewrite Hdom. cbn [or_panic mbind result_bind].
  rewrite int_of_uint64_small by lia.
  destruct (Z.ltb_spec (Cardinality domain) 2); [lia|].
  assert (30 <= t * n) by (unfold t; nia).
  destruct (Z.ltb_spec (Z.of_nat (length srs)) (Cardinality domain + 3)); [lia|].
  destruct (NewTrace_Some spr coefficients domain n ltac:(lia) Hsize HcardN Hwires
              Hvars Hsel Hcom)
    as (S & s1 & s2 & s3 & Hroom & HS & Hperm & Hcpp & Hs1 & Hs2 & Hs3 & Htrace).
  rewrite Htrace. cbn [or_panic mbind result_bind].
  set (trace := {| Ql := _ |}) in *.
  destruct (intertwine_ok trace domain) as (buf & Hbuf & Hlen & _).
  - lia.
  - cbn [Ql Qr Qm Qo Qk Qcp S1 S2 S3 trace]. fold n.
    eapply Forall_impl;
      [apply (trace_columns_sizes coefficients spr n s1 s2 s3); assumption|].
    intros p [Hp _]. exact Hp.
  - assert (Hlen' : length buf = t * n).
    { rewrite Hlen. unfold trace. cbn [Qcp]. rewrite length_fmap. reflexivity. }
    exists trace, buf, (MultiExp (take (length buf) srs) buf).
    assert (Hkzg : kzg_Commit buf srs = Ok (MultiExp (take (length buf) srs) buf)).
    { unfold kzg_Commit.
      destruct (Nat.eqb_spec (length buf) 0); [lia|].
      destruct (Nat.ltb_spec (length srs) (length buf)); [lia|]. reflexivity. }
    split; [reflexivity|]. split; [exact Hbuf|]. split; [exact Hlen'|].
    split; [exact Hkzg|]. cbv zeta.
    unfold commitTrace. rewrite Hbuf. cbn [or_panic mbind result_bind].
    rewrite Hkzg. reflexivity.
Qed.

(** X14. [Setup] on a well-formed circuit, by the size of the SRS. With a
    domain of less than 2 points it returns the error on the size of the
    circuit; with less than n + 3 SRS elements the error on the size of
    the SRS; with at least n + 3 but less than t n elements, t being the
    stride 15 + 2 |custom gates|, the error of [kzg.Commit] on the size
    of the polynomial; and with t n elements or more it succeeds: the
    proving key holds the whole SRS and the verifying key, whose
    [Qpublic] is the commitment of the interleaved trace and whose [Qcp]
    is empty. *)
Theorem Setup_spec {q : Z} (g w : Zmod q) (maxOrder : Z) (spr : SparseR1CS)
    (coefficients : list (Zmod q)) (srs : list G1Affine) (domain : Domain) :
  let n := Z.to_nat (Cardinality domain) in
  let t := 15 + 2 * length (CommitmentInfo spr) in
  (Z.of_nat (GetNbConstraints spr + Public spr) < 2 ^ 62)%Z ->
  initFFTDomain g w maxOrder spr = Some domain ->
  wf_wires spr -> 0 < nbVariables spr ->
  wf_selectors (length coefficients) spr ->
  wf_commitments spr n ->
  ((Cardinality domain < 2)%Z ->
   Setup g w maxOrder spr coefficients srs = Err ErrCircuitTooSmall) /\
  ((2 <= Cardinality domain)%Z -> length srs < n + 3 ->
   Setup g w maxOrder spr coefficients srs = Err ErrSrsTooSmall) /\
  ((2 <= Cardinality domain)%Z -> n + 3 <= length srs < t * n ->
   Setup g w maxOrder spr coefficients srs = Err ErrInvalidPolynomialSize) /\
  ((2 <= Cardinality domain)%Z -> t * n <= length srs ->
   exists (trace : Trace) (buf : list (Zmod q)) (qpublic : G1Affine),
     NewTrace spr coefficients domain = Some trace /\
     intertwine trace domain = Some buf /\
     length buf = t * n /\
     kzg_Commit buf srs = Ok qpublic /\
     let vk := {| vk_Size := Cardinality domain;
                  vk_SizeInv := Zmod.inv (Zmod.of_Z q (Cardinality domain));
                  vk_Generator := Generator domain;
                  NbPublicVariables := Z.of_nat (Public spr);
                  CosetShift := FrMultiplicativeGen domain;
                  vk_Qcp := [];
                  Qpublic := qpublic;
                  CommitmentConstraintIndexes :=
                    CommitmentIndex <$> CommitmentInfo spr |} in
     Setup g w maxOrder spr coefficients srs = Ok ({| Kzg := srs; Vk := vk |}, vk)).
Proof.
  intros n t Hint Hdom Hwires Hvars Hsel Hcom.
  pose proof Hdom as Hnp. unfold initFFTDomain in Hnp.
  apply NewDomain_Cardinality in Hnp.
  assert (Hsys : sizeSystem spr = Z.of_nat (GetNbConstraints spr + Public spr)).
  { unfold sizeSystem, wrap64. apply Z.mod_small. lia. }
  pose proof (NextPowerOfTwo_spec (sizeSystem spr) _ ltac:(rewrite Hsys; lia) Hnp)
    as (Hge & Hpos & Hlt & _).
  assert (Hcard : (1 <= Cardinality domain < 2 ^ 63)%Z).
  { destruct Hlt as [Hlt|H0]; [lia|].
    rewrite H0 in Hnp. change (NextPowerOfTwo 0) with (Some 1%Z) in Hnp.
    injection Hnp as <-. lia. }
  assert (Hsize : trace_size spr = Some n).
  { unfold trace_size. rewrite Hnp. reflexivity. }
  assert (HcardN : Cardinality domain = Z.of_nat n) by (unfold n; lia).
  split; [|split; [|split]].
  - intros Hsmall. unfold Setup. rewrite Hdom. cbn [or_panic mbind result_bind].
    destruct (Z.ltb_spec (Cardinality domain) 2); [reflexivity|lia].
  - intros Hbig Hsrs. unfold Setup. rewrite Hdom. cbn [or_panic mbind result_bind].
    rewrite int_of_uint64_small by lia.
    destruct (Z.ltb_spec (Cardinality domain) 2); [lia|].
    destruct (Z.ltb_spec (Z.of_nat (length srs)) (Cardinality domain + 3));
      [reflexivity|lia].
  - intros Hbig Hsrs. unfold Setup. rewrite Hdom. cbn [or_panic mbind result_bind].
    rewrite int_of_uint64_small by lia.
    destruct (Z.ltb_spec (Cardinality domain) 2); [lia|].
    destruct (Z.ltb_spec (Z.of_nat (length srs)) (Cardinality domain + 3)); [lia|].
    destruct (NewTrace_Some spr coefficients domain n ltac:(lia) Hsize HcardN Hwires
                Hvars Hsel Hcom)
      as (S & s1 & s2 & s3 & Hroom & HS & Hperm & Hcpp & Hs1 & Hs2 & Hs3 & Htrace).
    rewrite Htrace. cbn [or_panic mbind result_bind].
    rewrite commitTrace_key_too_short; [reflexivity| | |].
    + lia.
    + cbn [Ql Qr Qm Qo Qk Qcp S1 S2 S3]. fold n.
      eapply Forall_impl;
        [apply (trace_columns_sizes coefficients spr n s1 s2 s3); assumption|].
      intros p [Hp _]. exact Hp.
    + cbn [Qcp]. rewrite length_fmap. fold n. fold t. lia.
  - intros Hbig Hsrs.
    apply (Setup_Ok g w maxOrder spr coefficients srs domain); assumption.
Qed.

Lemma Setup_spec_witness :
  ((Cardinality toy_domain0 < 2)%Z ->
   Setup (f97 5) (f97 28) 5 toy_spr_bsb toy_coefficients (toy_srs 34)
   = Err ErrCircuitTooSmall) /\
  ((2 <= Cardinality toy_domain0)%Z -> length (toy_srs 34) < 2 + 3 ->
   Setup (f97 5) (f97 28) 5 toy_spr_bsb toy_coefficients (toy_srs 34)
   = Err ErrSrsTooSmall) /\
  ((2 <= Cardinality toy_domain0)%Z -> 2 + 3 <= length (toy_srs 34) < 17 * 2 ->
   Setup (f97 5) (f97 28) 5 toy_spr_bsb toy_coefficients (toy_srs 34)
   = Err ErrInvalidPolynomialSize) /\
  ((2 <= Cardinality toy_domain0)%Z -> 17 * 2 <= length (toy_srs 34) ->
   exists (trace : Trace) (buf : list (Zmod 97)) (qpublic : G1Affine),
     NewTrace toy_spr_bsb toy_coefficients toy_domain0 = Some trace /\
     intertwine trace toy_domain0 = Some buf /\
     length buf = 17 * 2 /\
     kzg_Commit buf (toy_srs 34) = Ok qpublic /\
     let vk := {| vk_Size := Cardinality toy_domain0;
                  vk_SizeInv := Zmod.inv (Zmod.of_Z 97 (Cardinality toy_domain0));
                  vk_Generator := Generator toy_domain0;
                  NbPublicVariables := Z.of_nat (Public toy_spr_bsb);
                  CosetShift := FrMultiplicativeGen toy_domain0;
                  vk_Qcp := [];
                  Qpublic := qpublic;
                  CommitmentConstraintIndexes :=
                    CommitmentIndex <$> CommitmentInfo toy_spr_bsb |} in
     Setup (f97 5) (f97 28) 5 toy_spr_bsb toy_coefficients (toy_srs 34)
     = Ok ({| Kzg := toy_srs 34; Vk := vk |}, vk)).
Proof.
  apply (Setup_spec (f97 5) (f97 28) 5 toy_spr_bsb toy_coefficients (toy_srs 34)
           toy_domain0).
  - vm_compute. reflexivity.
  - vm_compute. reflexivity.
  - repeat constructor.
  - vm_compute. lia.
  - repeat constructor.
  - repeat constructor.
Defined.

(** ** The commitment of the quotient *)

Section QuotientCommitment.
Context {q : Z}.
#[local] Abbreviation fr := (Zmod q).

Lemma MultiExp_entangle (key sub : list (@G1Affine q)) (t id : nat) (cp : list fr) :
  0 < t -> length sub = length cp ->
  (forall i, i < length cp -> sub !! i = key !! (i * t + id)) ->
  MultiExp sub cp = MultiExp key (entangle t id cp).
Proof.
  intros Ht Hlen Hsub. unfold entangle. rewrite MultiExp_zeros.
  apply MultiExp_spread; [exact Ht|exact Hlen|].
  intros i Hi. rewrite Hsub by exact Hi. rewrite lookup_drop. f_equal. lia.
Qed.

Lemma quotient_subKey_length (kzgPk : list (@G1Affine q)) (t rh : nat) :
  forall (idx : list nat) (sub sub' : list G1Affine),
  for_each (fun sub i => g ← kzgPk !! (i * t + rh); store sub i g) idx sub = Some sub' ->
  length sub' = length sub.
Proof.
  induction idx as [|i idx IH]; intros sub sub' H.
  - injection H as <-. reflexivity.
  - cbn [for_each] in H.
    destruct (kzgPk !! (i * t + rh)) as [g|]; [|discriminate].
    cbn [mbind option_bind] in H.
    destruct (store sub i g) as [sub1|] eqn:Hs; [|discriminate].
    apply store_inv in Hs. destruct Hs as [_ ->].
    rewrite (IH _ _ H), length_insert. reflexivity.
Qed.

(** The sub-key loop of [commitToQuotient] after [k] passes. *)
Lemma quotient_subKey_loop (kzgPk : list (@G1Affine q)) (t rh len_h : nat) :
  forall k : nat, k <= len_h ->
  (forall i, i < k -> is_Some (kzgPk !! (i * t + rh))) ->
  exists sub : list G1Affine,
    for_each (fun sub i => g ← kzgPk !! (i * t + rh); store sub i g)
             (seq 0 k) (replicate len_h G1_zero) = Some sub /\
    length sub = len_h /\
    forall i, i < len_h ->
      sub !! i = if decide (i < k) then kzgPk !! (i * t + rh) else Some G1_zero.
Proof.
  induction k as [|k IH]; intros Hk Hkey.
  - eexists. split; [reflexivity|]. split; [apply length_replicate|].
    intros i Hi. destruct (decide (i < 0)); [lia|]. apply lookup_replicate_2. exact Hi.
  - destruct (IH ltac:(lia) ltac:(intros i Hi; apply Hkey; lia))
      as [sub [Hsub [Hlen Hlook]]].
    rewrite seq_S, for_each_app, Hsub. cbn [for_each Nat.add].
    destruct (Hkey k ltac:(lia)) as [g Hg]. rewrite Hg. cbn [mbind option_bind].
    rewrite store_Some by lia.
    eexists. split; [reflexivity|]. split; [rewrite length_insert; exact Hlen|].
    intros i Hi. destruct (decide (i = k)) as [->|Hne].
    + rewrite list_lookup_insert_eq by lia.
      destruct (decide (k < S k)); [|lia]. symmetry. exact Hg.
    + rewrite list_lookup_insert_ne by lia. rewrite Hlook by exact Hi.
      destruct (decide (i < k)), (decide (i < S k)); try lia; reflexivity.
Qed.

Lemma quotient_subKey_Some (kzgPk : list (@G1Affine q)) (t rh m : nat) :
  0 < m -> (m - 1) * t + rh < length kzgPk ->
  exists sub : list G1Affine,
    quotient_subKey kzgPk t rh m m = Some sub /\
    length sub = m /\
    forall i, i < m -> sub !! i = kzgPk !! (i * t + rh).
Proof.
  intros Hm Hkey.
  destruct (quotient_subKey_loop kzgPk t rh m m (le_n _)) as [sub [Hsub [Hlen Hlook]]].
  { intros i Hi. apply lookup_lt_is_Some_2. nia. }
  exists sub. split; [exact Hsub|]. split; [exact Hlen|].
  intros i Hi. rewrite Hlook by exact Hi. destruct (decide (i < m)); [reflexivity|lia].
Qed.

Lemma quotient_subKey_short (kzgPk : list (@G1Affine q)) (t rh len_h1 len_h : nat) :
  len_h < len_h1 -> quotient_subKey kzgPk t rh len_h1 len_h = None.
Proof.
  intros Hlt. unfold quotient_subKey.
  replace len_h1 with (len_h + S (len_h1 - S len_h)) by lia.
  rewrite seq_app, for_each_app.
  destruct (for_each _ (seq 0 len_h) _) as [sub|] eqn:Hsub; [|reflexivity].
  apply quotient_subKey_length in Hsub. rewrite length_replicate in Hsub.
  cbn [seq for_each Nat.add].
  destruct (kzgPk !! (len_h * t + rh)) as [g|]; [|reflexivity].
  cbn [mbind option_bind]. unfold store.
  destruct (decide (len_h < length sub)); [lia|]. reflexivity.
Qed.

(** X15. For three chunks of the same length m >= 1 and a key that reaches
    index (m-1) t + rh3, [commitToQuotient] returns the commitment, under
    the whole key, of H1(X^t) X^rh1 + H2(X^t) X^rh2 + H3(X^t) X^rh3, where
    t is the stride that the function computes and rh1, rh2, rh3 are the
    slots of the three chunks. *)
Theorem commitToQuotient_commits_entangled (vk : @VerifyingKey q)
    (kzgPk : list G1Affine) (h1 h2 h3 : list fr) :
  let t := commitToQuotient_t vk in
  let rh1 := length (vk_Qcp vk) + prover_h_1 in
  let rh2 := length (vk_Qcp vk) + prover_h_2 in
  let rh3 := length (vk_Qcp vk) + prover_h_3 in
  0 < length h1 -> length h2 = length h1 -> length h3 = length h1 ->
  (length h1 - 1) * t + rh3 < length kzgPk ->
  commitToQuotient vk kzgPk h1 h2 h3
  = Ok (G1_add (G1_add (MultiExp kzgPk (entangle t rh1 h1))
                       (MultiExp kzgPk (entangle t rh2 h2)))
               (MultiExp kzgPk (entangle t rh3 h3))).
Proof.
  intros t rh1 rh2 rh3 Hm H2 H3 Hkey.
  assert (Ht : 0 < t) by (unfold t, commitToQuotient_t, number_polynomials; lia).
  assert (Hrh : rh1 < rh3 /\ rh2 < rh3)
    by (unfold rh1, rh2, rh3, prover_h_1, prover_h_2, prover_h_3; lia).
  unfold commitToQuotient. fold t rh1 rh2 rh3. rewrite H2, H3.
  destruct (quotient_subKey_Some kzgPk t rh1 (length h1) Hm ltac:(lia))
    as [sub1 [Hs1 [Hl1 Hk1]]].
  destruct (quotient_subKey_Some kzgPk t rh2 (length h1) Hm ltac:(lia))
    as [sub2 [Hs2 [Hl2 Hk2]]].
  destruct (quotient_subKey_Some kzgPk t rh3 (length h1) Hm ltac:(lia))
    as [sub3 [Hs3 [Hl3 Hk3]]].
  rewrite Hs1, Hs2, Hs3. cbn [or_panic mbind result_bind].
  rewrite !kzg_Commit_Ok by lia. cbn [mbind result_bind].
  rewrite H2, H3, <- Hl1 at 1. rewrite <- Hl2 at 1. rewrite <- Hl3 at 1.
  rewrite !firstn_all.
  rewrite (MultiExp_entangle kzgPk sub1 t rh1 h1 Ht Hl1 Hk1).
  rewrite (MultiExp_entangle kzgPk sub2 t rh2 h2 Ht ltac:(lia)
             ltac:(rewrite H2; exact Hk2)).
  rewrite (MultiExp_entangle kzgPk sub3 t rh3 h3 Ht ltac:(lia)
             ltac:(rewrite H3; exact Hk3)).
  reflexivity.
Qed.

(** X16. [commitToQuotient] fills each of the three sub-keys over the
    length of the first chunk: when the second or the third chunk is
    shorter than the first one, the write [subPk.G1[i]] leaves the
    sub-key and the function panics. *)
Theorem commitToQuotient_short_chunk_panics (vk : @VerifyingKey q)
    (kzgPk : list G1Affine) (h1 h2 h3 : list fr) :
  length h2 < length h1 \/ length h3 < length h1 ->
  commitToQuotient vk kzgPk h1 h2 h3 = Panic.
Proof.
  intros Hshort. unfold commitToQuotient.
  destruct (quotient_subKey kzgPk _ _ (length h1) (length h1)) as [sub1|];
    [|reflexivity].
  cbn [or_panic mbind result_bind].
  destruct (decide (length h2 < length h1)) as [H2|H2].
  - rewrite (quotient_subKey_short kzgPk _ _ (length h1) (length h2) H2). reflexivity.
  - destruct (quotient_subKey kzgPk _ _ (length h1) (length h2)) as [sub2|];
      [|reflexivity].
    cbn [or_panic mbind result_bind].
    rewrite (quotient_subKey_short kzgPk _ _ (length h1) (length h3)) by lia.
    reflexivity.
Qed.

End QuotientCommitment.

Lemma commitToQuotient_commits_entangled_witness :
  commitToQuotient toy_vk (toy_srs 60) [f97 1; f97 2; f97 3; f97 4]
    [f97 5; f97 6; f97 7; f97 8] [f97 9; f97 10; f97 11; f97 12]
  = Ok (G1_add
          (G1_add (MultiExp (toy_srs 60)
                     (entangle 15 prover_h_1 [f97 1; f97 2; f97 3; f97 4]))
                  (MultiExp (toy_srs 60)
                     (entangle 15 prover_h_2 [f97 5; f97 6; f97 7; f97 8])))
          (MultiExp (toy_srs 60)
             (entangle 15 prover_h_3 [f97 9; f97 10; f97 11; f97 12]))).
Proof.
  apply (commitToQuotient_commits_entangled toy_vk (toy_srs 60)
           [f97 1; f97 2; f97 3; f97 4] [f97 5; f97 6; f97 7; f97 8]
           [f97 9; f97 10; f97 11; f97 12]).
  - simpl. lia.
  - reflexivity.
  - reflexivity.
  - vm_compute. lia.
Defined.

Lemma commitToQuotient_short_chunk_panics_witness :
  commitToQuotient toy_vk (toy_srs 60) [f97 1; f97 2; f97 3; f97 4]
    [f97 5; f97 6; f97 7] [f97 9; f97 10; f97 11; f97 12]
  = Panic.
Proof.
  apply (commitToQuotient_short_chunk_panics toy_vk (toy_srs 60)
           [f97 1; f97 2; f97 3; f97 4] [f97 5; f97 6; f97 7]
           [f97 9; f97 10; f97 11; f97 12]).
  left. simpl. lia.
Defined.

(** ** commitToLRO along any schedule *)

(** X17. Along any interleaving of the three goroutines and of the sum,
    and when no commitment fails, [commitToLRO] leaves in
    [proof.LROEntangled] the sum of the digests of those columns whose
    goroutine has assigned its digest before the sum is taken; the other
    columns contribute the zero point. *)
Theorem commitToLRO_sums_committed {q : Z} (domain0 : @Domain q)
    (key : list G1Affine) (t offsetQcp : nat) (xL xR xO bl br bo bz : Polynomial)
    (dl dr do : G1Affine) (sched : list lro_event) :
  commitToEntangledPolyAndBlinding domain0 key t xL bl (prover_l + offsetQcp)
    = Some (dl, None) ->
  commitToEntangledPolyAndBlinding domain0 key t xR br (prover_r + offsetQcp)
    = Some (dr, None) ->
  commitToEntangledPolyAndBlinding domain0 key t xO bo (prover_o + offsetQcp)
    = Some (do, None) ->
  lro_schedule sched ->
  commitToLRO domain0 key t offsetQcp xL xR xO [bl; br; bo; bz] sched
  = Ok (G1_add
          (G1_add (if decide (col_L ∈ committed_before_sum sched) then dl else G1_zero)
                  (if decide (col_R ∈ committed_before_sum sched) then dr else G1_zero))
          (if decide (col_O ∈ committed_before_sum sched) then do else G1_zero)).
Proof.
  intros Hl Hr Ho Hsched. unfold commitToLRO.
  change ([bl; br; bo; bz] !! id_Bl) with (Some bl).
  change ([bl; br; bo; bz] !! id_Br) with (Some br).
  change ([bl; br; bo; bz] !! id_Bo) with (Some bo).
  cbn [or_panic mbind result_bind]. rewrite Hl, Hr, Ho.
  unfold lro_schedule in Hsched. symmetry in Hsched.
  apply permutations_Permutation in Hsched.
  vm_compute in Hsched.
  repeat (apply elem_of_cons in Hsched; destruct Hsched as [->|Hsched];
          [reflexivity|]).
  apply elem_of_nil in Hsched. destruct Hsched.
Qed.

Lemma commitToLRO_sums_committed_witness :
  commitToLRO toy_domain0 (toy_srs 30) 15 0 toy_xL toy_xR toy_xO
    [NewPolynomial [] Canonical; NewPolynomial [] Canonical;
     NewPolynomial [] Canonical; NewPolynomial [] Canonical]
    [Commits col_R; Sums; Commits col_L; Commits col_O]
  = Ok (G1_add (G1_add G1_zero (f97 21)) G1_zero).
Proof.
  apply (commitToLRO_sums_committed toy_domain0 (toy_srs 30) 15 0 toy_xL toy_xR toy_xO
           (NewPolynomial [] Canonical) (NewPolynomial [] Canonical)
           (NewPolynomial [] Canonical) (NewPolynomial [] Canonical)
           (f97 77) (f97 21) (f97 53)
           [Commits col_R; Sums; Commits col_L; Commits col_O]).
  - vm_compute. reflexivity.
  - vm_compute. reflexivity.
  - vm_compute. reflexivity.
  - unfold lro_schedule.
    apply (proj1 (permutations_Permutation
                    [Commits col_R; Sums; Commits col_L; Commits col_O]
                    [Commits col_L; Commits col_R; Commits col_O; Sums])).
    vm_compute. repeat constructor.
Defined.

(** ** The commitment of the trace is the sum of the entangled commitments *)

Section Folding.
Context {q : Z}.
#[local] Abbreviation fr := (Zmod q).
Add Ring fr_ring_folding : (Zmod.ring_theory q).

#[local] Open Scope Zmod_scope.

Ltac points_as_scalars :=
  unfold G1_add, G1_sub, G1_zero, G1Affine in *;
  repeat match goal with
         | |- context [@MultiExp ?qq ?K ?s] =>
             generalize (@MultiExp qq K s : Zmod qq); intro
         end;
  match goal with |- @eq _ ?a ?b => change (@eq (Zmod q) a b) end.

Lemma sum_fr_app (l1 l2 : list fr) : sum_fr (l1 ++ l2) = sum_fr l1 + sum_fr l2.
Proof.
  induction l1 as [|x l1 IH].
  { change (sum_fr ([] ++ l2)) with (sum_fr l2).
    change (sum_fr ([] : list fr)) with (0 : fr). ring. }
  change (sum_fr ((x :: l1) ++ l2)) with (x + sum_fr (l1 ++ l2)).
  change (sum_fr (x :: l1)) with (x + sum_fr l1). rewrite IH. ring.
Qed.

Lemma sum_below_S (m : nat) (f : nat -> fr) :
  sum_below (S m) f = sum_below m f + f m.
Proof.
  unfold sum_below. rewrite seq_S, fmap_app, sum_fr_app.
  change (sum_fr (f <$> [(0 + m)%nat])) with (f m + 0). ring.
Qed.

Lemma sum_below_ext (m : nat) (f g : nat -> fr) :
  (forall k, (k < m)%nat -> f k = g k) -> sum_below m f = sum_below m g.
Proof.
  induction m as [|m IH]; intros H; [reflexivity|].
  rewrite !sum_below_S, IH by (intros k Hk; apply H; lia).
  rewrite (H m) by lia. reflexivity.
Qed.

Lemma sum_below_zero (m : nat) : sum_below m (fun _ => 0) = (0 : fr).
Proof.
  induction m as [|m IH]; [reflexivity|]. rewrite sum_below_S, IH. ring.
Qed.

Lemma sum_below_add (m : nat) (f g : nat -> fr) :
  sum_below m (fun k => f k + g k) = sum_below m f + sum_below m g.
Proof.
  induction m as [|m IH].
  { change (sum_below 0 ?h) with (0 : fr). ring. }
  rewrite !sum_below_S, IH. ring.
Qed.

Lemma sum_below_plus (a b : nat) (f : nat -> fr) :
  sum_below (a + b) f = sum_below a f + sum_below b (fun j => f (a + j)%nat).
Proof.
  induction b as [|b IH].
  - rewrite Nat.add_0_r. change (sum_below 0 ?h) with (0 : fr). ring.
  - replace (a + S b)%nat with (S (a + b)) by lia.
    rewrite !sum_below_S, IH. ring.
Qed.

Lemma sum_below_rows (t n : nat) (f : nat -> fr) :
  sum_below (n * t) f = sum_below n (fun i => sum_below t (fun j => f (i * t + j)%nat)).
Proof.
  induction n as [|n IH]; [reflexivity|].
  replace (S n * t)%nat with (n * t + t)%nat by lia.
  rewrite sum_below_plus, IH, sum_below_S. reflexivity.
Qed.

Lemma sum_below_swap (n m : nat) (f : nat -> nat -> fr) :
  sum_below n (fun i => sum_below m (fun j => f i j))
  = sum_below m (fun j => sum_below n (fun i => f i j)).
Proof.
  induction n as [|n IH].
  - change (sum_below 0 ?h) with (0 : fr). symmetry. apply sum_below_zero.
  - rewrite sum_below_S, IH. rewrite <- sum_below_add.
    apply sum_below_ext. intros j _. rewrite sum_below_S. reflexivity.
Qed.

(** A multi-exponentiation as a sum over the indices of the scalars. *)
Lemma MultiExp_snoc (K : list (@G1Affine q)) (l : list fr) (x : fr) :
  (MultiExp K (l ++ [x]) : fr)
  = MultiExp K l + x * default 0 (K !! length l).
Proof.
  revert K. induction l as [|c l IH]; intros K.
  - destruct K as [|g K].
    + change (MultiExp [] ([] ++ [x]) : fr) with (0 : fr).
      change (MultiExp [] [] : fr) with (0 : fr).
      change (default 0 (([] : list fr) !! length ([] : list fr))) with (0 : fr). ring.
    + cbn [app length]. rewrite MultiExp_cons, !MultiExp_nil_r.
      change ((g :: K) !! 0%nat) with (Some g).
      change (default 0 (Some g)) with (g : fr).
      unfold G1_add, G1_zero. ring.
  - destruct K as [|g K].
    + change (MultiExp [] ((c :: l) ++ [x]) : fr) with (0 : fr).
      change (MultiExp [] (c :: l) : fr) with (0 : fr).
      change (default 0 (([] : list fr) !! length (c :: l))) with (0 : fr). ring.
    + cbn [app length]. rewrite !MultiExp_cons.
      change ((g :: K) !! S (length l)) with (K !! length l).
      rewrite IH. points_as_scalars. ring.
Qed.

Lemma MultiExp_sum (K : list (@G1Affine q)) (l : list fr) :
  (MultiExp K l : fr)
  = sum_below (length l) (fun k => default 0 (l !! k) * default 0 (K !! k)).
Proof.
  induction l as [|x l IH] using rev_ind.
  - rewrite MultiExp_nil_r. reflexivity.
  - rewrite MultiExp_snoc, IH, length_app. cbn [length].
    replace (length l + 1)%nat with (S (length l)) by lia.
    rewrite sum_below_S. f_equal.
    + apply sum_below_ext. intros k Hk. rewrite lookup_app_l by exact Hk. reflexivity.
    + rewrite list_lookup_middle by reflexivity. reflexivity.
Qed.

Lemma MultiExp_take_scalars (K : list (@G1Affine q)) (l : list fr) :
  MultiExp (take (length l) K) l = MultiExp K l.
Proof.
  revert K. induction l as [|c l IH]; intros K.
  - rewrite !MultiExp_nil_r. reflexivity.
  - destruct K as [|g K]; [reflexivity|].
    cbn [length take]. rewrite !MultiExp_cons, IH. reflexivity.
Qed.

Lemma sum_fr_imap {A : Type} (f : nat -> A -> fr) (l : list A) :
  sum_fr (imap f l) = sum_below (length l) (fun j => from_option (f j) 0 (l !! j)).
Proof.
  induction l as [|x l IH] using rev_ind; [reflexivity|].
  rewrite imap_app, sum_fr_app, IH, length_app. cbn [length imap].
  replace (length l + 1)%nat with (S (length l)) by lia.
  rewrite sum_below_S. f_equal.
  - apply sum_below_ext. intros j Hj. rewrite lookup_app_l by exact Hj. reflexivity.
  - rewrite list_lookup_middle by reflexivity. cbn [from_option].
    rewrite Nat.add_0_r. change (sum_fr [?a]) with (a + 0). ring.
Qed.

(** The multi-exponentiation of the interleaved buffer is the sum, over the
    columns, of the multi-exponentiations of the entangled columns. *)
Lemma interleaved_MultiExp (tl : list (list fr)) (t n : nat)
    (K : list (@G1Affine q)) (buf : list fr) :
  (0 < t)%nat -> (0 < n)%nat -> (length tl <= t)%nat ->
  Forall (fun p => length p = n) tl ->
  (t * n <= length K)%nat -> length buf = (t * n)%nat ->
  (forall k, (k < t * n)%nat -> buf !! k = Some (filled tl t (length tl) n 0 k)) ->
  (MultiExp K buf : fr) = sum_fr (imap (fun j p => MultiExp K (entangle t j p)) tl).
Proof.
  intros Ht Hn Hcnp Hcols HK Hlen Hbuf.
  set (c := fun j i : nat => default (0 : fr) (tl !! j ≫= (fun p => p !! i))).
  set (kappa := fun k : nat => default (0 : fr) (K !! k)).
  transitivity (sum_below n (fun i => sum_below (length tl)
                                        (fun j => c j i * kappa (i * t + j)%nat))).
  - rewrite MultiExp_sum, Hlen. replace (t * n)%nat with (n * t)%nat by lia.
    rewrite sum_below_rows. apply sum_below_ext. intros i Hi.
    replace t with (length tl + (t - length tl))%nat at 1 by lia.
    rewrite sum_below_plus.
    rewrite (sum_below_ext (t - length tl) _ (fun _ => 0)).
    + rewrite sum_below_zero.
      rewrite (sum_below_ext (length tl) _ (fun j => c j i * kappa (i * t + j)%nat)).
      * ring.
      * intros j Hj. rewrite Hbuf by nia. unfold filled.
        destruct (cell_div_mod t i j ltac:(lia)) as [-> ->].
        destruct (decide _) as [_|Hno]; [reflexivity|]. exfalso. apply Hno. lia.
    + intros j Hj. rewrite Hbuf by nia. unfold filled.
      destruct (cell_div_mod t i (length tl + j) ltac:(lia)) as [-> ->].
      destruct (decide _) as [[Hyes _]|_]; [lia|].
      change (default 0 (Some (0 : fr))) with (0 : fr). ring.
  - rewrite sum_below_swap, sum_fr_imap. apply sum_below_ext. intros j Hj.
    destruct (lookup_lt_is_Some_2 tl j Hj) as [p Hp]. rewrite Hp. cbn [from_option].
    pose proof (proj1 (Forall_lookup _ _) Hcols j p Hp) as Hpn. cbn beta in Hpn.
    destruct (subKey_lookup K t j n) as [sub [_ [Hsl Hsub]]]; [right; nia|].
    rewrite <- (MultiExp_entangle K sub t j p Ht ltac:(lia)
                  ltac:(rewrite Hpn; exact Hsub)).
    rewrite MultiExp_sum, Hpn. apply sum_below_ext. intros i Hi.
    unfold c, kappa. rewrite Hp. cbn [mbind option_bind].
    rewrite Hsub by exact Hi. reflexivity.
Qed.

(** X18. When the key holds at least t n elements, the single commitment
    that [commitTrace] stores in [vk.Qpublic] is the sum, over the setup
    polynomials, of the commitment of P_j(X^t) X^j under the whole key:
    the commitment of Ql(X^t) + X Qr(X^t) + ... + X^8 Qcp(X^t) that the
    comment of the function announces. *)
Theorem commitTrace_folds (trace : @Trace q) (domain : Domain)
    (srsPk : list G1Affine) :
  let n := Z.to_nat (Cardinality domain) in
  let t := (15 + 2 * length (Qcp trace))%nat in
  (0 < Cardinality domain < 2 ^ 63)%Z ->
  Forall (fun p => Size p = n)
    ([Ql trace; Qr trace; Qm trace; Qo trace; Qk trace;
      S1 trace; S2 trace; S3 trace] ++ Qcp trace) ->
  (t * n <= length srsPk)%nat ->
  commitTrace trace domain srsPk
  = Ok (foldr G1_add G1_zero
          (imap (fun j p => MultiExp srsPk (entangle t j p)) (traceList trace domain))).
Proof.
  intros n t Hcard Hsizes Hkey.
  destruct (intertwine_ok trace domain ltac:(lia) Hsizes)
    as (buf & Hbuf & Hlen & _ & Hlook).
  fold n in Hlen, Hlook. fold t in Hlen, Hlook.
  assert (Hn : (0 < n)%nat) by (unfold n; lia).
  assert (Htl : length (traceList trace domain) = (setup_s3 + length (Qcp trace) + 1)%nat).
  { unfold traceList, setup_s3. rewrite length_fmap, length_app. cbn [length]. lia. }
  unfold commitTrace. rewrite Hbuf. cbn [or_panic mbind result_bind].
  rewrite kzg_Commit_Ok by (unfold t in *; nia). f_equal.
  rewrite MultiExp_take_scalars.
  apply (interleaved_MultiExp (traceList trace domain) t n srsPk buf).
  - unfold t. lia.
  - exact Hn.
  - rewrite Htl. unfold t, setup_s3. lia.
  - unfold traceList. apply Forall_fmap. eapply Forall_impl; [exact Hsizes|].
    intros p Hp. cbn. pose proof (Size_ToCanonical domain p) as Hs.
    unfold Size in Hs, Hp. lia.
  - exact Hkey.
  - exact Hlen.
  - intros k Hk. rewrite Htl. apply Hlook. exact Hk.
Qed.

End Folding.

Lemma commitTrace_folds_witness :
  commitTrace toy_trace toy_domain0 (toy_srs 34)
  = Ok (foldr G1_add G1_zero
          (imap (fun j p => MultiExp (toy_srs 34) (entangle 17 j p))
                (traceList toy_trace toy_domain0))).
Proof.
  apply (commitTrace_folds toy_trace toy_domain0 (toy_srs 34)).
  - vm_compute. split; reflexivity.
  - repeat constructor.
  - vm_compute. lia.
Defined.

(** ** The points of the coset and the table of inverses *)

Section Division.
Context {q : Z}.
#[local] Abbreviation fr := (Zmod q).
Add Ring fr_ring_division : (Zmod.ring_theory q).

#[local] Open Scope Zmod_scope.

Lemma mapM_imap_total {A B : Type} (f : nat * A -> option B) (h : nat -> A -> B)
    (l : list A) :
  (forall k x, l !! k = Some x -> f (k, x) = Some (h k x)) ->
  mapM f (imap pair l) = Some (imap h l).
Proof.
  intros H.
  rewrite (mapM_fmap_total f (fun kx => h kx.1 kx.2)).
  - f_equal. apply list_eq. intros k.
    rewrite list_lookup_fmap, !list_lookup_imap.
    destruct (l !! k); reflexivity.
  - intros [k x] Hin. apply list_elem_of_lookup in Hin. destruct Hin as [i Hi].
    rewrite list_lookup_imap in Hi.
    destruct (l !! i) as [y|] eqn:Hy; [|discriminate].
    cbn in Hi. injection Hi as <- <-. apply H. exact Hy.
Qed.

(** The value of X^n at the point of index [k] of the coset only depends
    on [k mod rho]. *)
Lemma coset_point_pow (u w : fr) (n : Z) (rho k : nat) :
  (0 <= n)%Z -> (0 < rho)%nat -> Exp w (n * Z.of_nat rho) = 1 ->
  Exp u n * Exp (Exp w n) (Z.of_nat (k mod rho))
  = Exp (u * Exp w (Z.of_nat k)) n.
Proof.
  intros Hn Hrho Hone. unfold Exp in *.
  rewrite Zmod.pow_mul_l_nonneg by exact Hn. f_equal.
  rewrite <- !Zmod.pow_mul_r_nonneg by lia.
  assert (E : (Z.of_nat k * n
               = n * Z.of_nat rho * Z.of_nat (k / rho) + n * Z.of_nat (k mod rho))%Z)
    by (pose proof (Nat.div_mod_eq k rho); nia).
  rewrite E, Zmod.pow_add_r_nonneg by nia.
  rewrite (Zmod.pow_mul_r_nonneg w (n * Z.of_nat rho) (Z.of_nat (k / rho))) by nia.
  rewrite Hone, Zmod.pow_1_l. ring.
Qed.

End Division.

(** ** Keys that are too short for the quotient *)

Lemma quotient_subKey_key_short {q : Z} (kzgPk : list (@G1Affine q))
    (t rh len_h1 len_h : nat) :
  0 < len_h1 -> length kzgPk <= (len_h1 - 1) * t + rh ->
  quotient_subKey kzgPk t rh len_h1 len_h = None.
Proof.
  intros Hpos Hshort. unfold quotient_subKey.
  replace len_h1 with (S (len_h1 - 1)) at 1 by lia.
  rewrite seq_S, for_each_app.
  destruct (for_each _ (seq 0 (len_h1 - 1)) _) as [sub|]; [|reflexivity].
  cbn [for_each Nat.add].
  rewrite (lookup_ge_None_2 kzgPk) by lia. reflexivity.
Qed.

(** X20. [commitToQuotient] reads the key up to index (m-1) t + rh3, m
    being the length of the first chunk: on a shorter key the index is
    out of range and the function panics, it does not return an error. *)
Theorem commitToQuotient_key_too_short {q : Z} (vk : @VerifyingKey q)
    (kzgPk : list G1Affine) (h1 h2 h3 : list (Zmod q)) :
  0 < length h1 ->
  length kzgPk
  <= (length h1 - 1) * commitToQuotient_t vk + (length (vk_Qcp vk) + prover_h_3) ->
  commitToQuotient vk kzgPk h1 h2 h3 = Panic.
Proof.
  intros Hpos Hshort. unfold commitToQuotient.
  rewrite (quotient_subKey_key_short kzgPk _ (length (vk_Qcp vk) + prover_h_3)
             (length h1) (length h3) Hpos Hshort).
  destruct (quotient_subKey kzgPk _ _ (length h1) (length h1)) as [sub1|];
    [|reflexivity].
  cbn [or_panic mbind result_bind].
  destruct (quotient_subKey kzgPk _ _ (length h1) (length h2)) as [sub2|];
    reflexivity.
Qed.

Lemma commitToQuotient_key_too_short_witness :
  commitToQuotient toy_vk (toy_srs 59) [f97 1; f97 2; f97 3; f97 4]
    [f97 5; f97 6; f97 7; f97 8] [f97 9; f97 10; f97 11; f97 12]
  = Panic.
Proof.
  apply (commitToQuotient_key_too_short toy_vk (toy_srs 59)
           [f97 1; f97 2; f97 3; f97 4] [f97 5; f97 6; f97 7; f97 8]
           [f97 9; f97 10; f97 11; f97 12]).
  - simpl. lia.
  - vm_compute. lia.
Defined.

(** ** Wires that name no variable *)

Lemma link_step_lengths (lro : list nat) :
  forall (idx : list nat) (cycle permutation cycle' permutation' : list Z),
  for_each (link_step lro) idx (cycle, permutation) = Some (cycle', permutation') ->
  length cycle' = length cycle.
Proof.
  induction idx as [|i idx IH]; intros cycle permutation cycle' permutation' H.
  - injection H as <- <-. reflexivity.
  - cbn [for_each] in H.
    destruct (link_step lro (cycle, permutation) i) as [[c1 p1]|] eqn:Hstep;
      [|discriminate].
    rewrite (IH _ _ _ _ H). unfold link_step in Hstep.
    destruct (lro !! i) as [v|]; [|discriminate]. cbn [mbind option_bind] in Hstep.
    destruct (cycle !! v) as [c|]; [|discriminate]. cbn [mbind option_bind] in Hstep.
    destruct (if decide (c <> (-1)%Z) then store permutation i c else Some permutation)
      as [p|]; [|discriminate].
    cbn [mbind option_bind] in Hstep.
    destruct (store cycle v (Z.of_nat i)) as [c2|] eqn:Hs; [|discriminate].
    cbn [mbind option_bind] in Hstep. injection Hstep as <- <-.
    apply store_inv in Hs. destruct Hs as [_ ->]. apply length_insert.
Qed.

(** X21. When some position of lro holds an identifier that is not below
    [nbVariables] (a wire that names no variable, or any position at all
    when there is no variable), [buildPermutation] panics on
    [cycle[lro[i]]]. *)
Theorem buildPermutation_unknown_variable (spr : SparseR1CS)
    (sizeSolution nbVariables : nat) (lro : list nat) :
  build_lro spr sizeSolution = Some lro ->
  Exists (fun v => nbVariables <= v) lro ->
  buildPermutation spr sizeSolution nbVariables = None.
Proof.
  intros Hlro Hbad. unfold buildPermutation. rewrite Hlro. cbn [mbind option_bind].
  apply Exists_exists in Hbad. destruct Hbad as [v [Hin Hv]].
  apply list_elem_of_lookup in Hin. destruct Hin as [i Hi].
  pose proof (lookup_lt_Some _ _ _ Hi) as Hlt.
  replace (length lro) with (i + S (length lro - S i)) by lia.
  rewrite seq_app, for_each_app.
  destruct (for_each (link_step lro) (seq 0 i) _) as [[cycle permutation]|] eqn:Hpre;
    [|reflexivity].
  apply link_step_lengths in Hpre. rewrite length_replicate in Hpre.
  cbn [seq for_each Nat.add]. unfold link_step at 1. rewrite Hi.
  cbn [mbind option_bind]. rewrite (lookup_ge_None_2 cycle v) by lia. reflexivity.
Qed.

Lemma buildPermutation_unknown_variable_witness :
  buildPermutation
    (mkSparseR1CS 1 1 1
       [mkSparseR1C 0 1 5 0 0 0 0 0; mkSparseR1C 2 1 0 0 0 0 0 0] []) 4 3
  = None.
Proof.
  apply (buildPermutation_unknown_variable
           (mkSparseR1CS 1 1 1
              [mkSparseR1C 0 1 5 0 0 0 0 0; mkSparseR1C 2 1 0 0 0 0 0 0] []) 4 3
           [0; 0; 2; 0; 0; 1; 1; 0; 0; 5; 0; 0]).
  - reflexivity.
  - do 9 apply Exists_cons_tl. apply Exists_cons_hd. lia.
Defined.
(** X22. An SRS that [Setup] accepts need not be long enough for the
    prover. On a well-formed circuit with a domain of n >= 2 points,
    [Setup] succeeds as soon as the SRS has t n elements; but the three
    chunks of the quotient have n + 2 coefficients each, and with the
    keys that [Setup] returns [commitToQuotient] reads the key up to
    index 15 (n + 1) + 14: on an SRS that is not longer, it panics. *)
Theorem Setup_key_too_short_for_quotient {q : Z} (g w : Zmod q) (maxOrder : Z)
    (spr : SparseR1CS) (coefficients : list (Zmod q)) (srs : list G1Affine)
    (domain : Domain) :
  let n := Z.to_nat (Cardinality domain) in
  let t := 15 + 2 * length (CommitmentInfo spr) in
  (Z.of_nat (GetNbConstraints spr + Public spr) < 2 ^ 62)%Z ->
  initFFTDomain g w maxOrder spr = Some domain ->
  wf_wires spr -> 0 < nbVariables spr ->
  wf_selectors (length coefficients) spr ->
  wf_commitments spr n ->
  (2 <= Cardinality domain)%Z ->
  t * n <= length srs <= 15 * (n + 1) + 14 ->
  exists (pk : ProvingKey) (vk : VerifyingKey),
    Setup g w maxOrder spr coefficients srs = Ok (pk, vk) /\
    forall h1 h2 h3 : list (Zmod q), length h1 = n + 2 ->
      commitToQuotient (Vk pk) (Kzg pk) h1 h2 h3 = Panic.
Proof.
  intros n t Hint Hdom Hwires Hvars Hsel Hcom Hbig [Hlo Hhi].
  destruct (Setup_Ok g w maxOrder spr coefficients srs domain Hint Hdom Hwires Hvars
              Hsel Hcom Hbig Hlo)
    as (trace & buf & qpublic & _ & _ & _ & _ & HOk).
  cbv zeta in HOk. eexists _, _. split; [exact HOk|].
  intros h1 h2 h3 Hh1. cbn [Vk Kzg]. unfold commitToQuotient.
  cbn [vk_Qcp length]. unfold commitToQuotient_t. cbn [vk_Qcp length].
  rewrite (quotient_subKey_key_short srs _ (0 + prover_h_3) (length h1) (length h3))
    by (rewrite Hh1; unfold number_polynomials, prover_h_3; fold n; lia).
  destruct (quotient_subKey srs _ _ (length h1) (length h1)) as [sub1|];
    [|reflexivity].
  cbn [or_panic mbind result_bind].
  destruct (quotient_subKey srs _ _ (length h1) (length h2)) as [sub2|];
    reflexivity.
Qed.

Lemma Setup_key_too_short_for_quotient_witness :
  exists (pk : ProvingKey) (vk : VerifyingKey),
    Setup (f97 5) (f97 28) 5 toy_spr toy_coefficients (toy_srs 44) = Ok (pk, vk) /\
    forall h1 h2 h3 : list (Zmod 97), length h1 = 2 + 2 ->
      commitToQuotient (Vk pk) (Kzg pk) h1 h2 h3 = Panic.
Proof.
  apply (Setup_key_too_short_for_quotient (f97 5) (f97 28) 5 toy_spr toy_coefficients
           (toy_srs 44) toy_domain0).
  - vm_compute. reflexivity.
  - vm_compute. reflexivity.
  - repeat constructor.
  - vm_compute. lia.
  - repeat constructor.
  - repeat constructor.
  - vm_compute. discriminate.
  - vm_compute. lia.
Defined.

(** ** The cosets of computeNumerator *)

Section Cosets.
Context {q : Z}.
#[local] Abbreviation fr := (Zmod q).
Add Ring fr_ring_cosets : (Zmod.ring_theory q).

#[local] Open Scope Zmod_scope.

Lemma fst_coset_passes (n : Z) (shifters : list fr) :
  forall (coset : fr) (bp : list (@Polynomial q)),
  (foldl (coset_pass n) (coset, bp) shifters).1 = foldl Zmod.mul coset shifters.
Proof.
  induction shifters as [|s shifters IH]; intros coset bp; [reflexivity|].
  cbn [foldl]. unfold coset_pass at 2. cbv zeta. rewrite IH. reflexivity.
Qed.

Lemma foldl_mul_powers (a w : fr) (k : nat) :
  foldl Zmod.mul a (replicate k w) = a * Exp w (Z.of_nat k).
Proof.
  revert a. induction k as [|k IH]; intros a.
  - cbn [replicate foldl]. unfold Exp. rewrite Zmod.pow_0_r. ring.
  - cbn [replicate foldl]. rewrite IH. unfold Exp.
    rewrite Nat2Z.inj_succ, Zmod.pow_succ_nonneg_r by lia. ring.
Qed.

(** X23. The loop of [computeNumerator] and the table of
    [evaluateXnMinusOneDomainBigCoset] walk through the same cosets: in
    pass i the current shift [coset] is u w^i, and the value
    [tmp = coset^n - 1], by which the blinding polynomials are scaled,
    is the one whose inverse the table holds at index i. *)
Theorem computeNumerator_cosets (domain0 domain1 : @Domain q)
    (bp : list Polynomial) :
  let n := Cardinality domain0 in
  let rho := Z.to_nat (Cardinality domain1 / n) in
  let u := FrMultiplicativeGen domain1 in
  let w := Generator domain1 in
  (0 < rho)%nat -> (0 <= n)%Z ->
  exists shifters : list fr,
    shifters_of domain1 rho = Some shifters /\
    length shifters = rho /\
    forall i : nat, (i < rho)%nat ->
      let coset := (foldl (coset_pass n) (1, bp) (take (S i) shifters)).1 in
      coset = u * Exp w (Z.of_nat i) /\
      evaluateXnMinusOneDomainBigCoset domain0 domain1 !! i
      = Some (Zmod.inv (Exp coset n - 1)).
Proof.
  intros n rho u w Hrho Hn.
  exists (u :: replicate (rho - 1) w).
  split; [apply shifters_of_eq; exact Hrho|].
  split; [cbn [length]; rewrite length_replicate; lia|].
  intros i Hi. cbv zeta.
  assert (Hc : (foldl (coset_pass n) (1, bp) (take (S i) (u :: replicate (rho - 1) w))).1
               = u * Exp w (Z.of_nat i)).
  { rewrite fst_coset_passes. cbn [take foldl].
    rewrite take_replicate. replace (i `min` (rho - 1))%nat with i by lia.
    rewrite foldl_mul_powers. ring. }
  split; [exact Hc|]. rewrite Hc.
  unfold evaluateXnMinusOneDomainBigCoset. fold n rho u w.
  rewrite list_lookup_fmap, lookup_seq_lt by exact Hi.
  cbn [fmap option_fmap option_map Nat.add]. do 3 f_equal.
  unfold Exp. rewrite Zmod.pow_mul_l_nonneg by exact Hn. f_equal.
  rewrite <- !Zmod.pow_mul_r_nonneg by lia. f_equal. lia.
Qed.

End Cosets.

Lemma computeNumerator_cosets_witness :
  exists shifters : list (Zmod 97),
    shifters_of toy_domain1 8 = Some shifters /\
    length shifters = 8 /\
    forall i : nat, i < 8 ->
      let coset := (foldl (coset_pass 2) (Zmod.one, toy_blinding) (take (S i) shifters)).1 in
      coset = Zmod.mul (f97 5) (Exp (f97 8) (Z.of_nat i)) /\
      evaluateXnMinusOneDomainBigCoset toy_domain0 toy_domain1 !! i
      = Some (Zmod.inv (Zmod.sub (Exp coset 2) Zmod.one)).
Proof.
  apply (computeNumerator_cosets toy_domain0 toy_domain1 toy_blinding).
  - vm_compute. lia.
  - vm_compute. discriminate.
Defined.

(** ** What commitToEntangledPolyAndBlinding returns when it fails *)

Lemma subKey_key_short {q : Z} (key : list (@G1Affine q)) (t id len : nat) :
  0 < len -> length key <= (len - 1) * t + id -> subKey key t id len = None.
Proof.
  intros Hlen Hkey. unfold subKey.
  destruct (mapM _ (seq 0 len)) as [sub|] eqn:E; [|reflexivity].
  exfalso. apply mapM_Some in E.
  destruct (Forall2_lookup_l _ _ _ (len - 1) (len - 1) E
              (lookup_seq_lt 0 len (len - 1) ltac:(lia))) as [g [_ Hg]].
  cbn in Hg. apply lookup_lt_Some in Hg. lia.
Qed.

(** X24. On a polynomial with as many coefficients as the small domain
    has points, at least one, [commitToEntangledPolyAndBlinding] never
    returns an error: whenever it returns, the error of [kzg.Commit] is
    nil.  A key that does not reach index (n - 1) t + id is not reported:
    the sub-key loop reads out of range and the function panics. *)
Theorem commitToEntangled_failures {q : Z} (domain0 : @Domain q)
    (key : list G1Affine) (t : nat) (p b : Polynomial) (id : nat) :
  let n := Z.to_nat (Cardinality domain0) in
  Size p = n -> 0 < n ->
  (length key <= (n - 1) * t + id ->
   commitToEntangledPolyAndBlinding domain0 key t p b id = None) /\
  (forall c e, commitToEntangledPolyAndBlinding domain0 key t p b id = Some (c, e) ->
     e = None).
Proof.
  intros n Hsize Hn. pose proof (Size_ToCanonical domain0 p) as Hs.
  unfold Size in Hs, Hsize. split.
  - intros Hkey. unfold commitToEntangledPolyAndBlinding.
    rewrite Hs, Hsize. rewrite subKey_key_short by assumption. reflexivity.
  - intros c e H. unfold commitToEntangledPolyAndBlinding in H. fold n in H.
    destruct (subKey key t id _) as [sub|] eqn:Hsub; [|discriminate].
    cbn [mbind option_bind] in H.
    unfold subKey in Hsub. apply length_mapM in Hsub. rewrite length_seq in Hsub.
    unfold kzg_Commit in H.
    destruct (Nat.eqb_spec (length (Coefficients (ToCanonical domain0 p))) 0)
      as [Hz|Hnz]; [lia|].
    cbn [orb] in H.
    destruct (Nat.ltb_spec (length sub) (length (Coefficients (ToCanonical domain0 p))));
      [lia|].
    destruct (commitBlindingFactor n b key); [|discriminate].
    cbn [mbind option_bind] in H. injection H as _ <-. reflexivity.
Qed.

Lemma commitToEntangled_failures_witness :
  commitToEntangledPolyAndBlinding toy_domain0 (toy_srs 20) 17 toy_xL
    (NewPolynomial [] Canonical) 9 = None /\
  (forall c e,
     commitToEntangledPolyAndBlinding toy_domain0 (toy_srs 20) 17 toy_xL
       (NewPolynomial [] Canonical) 9 = Some (c, e) ->
     e = None).
Proof.
  destruct (commitToEntangled_failures toy_domain0 (toy_srs 20) 17 toy_xL
              (NewPolynomial [] Canonical) 9) as [Hshort Herr].
  - reflexivity.
  - vm_compute. lia.
  - split; [apply Hshort; vm_compute; lia|exact Herr].
Defined.

(** ** batchApply and the shared polynomial of Z *)

Section BatchApply.
Context {P : Type}.
Variable x : list (option nat).
Variable fn : P -> P.

#[local] Abbreviation visit := (batchApply_target x).

Hypothesis no_alias : forall i j a, visit i = Some a -> visit j = Some a -> i = j.

Lemma batchApply_step (mem : gmap nat P) (i : nat) :
  (if decide (i = id_ZS) then mem
   else match x !! i with
        | Some (Some addr) => alter fn addr mem
        | _ => mem
        end)
  = match visit i with Some addr => alter fn addr mem | None => mem end.
Proof.
  unfold batchApply_target. destruct (decide (i = id_ZS)); [reflexivity|].
  destruct (x !! i) as [[addr|]|]; reflexivity.
Qed.

Lemma batchApply_untouched (sched : list nat) :
  forall (mem : gmap nat P) (addr : nat),
  (forall i, i ∈ sched -> visit i <> Some addr) ->
  batchApply x fn sched mem !! addr = mem !! addr.
Proof.
  induction sched as [|i sched IH]; intros mem addr H; [reflexivity|].
  unfold batchApply. cbn [foldl]. rewrite batchApply_step.
  fold (batchApply x fn sched
          (match visit i with Some a => alter fn a mem | None => mem end)).
  rewrite IH by (intros j Hj; apply H; right; exact Hj).
  pose proof (H i ltac:(left)) as Hi.
  destruct (visit i) as [a|]; [|reflexivity].
  apply lookup_alter_ne. congruence.
Qed.

Lemma batchApply_touched (sched : list nat) :
  NoDup sched ->
  forall (mem : gmap nat P) (i addr : nat),
  i ∈ sched -> visit i = Some addr ->
  batchApply x fn sched mem !! addr = fn <$> mem !! addr.
Proof.
  induction 1 as [|i0 sched Hnot Hnodup IH]; intros mem i addr Hin Hv.
  - apply elem_of_nil in Hin. destruct Hin.
  - unfold batchApply. cbn [foldl]. rewrite batchApply_step.
    fold (batchApply x fn sched
            (match visit i0 with Some a => alter fn a mem | None => mem end)).
    apply elem_of_cons in Hin. destruct Hin as [->|Hin].
    + rewrite Hv. rewrite batchApply_untouched.
      * apply lookup_alter_eq.
      * intros j Hj Hvj. apply Hnot. rewrite (no_alias i0 j addr Hv Hvj). exact Hj.
    + rewrite (IH _ i addr Hin Hv).
      destruct (visit i0) as [a|] eqn:Hv0; [|reflexivity].
      assert (Hne : a <> addr).
      { intros Heq. subst a. apply Hnot.
        rewrite (no_alias i0 i addr Hv0 Hv). exact Hin. }
      rewrite (lookup_alter_ne fn mem a addr Hne). reflexivity.
Qed.

End BatchApply.

(** X25. When no two entries of [x] other than [x[id_ZS]] hold the same
    address, [batchApply] runs [fn] exactly once on the polynomial of
    every entry other than [x[id_ZS]], whatever the order in which the
    goroutines take effect, and leaves every other polynomial as it was.
    In particular the polynomial that [x[id_ZS]] shares with [x[id_Z]] is
    transformed once, not twice. *)
Theorem batchApply_once {P : Type} (x : list (option nat)) (fn : P -> P)
    (sched : list nat) (mem : gmap nat P) :
  batchApply_schedule x sched ->
  (forall i j a, i <> id_ZS -> j <> id_ZS ->
     x !! i = Some (Some a) -> x !! j = Some (Some a) -> i = j) ->
  forall addr : nat,
    ((exists i, i <> id_ZS /\ x !! i = Some (Some addr)) ->
     batchApply x fn sched mem !! addr = fn <$> mem !! addr) /\
    ((forall i, i <> id_ZS -> x !! i <> Some (Some addr)) ->
     batchApply x fn sched mem !! addr = mem !! addr).
Proof.
  intros Hsched Halias addr.
  assert (Hvisit : forall i a,
            batchApply_target x i = Some a <->
            i <> id_ZS /\ x !! i = Some (Some a)).
  { intros i a. unfold batchApply_target.
    destruct (decide (i = id_ZS)) as [->|Hne].
    - split; [discriminate|]. intros [H _]. destruct H. reflexivity.
    - destruct (x !! i) as [[b|]|]; cbn; split.
      + intros [= ->]. split; [exact Hne|reflexivity].
      + intros [_ [= ->]]. reflexivity.
      + discriminate.
      + intros [_ H]. discriminate.
      + discriminate.
      + intros [_ H]. discriminate. }
  assert (Hno : forall i j a,
            batchApply_target x i = Some a -> batchApply_target x j = Some a -> i = j).
  { intros i j a Hi Hj. apply Hvisit in Hi. apply Hvisit in Hj.
    destruct Hi as [Hi1 Hi2], Hj as [Hj1 Hj2]. exact (Halias i j a Hi1 Hj1 Hi2 Hj2). }
  unfold batchApply_schedule in Hsched.
  split.
  - intros [i [Hne Hi]].
    assert (Hnodup : NoDup sched) by (rewrite Hsched; apply NoDup_seq).
    apply (batchApply_touched x fn Hno sched Hnodup mem i addr).
    + rewrite Hsched. apply elem_of_seq. apply lookup_lt_Some in Hi. lia.
    + apply Hvisit. split; assumption.
  - intros Hnone. apply (batchApply_untouched x fn sched).
    intros i _ Hv. apply Hvisit in Hv. destruct Hv as [Hne Hi].
    exact (Hnone i Hne Hi).
Qed.

Lemma batchApply_once_witness :
  let x := [Some 10; Some 11; Some 12; Some 13; Some 13; None] in
  let mem : gmap nat nat := list_to_map [(10, 1); (11, 2); (12, 3); (13, 4); (14, 5)] in
  ((exists i, i <> id_ZS /\ x !! i = Some (Some 13)) ->
   batchApply x S [5; 3; 4; 0; 2; 1] mem !! 13 = S <$> mem !! 13) /\
  ((forall i, i <> id_ZS -> x !! i <> Some (Some 13)) ->
   batchApply x S [5; 3; 4; 0; 2; 1] mem !! 13 = mem !! 13).
Proof.
  refine (batchApply_once [Some 10; Some 11; Some 12; Some 13; Some 13; None] S
            [5; 3; 4; 0; 2; 1]
            (list_to_map [(10, 1); (11, 2); (12, 3); (13, 4); (14, 5)]) _ _ 13).
  - unfold batchApply_schedule.
    apply (proj1 (permutations_Permutation [5; 3; 4; 0; 2; 1] (seq 0 6))).
    vm_compute. repeat constructor.
  - intros i j a Hi Hj Hxi Hxj. unfold id_ZS in Hi, Hj.
    assert (Hi' : i < 6) by (apply lookup_lt_Some in Hxi; simpl in Hxi; lia).
    assert (Hj' : j < 6) by (apply lookup_lt_Some in Hxj; simpl in Hxj; lia).
    destruct i as [|[|[|[|[|[|i]]]]]]; try lia;
      destruct j as [|[|[|[|[|[|j]]]]]]; try lia; try reflexivity;
      cbn in Hxi, Hxj; congruence.
Defined.

(** ** Blinding with the orders of the source *)

Section NoBlinding.
Context {q : Z}.
#[local] Abbreviation fr := (Zmod q).
Add Ring fr_ring_noblinding : (Zmod.ring_theory q).

#[local] Open Scope Zmod_scope.

(** X26. With the blinding orders of the source, all -1, blinding does
    nothing: for every polynomial [b] of [s.bp] as
    [initBlindingPolynomials] leaves it, [getBlindedCoefficients] returns
    the coefficients of [p] unchanged, [commitBlindingFactor] is the zero
    point, so that [commitToPolyAndBlinding] is the plain commitment of
    [p], and [evaluateBlinded] is the plain evaluation of [p]. *)
Theorem blinding_is_deactivated (rand : nat -> fr) (domain0 : @Domain q)
    (key : list G1Affine) (p : Polynomial) (zeta : fr) :
  let n := Z.to_nat (Cardinality domain0) in
  (n <= length key)%nat ->
  exists bp : list Polynomial,
    initBlindingPolynomials rand = Some bp /\
    length bp = nb_blinding_polynomials /\
    forall b, b ∈ bp ->
      getBlindedCoefficients p b = Some (Coefficients p) /\
      commitBlindingFactor n b key = Some G1_zero /\
      (basis p = Canonical ->
       evaluateBlinded p b zeta = Some (Evaluate (Coefficients p) zeta)) /\
      ((0 < Size p <= length key)%nat ->
       commitToPolyAndBlinding domain0 key p b
       = Some (MultiExp (take (Size p) key) (Coefficients (ToCanonical domain0 p)),
               None)).
Proof.
  intros n Hkey. exists (replicate 4 (NewPolynomial [] Canonical)).
  split; [reflexivity|]. split; [reflexivity|].
  intros b Hb. apply elem_of_replicate in Hb. destruct Hb as [-> _].
  assert (Hcb : commitBlindingFactor n (NewPolynomial ([] : list fr) Canonical) key
                = Some G1_zero).
  { rewrite commitBlindingFactor_Some by (cbn; lia).
    cbn [Size Coefficients length]. rewrite !take_0.
    f_equal. unfold G1_zero. change (MultiExp [] []) with (0 : fr). ring. }
  split; [|split; [exact Hcb|split]].
  - unfold getBlindedCoefficients. cbn [Coefficients length seq for_each].
    rewrite app_nil_r. reflexivity.
  - intros Hp. unfold evaluateBlinded, Polynomial_Evaluate. rewrite Hp.
    cbn [basis Coefficients mbind option_bind]. f_equal.
    change (Evaluate [] zeta) with (0 : fr). ring.
  - intros Hsize. unfold commitToPolyAndBlinding. fold n.
    pose proof (Size_ToCanonical domain0 p) as Hs. unfold Size in Hs, Hsize.
    rewrite kzg_Commit_Ok by lia. rewrite Hcb. cbn [mbind option_bind].
    rewrite Hs. do 2 f_equal. unfold G1_add, G1_zero, Size.
    generalize (MultiExp (take (length (Coefficients p)) key)
                  (Coefficients (ToCanonical domain0 p)) : Zmod q).
    intros z. change (@eq (Zmod q) (z + 0) z). ring.
Qed.

End NoBlinding.

Lemma blinding_is_deactivated_witness :
  exists bp : list (@Polynomial 97),
    initBlindingPolynomials (fun i => f97 (Z.of_nat i)) = Some bp /\
    length bp = nb_blinding_polynomials /\
    forall b, b ∈ bp ->
      getBlindedCoefficients toy_xZ b = Some (Coefficients toy_xZ) /\
      commitBlindingFactor 2 b (toy_srs 30) = Some G1_zero /\
      (basis toy_xZ = Canonical ->
       evaluateBlinded toy_xZ b (f97 7) = Some (Evaluate (Coefficients toy_xZ) (f97 7))) /\
      (0 < Size toy_xZ <= length (toy_srs 30) ->
       commitToPolyAndBlinding toy_domain0 (toy_srs 30) toy_xZ b
       = Some (MultiExp (take (Size toy_xZ) (toy_srs 30))
                 (Coefficients (ToCanonical toy_domain0 toy_xZ)),
               None)).
Proof.
  apply (blinding_is_deactivated (fun i => f97 (Z.of_nat i)) toy_domain0 (toy_srs 30)
           toy_xZ (f97 7)).
  vm_compute. lia.
Defined.

(** ** The constraints of the numerator *)

Section Constraints.
Context {q : Z}.
#[local] Abbreviation fr := (Zmod q).
Add Ring fr_ring_constraints : (Zmod.ring_theory q).

#[local] Open Scope Zmod_scope.

Lemma length_custom_gates (qc : list (fr * fr)) :
  length (custom_gates qc) = (2 * length qc)%nat.
Proof.
  unfold custom_gates. induction qc as [|p qc IH]; [reflexivity|].
  cbn [fmap list_fmap concat]. rewrite length_app, IH. cbn [length]. lia.
Qed.

Lemma nbBsbGates_even (k : nat) :
  nbBsbGates (Z.of_nat (id_Qci + 2 * k)) = k.
Proof.
  unfold nbBsbGates. rewrite Z.shiftr_div_pow2 by lia.
  replace (Z.of_nat (id_Qci + 2 * k) - Z.of_nat id_Qci + 1)%Z
    with (1 + Z.of_nat k * 2)%Z by lia.
  change (2 ^ 1)%Z with 2%Z. rewrite Z.div_add by lia.
  change (1 / 2)%Z with 0%Z. lia.
Qed.

Lemma scale_at_Some (u : list fr) (k : nat) (c v : fr) :
  u !! k = Some v -> scale_at u k c = Some (<[k:=v * c]> u).
Proof.
  intros H. unfold scale_at, store. rewrite H. cbn [mbind option_bind].
  apply lookup_lt_Some in H. rewrite decide_True by exact H. reflexivity.
Qed.

Lemma add_at_Some (u : list fr) (k : nat) (y v : fr) :
  u !! k = Some v -> add_at u k y = Some (<[k:=v + y]> u).
Proof.
  intros H. unfold add_at, store. rewrite H. cbn [mbind option_bind].
  apply lookup_lt_Some in H. rewrite decide_True by exact H. reflexivity.
Qed.

Lemma gate_loop (pre : list fr) (qc done : list (fr * fr)) (ic : fr) :
  length pre = id_Qci ->
  for_each (fun ic i =>
              a ← (pre ++ custom_gates (done ++ qc)) !! (id_Qci + 2 * i)%nat;
              b ← (pre ++ custom_gates (done ++ qc)) !! (id_Qci + 2 * i + 1)%nat;
              Some (Zmod.add ic (Zmod.mul a b)))
           (seq (length done) (length qc)) ic
  = Some (ic + sum_fr ((fun p => p.1 * p.2) <$> qc)).
Proof.
  intros Hpre. revert done ic. induction qc as [|p qc IH]; intros done ic.
  - cbn. f_equal. change (sum_fr []) with (0 : fr). ring.
  - cbn [length seq for_each].
    assert (E : forall j, (j < 2)%nat ->
              (pre ++ custom_gates (done ++ p :: qc)) !! (id_Qci + 2 * length done + j)%nat
              = [p.1; p.2] !! j).
    { intros j Hj. rewrite lookup_app_r by lia.
      unfold custom_gates. rewrite fmap_app, concat_app.
      fold (custom_gates done). rewrite lookup_app_r
        by (rewrite length_custom_gates; lia).
      rewrite length_custom_gates, Hpre.
      replace (id_Qci + 2 * length done + j - id_Qci - 2 * length done)%nat with j by lia.
      cbn [fmap list_fmap concat]. rewrite lookup_app_l by (cbn; lia). reflexivity. }
    pose proof (E 0%nat ltac:(lia)) as E0. pose proof (E 1%nat ltac:(lia)) as E1.
    rewrite Nat.add_0_r in E0. rewrite E0, E1. cbn [lookup list_lookup mbind option_bind].
    specialize (IH (done ++ [p]) (ic + p.1 * p.2)).
    rewrite <- app_assoc, length_app in IH. cbn [app length] in IH.
    rewrite Nat.add_1_r in IH. rewrite IH. f_equal.
    cbn [fmap list_fmap]. change (sum_fr (?a :: ?l)) with (a + sum_fr l). ring.
Qed.

Lemma gateConstraint_spec (l r o z zs ql qr qm qo qk s1 s2 s3 id lone : fr)
    (qc : list (fr * fr)) (len_x : Z) :
  len_x = Z.of_nat (id_Qci + 2 * length qc) ->
  gateConstraint len_x
    (l :: r :: o :: z :: zs :: ql :: qr :: qm :: qo :: qk :: s1 :: s2 :: s3 :: id
       :: lone :: custom_gates qc)
  = Some (ql * l + qr * r + qm * l * r + qo * o + qk
          + sum_fr ((fun p => p.1 * p.2) <$> qc)).
Proof.
  intros ->. unfold gateConstraint. rewrite nbBsbGates_even.
  cbn [lookup list_lookup id_Ql id_Qr id_Qm id_Qo id_Qk id_L id_R id_O
       mbind option_bind].
  exact (gate_loop [l; r; o; z; zs; ql; qr; qm; qo; qk; s1; s2; s3; id; lone]
           qc [] _ eq_refl).
Qed.

(** X27. On the values of a row in the order of [s.x], with canonical
    blinding polynomials, [allConstraints] returns
    gate + alpha * ordering + alpha^2 * ratio, where the three terms are
    read on the blinded values L + Bl(w), R + Br(w), O + Bo(w), Z + Bz(w)
    and ZS + Bz(w'), w and w' being entries i and (i + 1) mod n of
    [twiddles0]: gate is the PLONK gate with the sum of the custom
    gates, ordering is the product with the beta-scaled permutation
    values times ZS minus the product with the identity values times Z,
    and ratio is (Z - 1) * LOne.  So it returns zero when the three
    vanish. *)
Theorem allConstraints_spec (alpha beta gamma cs css : fr) (Bl Br Bo Bz : list fr)
    (twiddles0 : list fr) (n : Z) (i : nat)
    (l r o z zs ql qr qm qo qk s1 s2 s3 id lone : fr) (qc : list (fr * fr))
    (w w' : fr) :
  twiddles0 !! i = Some w ->
  twiddles0 !! Z.to_nat ((Z.of_nat i + 1) mod n) = Some w' ->
  (0 < n)%Z ->
  let u := [l; r; o; z; zs; ql; qr; qm; qo; qk; s1; s2; s3; id; lone]
             ++ custom_gates qc in
  let bp := (fun c => NewPolynomial c Canonical) <$> [Bl; Br; Bo; Bz] in
  let l' := l + Evaluate Bl w in
  let r' := r + Evaluate Br w in
  let o' := o + Evaluate Bo w in
  let z' := z + Evaluate Bz w in
  let zs' := zs + Evaluate Bz w' in
  let gate := ql * l' + qr * r' + qm * l' * r' + qo * o' + qk
              + sum_fr ((fun p => p.1 * p.2) <$> qc) in
  let ordering :=
    (beta * s1 + l' + gamma) * (beta * s2 + r' + gamma) * (beta * s3 + o' + gamma) * zs'
    - (l' + id + gamma) * (r' + cs * id + gamma) * (o' + css * id + gamma) * z' in
  let ratio := (z' - 1) * lone in
  let res := allConstraints alpha beta gamma cs css (Z.of_nat (length u)) bp
               twiddles0 n i u in
  res = Some (gate + alpha * ordering + alpha * alpha * ratio) /\
  (gate = 0 -> ordering = 0 -> ratio = 0 -> res = Some 0).
Proof.
  intros Hw Hw' Hn u bp l' r' o' z' zs' gate ordering ratio res.
  assert (Hres : res = Some (gate + alpha * ordering + alpha * alpha * ratio)).
  { subst res. unfold allConstraints.
    rewrite Z.rem_mod_nonneg by lia. rewrite Hw, Hw'.
    subst u bp.
    repeat (erewrite scale_at_Some by reflexivity;
            cbn [mbind option_bind insert list_insert id_S1 id_S2 id_S3 app]).
    cbn [fmap list_fmap lookup list_lookup id_Bl id_Br id_Bo id_Bz mbind option_bind
         Polynomial_Evaluate basis Coefficients].
    repeat (erewrite add_at_Some by reflexivity;
            cbn [mbind option_bind insert list_insert id_L id_R id_O id_Z id_ZS app]).
    rewrite gateConstraint_spec
      by (cbn [length app]; rewrite length_custom_gates; reflexivity).
    unfold orderingConstraint, ratioLocalConstraint.
    cbn [lookup list_lookup id_L id_R id_O id_Z id_ZS id_S1 id_S2 id_S3 id_ID id_LOne
         mbind option_bind].
    f_equal. subst gate ordering ratio l' r' o' z' zs'. ring. }
  split; [exact Hres|].
  intros Hg Ho Hr. rewrite Hres, Hg, Ho, Hr. f_equal. ring.
Qed.

End Constraints.

Lemma allConstraints_spec_witness :
  allConstraints (f97 2) (f97 3) (f97 5) (f97 7) (f97 49) 17
    ((fun c => NewPolynomial c Canonical) <$> [[f97 1]; [f97 2; f97 1]; []; [f97 4]])
    [f97 1; f97 96] 2 1
    (f97 <$> [1; 2; 3; 4; 5; 6; 7; 8; 9; 10; 11; 12; 13; 14; 15; 16; 17]%Z)
  = Some (f97 80).
Proof.
  pose proof (allConstraints_spec (f97 2) (f97 3) (f97 5) (f97 7) (f97 49)
                [f97 1] [f97 2; f97 1] [] [f97 4] [f97 1; f97 96] 2 1
                (f97 1) (f97 2) (f97 3) (f97 4) (f97 5) (f97 6) (f97 7) (f97 8)
                (f97 9) (f97 10) (f97 11) (f97 12) (f97 13) (f97 14) (f97 15)
                [(f97 16, f97 17)] (f97 96) (f97 1)
                eq_refl eq_refl ltac:(lia)) as [H _].
  etransitivity; [exact H|]. vm_compute. reflexivity.
Defined.

(** ** Bit reversal *)

Lemma Reverse64_fold_testbit (x : Z) (l : list nat) (c : Z) :
  (0 <= c)%Z -> (forall b, b ∈ l -> b < 64) ->
  Z.testbit (foldr (fun b acc => if Z.testbit x (Z.of_nat b)
                                 then Z.setbit acc (63 - Z.of_nat b) else acc)
                   0%Z l) c = true
  <-> exists b, b ∈ l /\ (63 - Z.of_nat b)%Z = c /\ Z.testbit x (Z.of_nat b) = true.
Proof.
  intros Hc. induction l as [|b l IH]; intros Hl.
  - cbn. rewrite Z.bits_0. split; [discriminate|].
    intros (b & Hb & _). apply elem_of_nil in Hb. destruct Hb.
  - cbn [foldr].
    assert (Hb : b < 64) by (apply Hl; apply list_elem_of_here).
    specialize (IH (fun b' H => Hl b' (list_elem_of_further _ _ _ H))).
    destruct (Z.testbit x (Z.of_nat b)) eqn:E.
    + rewrite Z.setbit_eqb by lia. rewrite orb_true_iff, IH, Z.eqb_eq. split.
      * intros [H|(b' & H1 & H2 & H3)].
        -- exists b. repeat split; [left|exact H|exact E].
        -- exists b'. repeat split; [right; exact H1|exact H2|exact H3].
      * intros (b' & H1 & H2 & H3). apply elem_of_cons in H1. destruct H1 as [->|H1].
        -- left. exact H2.
        -- right. exists b'. auto.
    + rewrite IH. split.
      * intros (b' & H1 & H2 & H3). exists b'. repeat split; [right; exact H1|exact H2|exact H3].
      * intros (b' & H1 & H2 & H3). apply elem_of_cons in H1. destruct H1 as [->|H1].
        -- congruence.
        -- exists b'. auto.
Qed.

Lemma Reverse64_fold_nonneg (x : Z) (l : list nat) :
  (forall b, b ∈ l -> b < 64) ->
  (0 <= foldr (fun b acc => if Z.testbit x (Z.of_nat b)
                            then Z.setbit acc (63 - Z.of_nat b) else acc)
              0%Z l)%Z.
Proof.
  induction l as [|b l IH]; intros Hl; [cbn; lia|].
  cbn [foldr]. specialize (IH (fun b' H => Hl b' (list_elem_of_further _ _ _ H))).
  destruct (Z.testbit x (Z.of_nat b)); [|exact IH].
  unfold Z.setbit. apply Z.lor_nonneg. split; [exact IH|].
  apply Z.shiftl_nonneg. lia.
Qed.

Lemma Reverse64_nonneg (x : Z) : (0 <= Reverse64 x)%Z.
Proof.
  unfold Reverse64. generalize (eq_refl : 64 = 64). generalize 64 at 1 3.
  intros N HN. apply Reverse64_fold_nonneg. intros b Hb. apply elem_of_seq in Hb. lia.
Qed.

Lemma Reverse64_fold_seq (x c : Z) (N : nat) :
  N = 64 -> (0 <= c)%Z ->
  Z.testbit (foldr (fun b acc => if Z.testbit x (Z.of_nat b)
                                 then Z.setbit acc (63 - Z.of_nat b) else acc)
                   0%Z (seq 0 N)) c
  = if decide (c < 64)%Z then Z.testbit x (63 - c) else false.
Proof.
  intros HN Hc.
  assert (HN' : forall b, b ∈ seq 0 N -> b < 64)
    by (intros b Hb; apply elem_of_seq in Hb; lia).
  pose proof (Reverse64_fold_testbit x (seq 0 N) c Hc HN') as H.
  set (R := foldr _ _ _) in *.
  destruct (decide (c < 64)%Z) as [Hlt|Hge].
  - destruct (Z.testbit x (63 - c)) eqn:E.
    + apply H. exists (Z.to_nat (63 - c)). rewrite Z2Nat.id by lia.
      repeat split; [apply elem_of_seq; lia|lia|exact E].
    + destruct (Z.testbit R c) eqn:E'; [|reflexivity].
      destruct (proj1 H eq_refl) as (b & _ & Hb & Hx).
      replace (63 - c)%Z with (Z.of_nat b) in E by lia. congruence.
  - destruct (Z.testbit R c) eqn:E'; [|reflexivity].
    destruct (proj1 H eq_refl) as (b & Hb & Hc' & _). apply elem_of_seq in Hb. lia.
Qed.

Lemma Reverse64_testbit (x c : Z) :
  (0 <= c)%Z ->
  Z.testbit (Reverse64 x) c = if decide (c < 64)%Z then Z.testbit x (63 - c) else false.
Proof. exact (Reverse64_fold_seq x c 64 eq_refl). Qed.

Lemma TrailingZeros64_pow2 (k : Z) :
  (0 <= k < 64)%Z -> TrailingZeros64 (2 ^ k) = k.
Proof.
  intros Hk. assert (E : exists kn : nat, k = Z.of_nat kn /\ kn < 64)
    by (exists (Z.to_nat k); lia).
  destruct E as (kn & -> & Hkn).
  do 64 (destruct kn as [|kn]; [vm_compute; reflexivity|]). lia.
Qed.

Lemma testbit_above (p k b : Z) :
  (0 <= p < 2 ^ k)%Z -> (k <= b)%Z -> Z.testbit p b = false.
Proof.
  intros Hp Hb. destruct (decide (p = 0%Z)) as [->|Hne]; [apply Z.bits_0|].
  apply Z.bits_above_log2; [lia|].
  assert (Z.log2 p < k)%Z; [|lia].
  apply Z.log2_lt_pow2; lia.
Qed.

Lemma below_pow2 (p k : Z) :
  (0 <= k)%Z -> (0 <= p)%Z -> (forall b, (k <= b)%Z -> Z.testbit p b = false) ->
  (p < 2 ^ k)%Z.
Proof.
  intros Hk Hp H. destruct (decide (p = 0%Z)) as [->|Hne]; [apply Z.pow_pos_nonneg; lia|].
  apply Z.log2_lt_pow2; [lia|].
  destruct (decide (Z.log2 p < k)%Z) as [Hlt|Hge]; [exact Hlt|].
  pose proof (Z.bit_log2 p ltac:(lia)) as Hbit.
  rewrite H in Hbit by lia. discriminate.
Qed.

(** Two numbers below 2^k whose bits below k agree are equal. *)
Lemma bits_below_inj (p p' k : Z) :
  (0 <= p < 2 ^ k)%Z -> (0 <= p' < 2 ^ k)%Z ->
  (forall b, (0 <= b < k)%Z -> Z.testbit p b = Z.testbit p' b) -> p = p'.
Proof.
  intros Hp Hp' H. apply Z.bits_inj'. intros b Hb.
  destruct (decide (b < k)%Z) as [Hlt|Hge]; [apply H; lia|].
  rewrite (testbit_above p k b), (testbit_above p' k b) by lia. reflexivity.
Qed.


(** For [n = 2^k], [reverse_bits n] reverses the [k] low bits. *)
Lemma reverse_bits_spec (k x : Z) :
  (0 <= k < 64)%Z -> (0 <= x < 2 ^ k)%Z ->
  (0 <= reverse_bits (2 ^ k) x < 2 ^ k)%Z /\
  forall b, (0 <= b < k)%Z ->
    Z.testbit (reverse_bits (2 ^ k) x) b = Z.testbit x (k - 1 - b).
Proof.
  intros Hk Hx. unfold reverse_bits.
  rewrite TrailingZeros64_pow2 by exact Hk.
  assert (Hnn : (0 <= Z.shiftr (Reverse64 x) (64 - k))%Z)
    by (apply Z.shiftr_nonneg, Reverse64_nonneg).
  assert (Hbit : forall b, (0 <= b)%Z ->
            Z.testbit (Z.shiftr (Reverse64 x) (64 - k)) b
            = if decide (b < k)%Z then Z.testbit x (k - 1 - b) else false).
  { intros b Hb. rewrite Z.shiftr_spec by lia. rewrite Reverse64_testbit by lia.
    destruct (decide (b + (64 - k) < 64)%Z), (decide (b < k)%Z);
      try lia; try reflexivity.
    f_equal. lia. }
  split; [split; [exact Hnn|]|].
  - apply below_pow2; [lia|exact Hnn|]. intros b Hb. rewrite Hbit by lia.
    rewrite decide_False by lia. reflexivity.
  - intros b Hb. rewrite Hbit by lia. rewrite decide_True by lia. reflexivity.
Qed.

Lemma reverse_bits_involutive (k x : Z) :
  (0 <= k < 64)%Z -> (0 <= x < 2 ^ k)%Z ->
  reverse_bits (2 ^ k) (reverse_bits (2 ^ k) x) = x.
Proof.
  intros Hk Hx.
  destruct (reverse_bits_spec k x Hk Hx) as [Hr Hb].
  destruct (reverse_bits_spec k _ Hk Hr) as [Hr' Hb'].
  apply (bits_below_inj _ _ k); [exact Hr'|exact Hx|].
  intros b Hb0. rewrite Hb', Hb by lia. f_equal. lia.
Qed.

Lemma length_fft_BitReverse {A : Type} (v : list A) :
  length (fft_BitReverse v) = length v.
Proof. unfold fft_BitReverse. apply length_imap. Qed.

Lemma lookup_fft_BitReverse {A : Type} (v : list A) (k : Z) (i : nat) :
  (0 <= k < 64)%Z -> Z.of_nat (length v) = (2 ^ k)%Z -> i < length v ->
  fft_BitReverse v !! i = v !! Z.to_nat (reverse_bits (2 ^ k) (Z.of_nat i)).
Proof.
  intros Hk Hlen Hi. unfold fft_BitReverse. rewrite list_lookup_imap, Hlen.
  destruct (lookup_lt_is_Some_2 v i Hi) as [x Hx]. rewrite Hx. cbn.
  destruct (reverse_bits_spec k (Z.of_nat i) Hk ltac:(lia)) as [Hr _].
  destruct (lookup_lt_is_Some_2 v (Z.to_nat (reverse_bits (2 ^ k) (Z.of_nat i)))
              ltac:(lia)) as [y Hy].
  rewrite Hy. reflexivity.
Qed.


(** ** The inverse transform on a coset *)

Section InverseTransform.
Context {q : Z}.
Hypothesis q_prime : Z.prime q.
#[local] Abbreviation fr := (Zmod q).
Add Field fr_field_transform : (Zmod.field_theory q q_prime).

#[local] Open Scope Zmod_scope.











End InverseTransform.

(** ** The division by X^n - 1, point by point *)

Lemma fft_BitReverse_imap {A B : Type} (h : nat -> A -> B) (v : list A) (k : Z) :
  (0 <= k < 64)%Z -> Z.of_nat (length v) = (2 ^ k)%Z ->
  fft_BitReverse
    (imap (fun i x => h (Z.to_nat (reverse_bits (2 ^ k) (Z.of_nat i))) x) v)
  = imap h (fft_BitReverse v).
Proof.
  intros Hk Hlen. apply list_eq. intros x.
  destruct (decide (x < length v)) as [Hx|Hx].
  - destruct (reverse_bits_spec k (Z.of_nat x) Hk ltac:(lia)) as [Hr _].
    rewrite (lookup_fft_BitReverse _ k) by (rewrite ?length_imap; assumption).
    rewrite !list_lookup_imap, (lookup_fft_BitReverse _ k) by assumption.
    rewrite Z2Nat.id by lia. rewrite reverse_bits_involutive by lia.
    rewrite Nat2Z.id. reflexivity.
  - rewrite !lookup_ge_None_2; [reflexivity| |].
    + rewrite length_imap, length_fft_BitReverse. lia.
    + rewrite length_fft_BitReverse, length_imap. lia.
Qed.

Section PointwiseDivision.
Context {q : Z}.
#[local] Abbreviation fr := (Zmod q).
Add Ring fr_ring_division2 : (Zmod.ring_theory q).

#[local] Open Scope Zmod_scope.

(** On a bit-reversed polynomial in Lagrange-coset form the division
    returns, and divides the value at each point of the coset by the
    value of X^n - 1 at that point. *)
Lemma divideByXMinusOne_regular (a : @Polynomial q) (domain0 domain1 : Domain) (k : Z) :
  let n := Cardinality domain0 in
  let rho := Z.to_nat (Cardinality domain1 / n) in
  let u := FrMultiplicativeGen domain1 in
  let w := Generator domain1 in
  basis a = LagrangeCoset ->
  (0 <= n)%Z -> (0 < rho)%nat -> Exp w (n * Z.of_nat rho) = 1 ->
  (0 <= k < 64)%Z -> Z.of_nat (Size a) = (2 ^ k)%Z ->
  divideByXMinusOne a BitReverse domain0 domain1
  = Ok (ToCanonical domain1
          (NewPolynomial
             (imap (fun x vx => vx * Zmod.inv (Exp (u * Exp w (Z.of_nat x)) n - 1))
                   (fft_BitReverse (Coefficients a)))
             LagrangeCoset)).
Proof.
  intros n rho u w Hb Hn Hrho Hone Hk Hsize. unfold divideByXMinusOne. rewrite Hb.
  fold n rho. unfold Size in Hsize.
  assert (Hinv : forall i, (i < rho)%nat ->
            evaluateXnMinusOneDomainBigCoset domain0 domain1 !! i
            = Some (Zmod.inv (Exp u n * Exp (Exp w n) (Z.of_nat i) - 1))).
  { intros i Hi. unfold evaluateXnMinusOneDomainBigCoset. fold n rho u w.
    rewrite list_lookup_fmap, lookup_seq_lt by exact Hi. reflexivity. }
  rewrite (Hinv 0%nat Hrho). cbn [or_panic mbind result_bind].
  rewrite Hsize.
  rewrite (mapM_imap_total _
             (fun i ai =>
                ai * Zmod.inv (Exp (u * Exp w (Z.of_nat
                                 (Z.to_nat (reverse_bits (2 ^ k) (Z.of_nat i))))) n - 1))).
  - cbn [or_panic mbind result_bind]. do 3 f_equal.
    apply (fft_BitReverse_imap
             (fun x vx => vx * Zmod.inv (Exp (u * Exp w (Z.of_nat x)) n - 1))
             (Coefficients a) k Hk Hsize).
  - intros i x _. rewrite Hinv by (apply Nat.mod_upper_bound; lia).
    cbn [mbind option_bind]. rewrite coset_point_pow by assumption. reflexivity.
Qed.

(** X19. [divideByXMinusOne] returns the error 'invalid form' unless the
    polynomial is in Lagrange-coset form and bit-reversed layout.  On one
    that is, with as many entries as the large domain has points, 2^k of
    them, and when the generator w of the large domain has order dividing
    n rho, the value at the point u w^x of the coset, which the
    bit-reversed layout keeps at the reversal of x, is divided by the
    value of X^n - 1 at that point, before the result is brought back to
    canonical form. *)
Theorem divideByXMinusOne_pointwise (a : @Polynomial q) (a_Layout : Layout)
    (domain0 domain1 : Domain) (k : Z) :
  let n := Cardinality domain0 in
  let rho := Z.to_nat (Cardinality domain1 / n) in
  let u := FrMultiplicativeGen domain1 in
  let w := Generator domain1 in
  (0 <= n)%Z -> (0 < rho)%nat -> Exp w (n * Z.of_nat rho) = 1 ->
  (0 <= k < 64)%Z -> Cardinality domain1 = (2 ^ k)%Z ->
  Z.of_nat (Size a) = Cardinality domain1 ->
  divideByXMinusOne a a_Layout domain0 domain1
  = match basis a, a_Layout with
    | LagrangeCoset, BitReverse =>
        Ok (ToCanonical domain1
              (NewPolynomial
                 (imap (fun x vx =>
                          vx * Zmod.inv (Exp (u * Exp w (Z.of_nat x)) n - 1))
                       (fft_BitReverse (Coefficients a)))
                 LagrangeCoset))
    | _, _ => Err ErrInvalidForm
    end.
Proof.
  intros n rho u w Hn Hrho Hone Hk Hcard Hsize.
  destruct (basis a) eqn:Hb, a_Layout;
    try (unfold divideByXMinusOne; rewrite Hb; reflexivity).
  apply (divideByXMinusOne_regular a domain0 domain1 k); try assumption.
  rewrite Hsize. exact Hcard.
Qed.

End PointwiseDivision.

Lemma divideByXMinusOne_pointwise_witness :
  divideByXMinusOne toy_numerator BitReverse toy_domain0 toy_domain1
  = Ok (ToCanonical toy_domain1
          (NewPolynomial
             (imap (fun x vx =>
                      Zmod.mul vx
                        (Zmod.inv
                           (Zmod.sub
                              (Exp (Zmod.mul (FrMultiplicativeGen toy_domain1)
                                      (Exp (Generator toy_domain1) (Z.of_nat x)))
                                   (Cardinality toy_domain0))
                              Zmod.one)))
                   (fft_BitReverse (Coefficients toy_numerator)))
             LagrangeCoset)) /\
  divideByXMinusOne toy_numerator Regular toy_domain0 toy_domain1 = Err ErrInvalidForm.
Proof.
  split.
  - apply (divideByXMinusOne_pointwise toy_numerator BitReverse toy_domain0 toy_domain1 4).
    + vm_compute. discriminate.
    + vm_compute. lia.
    + vm_compute. reflexivity.
    + lia.
    + reflexivity.
    + reflexivity.
  - apply (divideByXMinusOne_pointwise toy_numerator Regular toy_domain0 toy_domain1 4).
    + vm_compute. discriminate.
    + vm_compute. lia.
    + vm_compute. reflexivity.
    + lia.
    + reflexivity.
    + reflexivity.
Defined.

(** ** The quotient and its chunks *)



Section QuotientChunks.
Context {q : Z}.
Hypothesis q_prime : Z.prime q.
#[local] Abbreviation fr := (Zmod q).
Add Field fr_field_chunks : (Zmod.field_theory q q_prime).
Context (multiplicativeGen rootOfUnity : fr) (maxOrderRoot : Z).

#[local] Open Scope Zmod_scope.


End QuotientChunks.


(** ** The layout of the numerator *)

(** The index of the source is the reversal of the low [k] bits. *)
Lemma cres_index_spec (k rho : Z) (i j : nat) :
  let x := (rho * Z.of_nat j + Z.of_nat i)%Z in
  let p := Z.of_nat (cres_index (2 ^ k) rho i j) in
  (0 <= k < 64)%Z -> (0 <= x < 2 ^ k)%Z ->
  (0 <= p < 2 ^ k)%Z /\
  forall b, (0 <= b < k)%Z -> Z.testbit p b = Z.testbit x (k - 1 - b).
Proof.
  intros x p Hk Hx. subst p. unfold cres_index. fold x.
  destruct (reverse_bits_spec k x Hk Hx) as [Hr Hb].
  rewrite Z2Nat.id by lia. split; assumption.
Qed.

Section Writes.
Context {A : Type}.

(** A loop of writes at distinct places in range. *)
Lemma write_loop (g : nat -> nat) (buf cres : list A) (k : nat) :
  k <= length buf ->
  (forall j, j < k -> g j < length cres) ->
  (forall j j', j < k -> j' < k -> g j = g j' -> j = j') ->
  exists cres',
    for_each (fun cres j => v ← buf !! j; store cres (g j) v) (seq 0 k) cres = Some cres' /\
    length cres' = length cres /\
    (forall j, j < k -> cres' !! g j = buf !! j) /\
    (forall p, (forall j, j < k -> g j <> p) -> cres' !! p = cres !! p).
Proof.
  induction k as [|k IH]; intros Hk Hlt Hinj.
  - exists cres. split; [reflexivity|]. split; [reflexivity|].
    split; [intros; lia|reflexivity].
  - destruct IH as (c1 & E1 & L1 & W1 & R1); [lia|intros; apply Hlt; lia|
      intros; apply Hinj; lia|].
    destruct (lookup_lt_is_Some_2 buf k ltac:(lia)) as [v Hv].
    exists (<[g k := v]> c1).
    rewrite seq_S, for_each_app, E1. cbn [for_each plus]. rewrite Hv.
    cbn [mbind option_bind]. rewrite store_Some by (rewrite L1; apply Hlt; lia).
    repeat split.
    + rewrite length_insert. exact L1.
    + intros j Hj. destruct (decide (j = k)) as [->|Hne].
      * rewrite list_lookup_insert_eq by (rewrite L1; apply Hlt; lia). symmetry. exact Hv.
      * rewrite list_lookup_insert_ne by (intros E; apply Hne; symmetry; apply Hinj; [lia..|exact E]).
        apply W1. lia.
    + intros p Hp. rewrite list_lookup_insert_ne by (apply Hp; lia).
      apply R1. intros j Hj. apply Hp. lia.
Qed.

(** The passes of the loop, each a loop of writes, at distinct places. *)
Lemma write_passes (f : nat -> nat -> nat) (bufs : list (list A)) (cres : list A)
    (n t : nat) :
  t <= length bufs ->
  (forall buf, buf ∈ bufs -> length buf = n) ->
  (forall i j, i < t -> j < n -> f i j < length cres) ->
  (forall i j i' j', i < t -> j < n -> i' < t -> j' < n ->
     f i j = f i' j' -> i = i' /\ j = j') ->
  exists cres',
    for_each (fun cres i =>
                buf ← bufs !! i;
                for_each (fun cres j => v ← buf !! j; store cres (f i j) v)
                         (seq 0 n) cres)
             (seq 0 t) cres = Some cres' /\
    length cres' = length cres /\
    (forall i j buf, i < t -> j < n -> bufs !! i = Some buf -> cres' !! f i j = buf !! j).
Proof.
  intros Ht Hbufs. induction t as [|t IH]; intros Hlt Hinj.
  - exists cres. split; [reflexivity|]. split; [reflexivity|]. intros; lia.
  - destruct IH as (c1 & E1 & L1 & W1); [lia|intros; apply Hlt; lia|
      intros; apply Hinj; lia|].
    destruct (lookup_lt_is_Some_2 bufs t ltac:(lia)) as [buf Hbuf].
    assert (Hlen : length buf = n)
      by (apply Hbufs; eapply list_elem_of_lookup_2; exact Hbuf).
    destruct (write_loop (f t) buf c1 n) as (c2 & E2 & L2 & W2 & R2);
      [lia|intros; rewrite L1; apply Hlt; lia|
       intros j j' Hj Hj' E; apply (Hinj t j t j'); [lia..|exact E]|].
    exists c2. rewrite seq_S, for_each_app, E1. cbn [for_each plus]. rewrite Hbuf.
    cbn [mbind option_bind]. rewrite E2. repeat split; [congruence|].
    intros i j b Hi Hj Hb. destruct (decide (i = t)) as [->|Hne].
    + replace b with buf by congruence. apply W2. exact Hj.
    + rewrite R2; [apply W1; [lia|exact Hj|exact Hb]|].
      intros j' Hj' E. apply Hinj in E; lia.
Qed.

End Writes.

Section Layout.
Context {q : Z}.
#[local] Abbreviation fr := (Zmod q).

(** X28. When the large domain has 2^k points, k < 64, and the small one
    n points with rho * n = 2^k, and each of the rho passes has left n
    values in [buf], the loop over the cosets fills [cres] without a
    panic, and in bit-reversed order: the value j of pass i is at the
    position whose k low bits are those of rho * j + i reversed.  Every
    position of [cres] is written. *)
Theorem computeNumerator_cres_bit_reversed (domain0 domain1 : @Domain q)
    (bufs : list (list fr)) (k : Z) :
  let n := Cardinality domain0 in
  let m := Cardinality domain1 in
  let rho := (m / n)%Z in
  (0 <= k < 64)%Z -> m = (2 ^ k)%Z -> (0 < n)%Z -> (rho * n)%Z = m ->
  length bufs = Z.to_nat rho ->
  (forall buf, buf ∈ bufs -> length buf = Z.to_nat n) ->
  exists cres,
    computeNumerator_cres domain0 domain1 bufs = Some cres /\
    length cres = Z.to_nat m /\
    (forall i j buf v p,
       bufs !! i = Some buf -> buf !! j = Some v ->
       (0 <= p < 2 ^ k)%Z ->
       (forall b, (0 <= b < k)%Z ->
          Z.testbit p b = Z.testbit (rho * Z.of_nat j + Z.of_nat i) (k - 1 - b)) ->
       cres !! Z.to_nat p = Some v) /\
    (forall p, p < Z.to_nat m ->
       exists i j buf, bufs !! i = Some buf /\ cres !! p = buf !! j /\ j < Z.to_nat n).
Proof.
  intros n m rho Hk Hm Hn Hrho Hlen Hbufs.
  assert (Hrho0 : (0 < rho)%Z) by (pose proof (Z.pow_pos_nonneg 2 k); nia).
  assert (Hx : forall i j, i < Z.to_nat rho -> j < Z.to_nat n ->
             (0 <= rho * Z.of_nat j + Z.of_nat i < 2 ^ k)%Z) by (intros; nia).
  destruct (write_passes (cres_index m rho) bufs (replicate (Z.to_nat m) (Zmod.zero : fr))
              (Z.to_nat n) (Z.to_nat rho)) as (cres & E & L & W).
  - lia.
  - exact Hbufs.
  - intros i j Hi Hj. rewrite length_replicate, Hm.
    pose proof (cres_index_spec k rho i j Hk (Hx i j Hi Hj)) as [H _]. lia.
  - intros i j i' j' Hi Hj Hi' Hj' Heq. rewrite Hm in Heq.
    pose proof (cres_index_spec k rho i j Hk (Hx i j Hi Hj)) as [_ H].
    pose proof (cres_index_spec k rho i' j' Hk (Hx i' j' Hi' Hj')) as [_ H'].
    assert (Ex : (rho * Z.of_nat j + Z.of_nat i = rho * Z.of_nat j' + Z.of_nat i')%Z).
    { apply (bits_below_inj _ _ k); [apply Hx; assumption..|].
      intros b Hb. specialize (H (k - 1 - b)%Z ltac:(lia)).
      specialize (H' (k - 1 - b)%Z ltac:(lia)).
      replace (k - 1 - (k - 1 - b))%Z with b in H, H' by lia.
      rewrite <- H, <- H', Heq. reflexivity. }
    destruct (Z.div_mod_unique rho (Z.of_nat j) (Z.of_nat j') (Z.of_nat i) (Z.of_nat i'))
      as [Ej Ei]; [left; lia|left; lia|exact Ex|]. lia.
  - rewrite length_replicate in L.
    exists cres. split; [exact E|]. split; [exact L|]. split.
    + intros i j buf v p Hi Hj Hp Hbits.
      assert (Hi' : i < Z.to_nat rho) by (apply lookup_lt_Some in Hi; lia).
      assert (Hj' : j < Z.to_nat n).
      { apply lookup_lt_Some in Hj. rewrite (Hbufs buf) in Hj; [exact Hj|].
        eapply list_elem_of_lookup_2; exact Hi. }
      pose proof (cres_index_spec k rho i j Hk (Hx i j Hi' Hj')) as [Hr Hb].
      assert (Ep : p = Z.of_nat (cres_index m rho i j)).
      { rewrite Hm. apply (bits_below_inj _ _ k); [exact Hp|exact Hr|].
        intros b Hb'. rewrite Hbits, Hb by lia. reflexivity. }
      rewrite Ep, Nat2Z.id, (W i j buf Hi' Hj' Hi). exact Hj.
    + intros p Hp.
      pose proof (cres_index_spec k 1 0 p Hk ltac:(lia)) as [Hxr Hxb].
      set (x := Z.of_nat (cres_index (2 ^ k) 1 0 p)) in *.
      set (i := Z.to_nat (x mod rho)). set (j := Z.to_nat (x / rho)).
      pose proof (Z.mod_pos_bound x rho Hrho0) as Hmod.
      pose proof (Z.div_mod x rho ltac:(lia)) as Hdm.
      assert (Hdiv : (0 <= x / rho < n)%Z).
      { split; [apply Z.div_pos; lia|apply Z.div_lt_upper_bound; lia]. }
      assert (Hi : i < Z.to_nat rho) by (unfold i; lia).
      assert (Hj : j < Z.to_nat n) by (unfold j; lia).
      assert (Exx : (rho * Z.of_nat j + Z.of_nat i)%Z = x) by (unfold i, j; lia).
      pose proof (cres_index_spec k rho i j Hk (Hx i j Hi Hj)) as [Hr Hb].
      rewrite <- Hm in Hr, Hb.
      assert (Ep : cres_index m rho i j = p).
      { apply Nat2Z.inj. apply (bits_below_inj _ _ k); [lia|lia|].
        intros b Hb'. rewrite Hb, Exx, Hxb by lia. f_equal; lia. }
      destruct (lookup_lt_is_Some_2 bufs i ltac:(lia)) as [buf Hbuf].
      exists i, j, buf. split; [exact Hbuf|]. split; [|exact Hj].
      rewrite <- Ep. apply W; assumption.
Qed.

End Layout.

Lemma computeNumerator_cres_bit_reversed_witness :
  exists cres,
    computeNumerator_cres toy_domain0 toy_domain1 toy_bufs = Some cres /\
    length cres = 16 /\
    (forall i j buf v p,
       toy_bufs !! i = Some buf -> buf !! j = Some v ->
       (0 <= p < 2 ^ 4)%Z ->
       (forall b, (0 <= b < 4)%Z ->
          Z.testbit p b = Z.testbit (8 * Z.of_nat j + Z.of_nat i) (4 - 1 - b)) ->
       cres !! Z.to_nat p = Some v) /\
    (forall p, p < 16 ->
       exists i j buf, toy_bufs !! i = Some buf /\ cres !! p = buf !! j /\ j < 2).
Proof.
  apply (computeNumerator_cres_bit_reversed toy_domain0 toy_domain1 toy_bufs 4).
  - lia.
  - reflexivity.
  - vm_compute. reflexivity.
  - reflexivity.
  - reflexivity.
  - intros buf Hbuf. apply list_elem_of_fmap in Hbuf. destruct Hbuf as (i & -> & _).
    reflexivity.
Defined.
